(** * Authentication core of the task-management application

    A shallow embedding of the TypeScript sources that implement account
    lockout, the two rate limiters, the password-strength policy, the
    login and registration handlers, the unified authenticator and the
    request-boundary middleware, followed by the properties proved about
    them.

    Conventions of the embedding.
    - Times are milliseconds since the epoch, as [Date.now()] returns
      them, and live in [Z]; a [Date] is identified with its time value.
    - One handler call happens at one instant [now]: every clock read
      made while serving a request returns that value.
    - JavaScript numbers that the code only uses as counters and times
      are integers in [Z]; they stay far below 2^53 in every run.
    - The persistent user collection is a finite map keyed by the unique
      e-mail.  The store is reachable; a [save] or [create] is refused
      exactly when a validator of the user schema fails, and the
      exception then takes the handler's [catch] block.
    - The in-memory [Map]s of the limiters are finite maps keyed by the
      string the code builds.
    - A string of a request or of a stored record is a [string], one
      character per UTF-16 code unit, all below 256; the password policy,
      which inspects code units, is defined on arbitrary sequences of
      code units. *)

From Stdlib Require Import ZArith Lia Bool Ascii String.
From stdpp Require Import gmap strings list pretty.

Local Open Scope Z_scope.

(** ** JavaScript string primitives used by the sources *)

Module Js.

(** A string seen as its sequence of UTF-16 code units. *)
Definition jsstring := list N.

(** Code units of a string whose characters are all below 256. *)
Fixpoint units (s : string) : jsstring :=
  match s with
  | EmptyString => []
  | String c r => N_of_ascii c :: units r
  end.

(** [!!s] for a possibly missing string: [undefined], [null] and the
    empty string are falsy. *)
Definition truthy (o : option string) : bool :=
  match o with
  | Some s => negb (String.eqb s "")
  | None => false
  end.

(** [s.startsWith(p)] *)
Fixpoint startsWith (s p : string) {struct p} : bool :=
  match p, s with
  | EmptyString, _ => true
  | String _ _, EmptyString => false
  | String a p', String b s' => Ascii.eqb a b && startsWith s' p'
  end.

(** [s.substring(n)] for [0 <= n]. *)
Fixpoint substring_from (n : nat) (s : string) : string :=
  match n, s with
  | O, _ => s
  | S k, EmptyString => EmptyString
  | S k, String _ r => substring_from k r
  end.

(** [s.split(',')[0]]: the text before the first comma. *)
Fixpoint split_comma_first (s : string) : string :=
  match s with
  | EmptyString => EmptyString
  | String c r =>
      if Ascii.eqb c ","%char then EmptyString
      else String c (split_comma_first r)
  end.

(** White space and line terminators removed by [trim], among the code
    units below 256: TAB, LF, VT, FF, CR, SP and NBSP. *)
Definition is_space (c : ascii) : bool :=
  let n := N_of_ascii c in
  ((9 <=? n) && (n <=? 13) || (n =? 32) || (n =? 160))%N.

Fixpoint trim_start (s : string) : string :=
  match s with
  | EmptyString => EmptyString
  | String c r => if is_space c then trim_start r else s
  end.

(** Drops trailing white space; the result is the empty string when only
    white space follows. *)
Fixpoint trim_end (s : string) : string :=
  match s with
  | EmptyString => EmptyString
  | String c r =>
      match trim_end r with
      | EmptyString => if is_space c then EmptyString else String c EmptyString
      | r' => String c r'
      end
  end.

(** [s.trim()] *)
Definition trim (s : string) : string := trim_end (trim_start s).

(** [toLowerCase] on one code unit below 256: A-Z and the accented
    capitals 192-222 other than the multiplication sign move up by 32. *)
Definition lower_char (c : ascii) : ascii :=
  let n := N_of_ascii c in
  if ((65 <=? n) && (n <=? 90)
      || (192 <=? n) && (n <=? 222) && negb (n =? 215))%N
  then ascii_of_N (n + 32) else c.

Fixpoint toLowerCase (s : string) : string :=
  match s with
  | EmptyString => EmptyString
  | String c r => String (lower_char c) (toLowerCase r)
  end.

(** [s.replace(re, '')] with the global pattern [re] of the source: it
    deletes every angle bracket, apostrophe and double quote. *)
Fixpoint strip_quotes_angles (s : string) : string :=
  match s with
  | EmptyString => EmptyString
  | String c r =>
      let n := N_of_ascii c in
      if ((n =? 60) || (n =? 62) || (n =? 39) || (n =? 34))%N
      then strip_quotes_angles r
      else String c (strip_quotes_angles r)
  end.

(** [Math.ceil(x / 1000)] for an integer [x]. *)
Definition ceil_div_1000 (x : Z) : Z := - ((- x) / 1000).

End Js.

(** ** Collaborators that are not part of the sources

    [bcrypt], the [sanitize-html] library and the token module [jwt.ts]
    are used by the handlers but their code is not in the repository
    snapshot; the handlers are modelled over any implementation. *)

Class Externals := {
  (** [bcrypt.compare(candidate, hash)] *)
  bcrypt_compare : string -> string -> bool;
  (** [bcrypt.hash(plain, salt)], with the salt [bcrypt.genSalt(12)] drew *)
  bcrypt_hash : string -> string -> string;
  (** [sanitizeHtml(input, {allowedTags: [], ...})] *)
  sanitizeHtml : string -> string;
  (** [generateToken({userId, email})] of [jwt.ts], at a given instant *)
  generateToken : Z -> string -> string -> string;
  (** [verifyToken(token)] of [jwt.ts], at a given instant: the decoded
      [(userId, email)] or [null] *)
  verifyToken : Z -> string -> option (string * string)
}.

(** ** The user model (mongoose schema and its methods) *)

Module UserModel.

Inductive Provider := credentials | google | github.

(** The persisted fields of [IUser].  [password] holds the stored hash
    when there is one; [provider] is absent for records written before
    the field existed. *)
Record IUser := mkUser {
  _id : string;
  email : string;
  password : option string;
  firstName : string;
  lastName : string;
  avatar : string;
  bio : string;
  provider : option Provider;
  providerId : option string;
  emailVerified : bool;
  lastLogin : option Z;
  loginAttempts : Z;
  lockUntil : option Z
}.

Definition MAX_LOGIN_ATTEMPTS : Z := 5.
Definition LOCK_TIME : Z := 2 * 60 * 60 * 1000.

(** The update documents handed to [updateOne] by the methods below:
    [$set] of [loginAttempts], [lockUntil] and [lastLogin], [$inc] of
    [loginAttempts] and [$unset] of [lockUntil]. *)
Record Update := mkUpdate {
  set_loginAttempts : option Z;
  set_lockUntil : option Z;
  set_lastLogin : option Z;
  inc_loginAttempts : option Z;
  unset_lockUntil : bool
}.

(** [this.updateOne(update)] applied to the stored record. *)
Definition updateOne (upd : Update) (u : IUser) : IUser :=
  {| _id := _id u;
     email := email u;
     password := password u;
     firstName := firstName u;
     lastName := lastName u;
     avatar := avatar u;
     bio := bio u;
     provider := provider u;
     providerId := providerId u;
     emailVerified := emailVerified u;
     lastLogin :=
       match set_lastLogin upd with
       | Some t => Some t
       | None => lastLogin u
       end;
     loginAttempts :=
       match set_loginAttempts upd, inc_loginAttempts upd with
       | Some n, _ => n
       | None, Some d => loginAttempts u + d
       | None, None => loginAttempts u
       end;
     lockUntil :=
       if unset_lockUntil upd then None
       else match set_lockUntil upd with
            | Some t => Some t
            | None => lockUntil u
            end |}.

(** [!!(this.lockUntil && this.lockUntil > new Date())] *)
Definition isLocked (now : Z) (u : IUser) : bool :=
  match lockUntil u with
  | Some t => now <? t
  | None => false
  end.

(** [this.lockUntil && this.lockUntil < new Date()] *)
Definition lockExpired (now : Z) (u : IUser) : bool :=
  match lockUntil u with
  | Some t => t <? now
  | None => false
  end.

Definition incrementLoginAttempts (now : Z) (u : IUser) : IUser :=
  if lockExpired now u then
    updateOne {| set_loginAttempts := Some 1; set_lockUntil := None;
                 set_lastLogin := None; inc_loginAttempts := None;
                 unset_lockUntil := true |} u
  else
    let updates :=
      {| set_loginAttempts := None; set_lockUntil := None;
         set_lastLogin := None; inc_loginAttempts := Some 1;
         unset_lockUntil := false |} in
    let updates :=
      if (MAX_LOGIN_ATTEMPTS <=? loginAttempts u + 1) && negb (isLocked now u)
      then {| set_loginAttempts := set_loginAttempts updates;
              set_lockUntil := Some (now + LOCK_TIME);
              set_lastLogin := set_lastLogin updates;
              inc_loginAttempts := inc_loginAttempts updates;
              unset_lockUntil := unset_lockUntil updates |}
      else updates in
    updateOne updates u.

Definition resetLoginAttempts (now : Z) (u : IUser) : IUser :=
  updateOne {| set_loginAttempts := Some 0; set_lockUntil := None;
               set_lastLogin := Some now; inc_loginAttempts := None;
               unset_lockUntil := true |} u.

(** [u.provider && u.provider !== 'credentials'], the test both auth
    handlers make on a looked-up record. *)
Definition is_oauth_provider (p : option Provider) : bool :=
  match p with
  | Some google | Some github => true
  | Some credentials | None => false
  end.

(** [comparePassword]: [false] when no password is stored. *)
Definition comparePassword `{Externals} (u : IUser)
    (candidatePassword : string) : bool :=
  match password u with
  | Some hash =>
      if String.eqb hash "" then false
      else bcrypt_compare candidatePassword hash
  | None => false
  end.

Definition with_password (pw : option string) (u : IUser) : IUser :=
  {| _id := _id u; email := email u; password := pw;
     firstName := firstName u; lastName := lastName u;
     avatar := avatar u; bio := bio u; provider := provider u;
     providerId := providerId u; emailVerified := emailVerified u;
     lastLogin := lastLogin u; loginAttempts := loginAttempts u;
     lockUntil := lockUntil u |}.

Definition with_names (first last : string) (u : IUser) : IUser :=
  {| _id := _id u; email := email u; password := password u;
     firstName := first; lastName := last;
     avatar := avatar u; bio := bio u; provider := provider u;
     providerId := providerId u; emailVerified := emailVerified u;
     lastLogin := lastLogin u; loginAttempts := loginAttempts u;
     lockUntil := lockUntil u |}.

(** The [pre('save')] hook: a password that was modified and is set is
    replaced by its hash under the freshly drawn [salt]. *)
Definition pre_save `{Externals} (salt : string) (passwordModified : bool)
    (u : IUser) : IUser :=
  match password u with
  | Some plain =>
      if negb passwordModified || String.eqb plain "" then u
      else with_password (Some (bcrypt_hash plain salt)) u
  | None => u
  end.

(** A record as [new User(fields)] / [User.create(fields)] builds it:
    the schema defaults fill the lockout fields. *)
Definition newUser (id mail : string) (pw : option string)
    (first last av : string) (prov : option Provider)
    (provId : option string) (verified : bool) : IUser :=
  {| _id := id; email := mail; password := pw;
     firstName := first; lastName := last; avatar := av; bio := "";
     provider := prov; providerId := provId; emailVerified := verified;
     lastLogin := None; loginAttempts := 0; lockUntil := None |}.

(** Two records agree on the lockout fields. *)
Definition same_lockout (u v : IUser) : Prop :=
  loginAttempts u = loginAttempts v /\ lockUntil u = lockUntil v.

(** The account states that the application can produce: a record is
    created with the schema defaults, the login handler increments or
    resets its counter, and every other writer (registration, OAuth
    linking, profile edits) leaves the lockout fields alone. *)
Inductive reachable : IUser -> Prop :=
| reach_new id mail pw first last av prov provId verified :
    reachable (newUser id mail pw first last av prov provId verified)
| reach_increment now u :
    reachable u -> reachable (incrementLoginAttempts now u)
| reach_reset now u :
    reachable u -> reachable (resetLoginAttempts now u)
| reach_edit u v :
    reachable u -> same_lockout u v -> reachable v.

End UserModel.

(** ** The user schema: setters, defaults and validators

    The options that [userSchema] declares on its paths act whenever a
    document is built, loaded, looked up or saved: [lowercase] and
    [trim] are setters, run on a value that is assigned to the path and
    on the value of a query filter for it; [default] fills a path that
    a loaded record lacks; [required], [minlength], [maxlength] and
    [match] are validators, which [save] and [create] run on the
    document before the [pre('save')] hook, throwing when one fails. *)

Module UserSchema.
Import Js UserModel.

(** The setters of [email]: [lowercase: true] and [trim: true].  The
    two commute (lemma [toLowerCase_trim] below), so the order in which
    the library runs them does not show. *)
Definition email_setters (value : string) : string :=
  toLowerCase (trim value).

(** The setter of [firstName] and [lastName]: [trim: true]. *)
Definition name_setters (value : string) : string := trim value.

(** [[^\s@]] on one character. *)
Definition email_char (c : ascii) : bool :=
  negb (is_space c) && negb (Ascii.eqb c "@").

Fixpoint all_email_chars (s : string) : bool :=
  match s with
  | EmptyString => true
  | String c rest => email_char c && all_email_chars rest
  end.

(** Some character of [s] other than its last one is a dot. *)
Fixpoint dot_before_end (s : string) : bool :=
  match s with
  | String c (String _ _ as rest) => Ascii.eqb c "." || dot_before_end rest
  | _ => false
  end.

(** The part of the pattern after the at sign: characters of the class
    only, with a dot that is neither the first nor the last of them. *)
Definition domain_match (s : string) : bool :=
  match s with
  | EmptyString => false
  | String _ rest => all_email_chars s && dot_before_end rest
  end.

(** The pattern from the current position; [seen] says whether a
    character of the local part has been read. *)
Fixpoint email_match_from (seen : bool) (s : string) : bool :=
  match s with
  | EmptyString => false
  | String c rest =>
      if Ascii.eqb c "@" then seen && domain_match rest
      else if is_space c then false
      else email_match_from true rest
  end.

(** The [match] validator of [email]: the pattern
    [^[^\s@]+@[^\s@]+\.[^\s@]+$]. *)
Definition email_match (value : string) : bool :=
  email_match_from false value.

(** [required: true] on a string path: the empty string fails. *)
Definition required (value : string) : bool := negb (String.eqb value "").

(** The validators of the schema on a whole document: [email] is
    required and matches the pattern, a [password] that is set has at
    least 8 characters (at this point it is the text that was assigned,
    not yet its hash), the names are required and have at most 50
    characters, [bio] has at most 500.  The [enum] of [provider] holds
    by the type of the field. *)
Definition validate (doc : IUser) : bool :=
  required (email doc) && email_match (email doc)
  && match password doc with
     | Some value => (8 <=? String.length value)%nat
     | None => true
     end
  && required (firstName doc)
  && (String.length (firstName doc) <=? 50)%nat
  && required (lastName doc)
  && (String.length (lastName doc) <=? 50)%nat
  && (String.length (bio doc) <=? 500)%nat.

(** [doc.save()] and [User.create(doc)]: validation, then the
    [pre('save')] hook; [None] when validation throws, in which case
    nothing is written. *)
Definition save `{Externals} (salt : string) (passwordModified : bool)
    (doc : IUser) : option IUser :=
  if validate doc then Some (pre_save salt passwordModified doc) else None.

(** A stored record as the application sees it once loaded: a missing
    [provider] reads as its default, ['credentials'].  (The defaults of
    the other paths are how this model writes a missing value.) *)
Definition hydrate (stored : IUser) : IUser :=
  match provider stored with
  | Some _ => stored
  | None =>
      {| _id := _id stored; email := email stored;
         password := password stored; firstName := firstName stored;
         lastName := lastName stored; avatar := avatar stored;
         bio := bio stored; provider := Some credentials;
         providerId := providerId stored;
         emailVerified := emailVerified stored;
         lastLogin := lastLogin stored;
         loginAttempts := loginAttempts stored;
         lockUntil := lockUntil stored |}
  end.

(** [User.findOne({ email })] on the collection keyed by e-mail: the
    filter value goes through the setters of the path. *)
Definition findOne (users : gmap string IUser) (email : string)
    : option IUser :=
  hydrate <$> users !! email_setters email.

End UserSchema.

(** ** security.ts *)

Module Security.
Import Js.

Definition in_range (lo hi c : N) : bool := ((lo <=? c) && (c <=? hi))%N.

(** [/[a-z]/], [/[A-Z]/] and [/\d/] on one code unit. *)
Definition is_lower (c : N) : bool := in_range 97 122 c.
Definition is_upper (c : N) : bool := in_range 65 90 c.
Definition is_digit (c : N) : bool := in_range 48 57 c.

(** The character class of the symbol test: the code units of
    [! @ # $ % ^ & * ( ) , . ? : { } | < >] and of the double quote. *)
Definition symbol_units : list N :=
  [33; 64; 35; 36; 37; 94; 38; 42; 40; 41; 44; 46; 63; 34; 58; 123; 125;
   124; 60; 62]%N.

Definition is_symbol (c : N) : bool := existsb (N.eqb c) symbol_units.

(** [.] of a pattern without the [s] flag: any code unit except the line
    terminators LF, CR, U+2028 and U+2029. *)
Definition is_line_terminator (c : N) : bool :=
  ((c =? 10) || (c =? 13) || (c =? 8232) || (c =? 8233))%N.

(** Canonical form of a code unit under the [i] flag (no [u] flag): the
    ASCII small letters fold to capitals.  A code unit of 128 or more
    never folds to an ASCII one, so against the ASCII patterns below it
    behaves as itself. *)
Definition canonicalize (c : N) : N :=
  if is_lower c then (c - 32)%N else c.

(** The input starts with the pattern, compared with [eq]. *)
Fixpoint starts_with (eq : N -> N -> bool) (pat s : jsstring) : bool :=
  match pat, s with
  | [], _ => true
  | _ :: _, [] => false
  | p :: pat', c :: s' => eq p c && starts_with eq pat' s'
  end.

(** The pattern occurs somewhere in the input. *)
Fixpoint occurs (eq : N -> N -> bool) (pat s : jsstring) : bool :=
  starts_with eq pat s ||
  match s with
  | [] => false
  | _ :: s' => occurs eq pat s'
  end.

Definition eq_ci (p c : N) : bool := (canonicalize p =? canonicalize c)%N.

(** [/(.)\1{2,}/]: some code unit other than a line terminator, followed
    by two or more copies of itself. *)
Fixpoint has_repeat3 (s : jsstring) : bool :=
  match s with
  | [] => false
  | a :: r =>
      match r with
      | b :: c :: _ =>
          negb (is_line_terminator a) && (a =? b)%N && (a =? c)%N
      | _ => false
      end || has_repeat3 r
  end.

(** [commonPatterns.some(pattern => pattern.test(password))] with the
    five patterns [/^123/], [/password/i], [/qwerty/i], [/abc123/i] and
    [/(.)\1{2,}/] of the source. *)
Definition commonPatterns : list (jsstring -> bool) :=
  [ starts_with N.eqb (units "123");
    occurs eq_ci (units "password");
    occurs eq_ci (units "qwerty");
    occurs eq_ci (units "abc123");
    has_repeat3 ].

Definition matches_common_pattern (password : jsstring) : bool :=
  existsb (fun pattern => pattern password) commonPatterns.

Record Strength := mkStrength {
  isValid : bool;
  score : Z;
  feedback : list string
}.

(** One scored test: the score after it and the feedback after it. *)
Definition check (ok : bool) (msg : option string)
    (acc : Z * list string) : Z * list string :=
  if ok then (fst acc + 1, snd acc)
  else match msg with
       | Some m => (fst acc, snd acc ++ [m])
       | None => acc
       end.

Definition validatePasswordStrength (password : jsstring) : Strength :=
  let len := Z.of_nat (length password) in
  let acc := (0, []) in
  let acc := check (8 <=? len)
               (Some "Password should be at least 8 characters") acc in
  let acc := check (12 <=? len) None acc in
  let acc := check (existsb is_lower password)
               (Some "Add lowercase letters") acc in
  let acc := check (existsb is_upper password)
               (Some "Add uppercase letters") acc in
  let acc := check (existsb is_digit password) (Some "Add numbers") acc in
  let acc := check (existsb is_symbol password)
               (Some "Add special characters") acc in
  let acc :=
    if matches_common_pattern password
    then (Z.max 0 (fst acc - 2), snd acc ++ ["Avoid common patterns"])
    else acc in
  {| isValid := 4 <=? fst acc; score := fst acc; feedback := snd acc |}.

(** [email.toLowerCase().trim().replace(re, '')] *)
Definition sanitizeEmail (email : string) : string :=
  strip_quotes_angles (trim (toLowerCase email)).

(** [sanitizeInput] hands its argument to [sanitize-html]. *)
Definition sanitizeInput `{Externals} (input : string) : string :=
  sanitizeHtml input.

(** *** The policy in the words of the specification

    Used only to compare the specification with [validatePasswordStrength]. *)

Definition b2z (b : bool) : Z := if b then 1 else 0.

(** Number of the six scored criteria that a password meets. *)
Definition criteria_met (password : jsstring) : Z :=
  let len := Z.of_nat (length password) in
  b2z (8 <=? len) + b2z (12 <=? len)
  + b2z (existsb is_lower password) + b2z (existsb is_upper password)
  + b2z (existsb is_digit password) + b2z (existsb is_symbol password).

(** The weak patterns that the specification lists: a leading 123, the
    word password or qwerty, three or more repeated characters. *)
Definition spec_weak_pattern (password : jsstring) : bool :=
  starts_with N.eqb (units "123") password
  || occurs eq_ci (units "password") password
  || occurs eq_ci (units "qwerty") password
  || has_repeat3 password.

(** The score as the specification words it: the criteria met, less two
    on a listed weak pattern. *)
Definition spec_score (password : jsstring) : Z :=
  criteria_met password - (if spec_weak_pattern password then 2 else 0).

End Security.

(** ** apiResponse.ts and the responses of the handlers *)

Module Api.

Module HttpStatus.
Definition OK : Z := 200.
Definition CREATED : Z := 201.
Definition BAD_REQUEST : Z := 400.
Definition UNAUTHORIZED : Z := 401.
Definition CONFLICT : Z := 409.
Definition TOO_MANY_REQUESTS : Z := 429.
Definition INTERNAL_SERVER_ERROR : Z := 500.
End HttpStatus.

Module ErrorCode.
Definition VALIDATION_ERROR : string := "VALIDATION_ERROR".
Definition AUTHENTICATION_ERROR : string := "AUTHENTICATION_ERROR".
Definition CONFLICT_ERROR : string := "CONFLICT_ERROR".
Definition RATE_LIMIT_ERROR : string := "RATE_LIMIT_ERROR".
Definition INTERNAL_ERROR : string := "INTERNAL_ERROR".
End ErrorCode.

(** The [user] object that the auth handlers return (the creation
    time stamp of the schema is not modelled). *)
Record UserView := mkUserView {
  view_id : string;
  view_email : string;
  view_firstName : string;
  view_lastName : string;
  view_avatar : string;
  view_bio : string
}.

(** The JSON bodies that the modelled code builds. *)
Inductive Body :=
| SuccessBody (user : UserView) (token : string) (message : string)
| ErrorBody (error : string) (statusCode : Z) (code : string)
    (errors : option (list (string * string)))
| RateLimitBody (error : string) (retryAfter : Z).

(** A [NextResponse]: status, JSON body, the headers set by the
    modelled code and the value of the [token] cookie when one is set.
    The fixed security headers that [addSecurityHeaders] puts on every
    response are left out. *)
Record NextResponse := mkResponse {
  status : Z;
  body : Body;
  headers : list (string * string);
  token_cookie : option string
}.

Definition successResponse (user : UserView) (token message : string)
    (status : Z) : NextResponse :=
  {| status := status; body := SuccessBody user token message;
     headers := []; token_cookie := None |}.

Definition errorResponse (error : string) (status : Z) (code : string)
    (errors : option (list (string * string))) : NextResponse :=
  {| status := status; body := ErrorBody error status code errors;
     headers := []; token_cookie := None |}.

(** [handleZodError]: the issues arrive as (field, message) pairs. *)
Definition handleZodError (issues : list (string * string)) : NextResponse :=
  errorResponse "Validation failed" HttpStatus.BAD_REQUEST
    ErrorCode.VALIDATION_ERROR (Some issues).

(** [response.cookies.set('token', token, ...)] *)
Definition set_token_cookie (token : string) (r : NextResponse)
    : NextResponse :=
  {| status := status r; body := body r; headers := headers r;
     token_cookie := Some token |}.

(** What a handler's [try] block can throw before it answers. *)
Inductive Thrown :=
| ZodError (issues : list (string * string))
| OtherError.

(** The parts of a [NextRequest] that the modelled code reads. *)
Record NextRequest := mkRequest {
  x_forwarded_for : option string;
  authorization : option string;
  cookie_token : option string;
  pathname : string
}.

End Api.

(** ** rateLimiter.ts: the generic fixed-window limiter *)

Module RateLimiter.
Import Js Api.

Record RateLimitConfig := mkConfig {
  windowMs : Z;
  maxRequests : Z
}.

Record RateLimitEntry := mkEntry {
  count : Z;
  resetTime : Z
}.

Record RateLimitResult := mkResult {
  allowed : bool;
  remaining : Z;
  result_resetTime : Z
}.

(** [forwarded ? forwarded.split(',')[0].trim() : 'unknown'] *)
Definition requester_ip (forwarded : option string) : string :=
  if truthy forwarded
  then trim (split_comma_first (default EmptyString forwarded))
  else "unknown".

(** [getRateLimitKey(request, prefix)] *)
Definition getRateLimitKey (request : NextRequest) (prefix : string)
    : string :=
  prefix +:+ ":" +:+ requester_ip (x_forwarded_for request)
         +:+ ":" +:+ pathname request.

Definition checkRateLimit (now : Z) (rateLimitStore : gmap string RateLimitEntry)
    (request : NextRequest) (config : RateLimitConfig)
    : RateLimitResult * gmap string RateLimitEntry :=
  let key := getRateLimitKey request "" in
  let fresh :=
    let entry := {| count := 1; resetTime := now + windowMs config |} in
    ({| allowed := true; remaining := maxRequests config - 1;
        result_resetTime := resetTime entry |},
     <[key := entry]> rateLimitStore) in
  match rateLimitStore !! key with
  | None => fresh
  | Some entry =>
      if resetTime entry <? now then fresh
      else
        let entry := {| count := count entry + 1;
                        resetTime := resetTime entry |} in
        ({| allowed := count entry <=? maxRequests config;
            remaining := Z.max 0 (maxRequests config - count entry);
            result_resetTime := resetTime entry |},
         <[key := entry]> rateLimitStore)
  end.

(** [Math.ceil((resetTime - Date.now()) / 1000)] *)
Definition retry_after (now resetTime : Z) : Z :=
  ceil_div_1000 (resetTime - now).

(** [rateLimitResponse(resetTime)], built at the instant [now]; the
    header carries the decimal rendering of the number. *)
Definition rateLimitResponse (now resetTime : Z) : NextResponse :=
  {| status := 429;
     body := RateLimitBody "Too many requests. Please try again later."
               (retry_after now resetTime);
     headers := [("Retry-After", pretty (retry_after now resetTime))];
     token_cookie := None |}.

Module rateLimitConfigs.
Definition auth : RateLimitConfig :=
  {| windowMs := 15 * 60 * 1000; maxRequests := 10 |}.
Definition api : RateLimitConfig :=
  {| windowMs := 60 * 1000; maxRequests := 100 |}.
Definition read : RateLimitConfig :=
  {| windowMs := 60 * 1000; maxRequests := 200 |}.
Definition passwordReset : RateLimitConfig :=
  {| windowMs := 60 * 60 * 1000; maxRequests := 3 |}.
End rateLimitConfigs.

(** The limiter's answer and the store after a run of requests, each
    with its own arrival time, against one configuration. *)
Fixpoint serve (config : RateLimitConfig)
    (store : gmap string RateLimitEntry)
    (arrivals : list (Z * NextRequest))
    : list RateLimitResult * gmap string RateLimitEntry :=
  match arrivals with
  | [] => ([], store)
  | (now, request) :: rest =>
      let '(r, store') := checkRateLimit now store request config in
      let '(rs, store'') := serve config store' rest in
      (r :: rs, store'')
  end.

End RateLimiter.

(** ** rateLimiter.ts: the login limiter with exponential backoff *)

Module LoginLimiter.

Record Attempt := mkAttempt {
  count : Z;
  lastAttempt : Z
}.

Record LoginRateResult := mkLoginResult {
  allowed : bool;
  waitTime : Z
}.

Definition key_of (ip email : string) : string :=
  "login:" +:+ ip +:+ ":" +:+ email.

(** [Math.min(Math.pow(2, attempt.count - 1) * 1000, 30 * 60 * 1000)].
    Entries are created with [count] 1 and only ever incremented, so the
    exponent is never negative. *)
Definition backoff (count : Z) : Z :=
  Z.min (2 ^ (count - 1) * 1000) (30 * 60 * 1000).

Definition checkLoginRateLimit (now : Z) (loginAttempts : gmap string Attempt)
    (ip email : string) : LoginRateResult * gmap string Attempt :=
  let key := key_of ip email in
  match loginAttempts !! key with
  | None =>
      ({| allowed := true; waitTime := 0 |},
       <[key := {| count := 1; lastAttempt := now |}]> loginAttempts)
  | Some attempt =>
      let waitTime := backoff (count attempt) in
      let timeSinceLastAttempt := now - lastAttempt attempt in
      if waitTime <=? timeSinceLastAttempt then
        ({| allowed := true; waitTime := 0 |},
         if 30 * 60 * 1000 <=? timeSinceLastAttempt
         then <[key := {| count := 1; lastAttempt := now |}]> loginAttempts
         else <[key := {| count := count attempt + 1; lastAttempt := now |}]>
                loginAttempts)
      else
        ({| allowed := false;
            waitTime := Js.ceil_div_1000 (waitTime - timeSinceLastAttempt) |},
         loginAttempts)
  end.

Definition resetLoginAttempts (loginAttempts : gmap string Attempt)
    (ip email : string) : gmap string Attempt :=
  delete (key_of ip email) loginAttempts.

(** Calls for one (ip, e-mail) pair at the given instants, all admitted:
    [Some] of the store after the last one, [None] as soon as a call is
    turned away. *)
Fixpoint admitted_run (ip email : string) (store : gmap string Attempt)
    (times : list Z) : option (gmap string Attempt) :=
  match times with
  | [] => Some store
  | now :: rest =>
      let '(r, store') := checkLoginRateLimit now store ip email in
      if allowed r then admitted_run ip email store' rest else None
  end.

(** The gaps of a run of admitted calls: the call after [prev], made
    while the counter reads [c], comes no sooner than the backoff of
    [c] and less than thirty minutes later. *)
Fixpoint spaced (c prev : Z) (times : list Z) : Prop :=
  match times with
  | [] => True
  | t :: rest =>
      backoff c <= t - prev /\ t - prev < 1800000 /\ spaced (c + 1) t rest
  end.

(** No gap between consecutive calls reaches thirty minutes. *)
Fixpoint no_reset (prev : Z) (times : list Z) : Prop :=
  match times with
  | [] => True
  | t :: rest => t - prev < 1800000 /\ no_reset t rest
  end.

End LoginLimiter.

(** ** The state that the handlers share *)

Module Server.

(** The user collection (keyed by e-mail) and the two in-memory maps of
    [rateLimiter.ts]: [loginAttempts] and [rateLimitStore]. *)
Record State := mkState {
  users : gmap string UserModel.IUser;
  loginAttemptsMap : gmap string LoginLimiter.Attempt;
  rateLimitStore : gmap string RateLimiter.RateLimitEntry
}.

End Server.

(** ** app/api/auth/login/route.ts *)

Module LoginRoute.
Import Js Api UserModel Security Server.

(** The body after [loginSchema.parse]. *)
Record LoginData := mkLoginData {
  login_email : string;
  login_password : string
}.

(** [forwarded?.split(',')[0].trim() || 'unknown'] *)
Definition requester_ip (forwarded : option string) : string :=
  match forwarded with
  | Some f =>
      let ip := trim (split_comma_first f) in
      if String.eqb ip "" then "unknown" else ip
  | None => "unknown"
  end.

Definition provider_label (p : option Provider) : string :=
  match p with
  | Some google => "Google"
  | _ => "GitHub"
  end.

Definition msg_invalid : string := "Invalid email or password".

Definition msg_locked : string :=
  "Your account has been temporarily locked due to too many failed attempts. Please try again later.".

Definition msg_oauth (p : option Provider) : string :=
  "This account was created with " +:+ provider_label p
  +:+ ". Please sign in using " +:+ provider_label p
  +:+ ", or register with this email to set a password.".

Definition msg_rate (waitTime : Z) : string :=
  "Too many login attempts. Please try again in " +:+ pretty waitTime
  +:+ " seconds.".

(** The two 401 answers of the lockout path. *)
Definition invalid_credentials : NextResponse :=
  errorResponse msg_invalid HttpStatus.UNAUTHORIZED
    ErrorCode.AUTHENTICATION_ERROR None.

Definition account_locked : NextResponse :=
  errorResponse msg_locked HttpStatus.UNAUTHORIZED
    ErrorCode.AUTHENTICATION_ERROR None.

Definition view_of (u : IUser) : UserView :=
  {| view_id := _id u; view_email := email u;
     view_firstName := firstName u; view_lastName := lastName u;
     view_avatar := avatar u; view_bio := bio u |}.

(** The handler from the lockout check on, for the account [user] that
    the lookup found: the answer and the stored record afterwards,
    together with whether the login succeeded. *)
Definition attempt `{Externals} (now : Z) (user : IUser)
    (candidate : string) : NextResponse * IUser * bool :=
  if negb (truthy (password user)) && is_oauth_provider (provider user) then
    (errorResponse (msg_oauth (provider user)) HttpStatus.UNAUTHORIZED
       ErrorCode.AUTHENTICATION_ERROR None, user, false)
  else if isLocked now user then (account_locked, user, false)
  else if negb (comparePassword user candidate) then
    (invalid_credentials, incrementLoginAttempts now user, false)
  else
    let token := generateToken now (_id user) (email user) in
    (set_token_cookie token
       (successResponse (view_of user) token "Login successful"
          HttpStatus.OK),
     resetLoginAttempts now user, true).

(** [POST]: [parsed] is what [request.json()] followed by
    [loginSchema.parse] gave. *)
Definition POST `{Externals} (now : Z) (st : State)
    (request : NextRequest) (parsed : Thrown + LoginData)
    : NextResponse * State :=
  let ip := requester_ip (x_forwarded_for request) in
  match parsed with
  | inl (ZodError issues) => (handleZodError issues, st)
  | inl OtherError =>
      (errorResponse "An error occurred during login"
         HttpStatus.INTERNAL_SERVER_ERROR ErrorCode.INTERNAL_ERROR None, st)
  | inr validatedData =>
      let sanitizedEmail := sanitizeEmail (login_email validatedData) in
      let '(limit, attempts) :=
        LoginLimiter.checkLoginRateLimit now (loginAttemptsMap st) ip
          sanitizedEmail in
      let st :=
        {| users := users st; loginAttemptsMap := attempts;
           rateLimitStore := rateLimitStore st |} in
      if negb (LoginLimiter.allowed limit) then
        (errorResponse (msg_rate (LoginLimiter.waitTime limit))
           HttpStatus.TOO_MANY_REQUESTS ErrorCode.RATE_LIMIT_ERROR None, st)
      else
        match users st !! sanitizedEmail with
        | None => (invalid_credentials, st)
        | Some user =>
            let '(response, user', success) :=
              attempt now user (login_password validatedData) in
            (response,
             {| users := <[sanitizedEmail := user']> (users st);
                loginAttemptsMap :=
                  if success
                  then LoginLimiter.resetLoginAttempts (loginAttemptsMap st)
                         ip sanitizedEmail
                  else loginAttemptsMap st;
                rateLimitStore := rateLimitStore st |})
        end
  end.

(** The handler run on a sequence of calls with well-formed bodies,
    oldest first: the answers and the final state. *)
Fixpoint run `{Externals} (st : State)
    (calls : list (Z * NextRequest * LoginData))
    : list NextResponse * State :=
  match calls with
  | [] => ([], st)
  | (now, request, data) :: rest =>
      let '(r, st') := POST now st request (inr data) in
      let '(rs, st'') := run st' rest in
      (r :: rs, st'')
  end.

(** The call is a login for the account stored under [e]. *)
Definition addressed_to (e : string) (call : Z * NextRequest * LoginData)
    : Prop :=
  sanitizeEmail (login_email call.2) = e.

End LoginRoute.

(** ** app/api/auth/register/route.ts *)

Module RegisterRoute.
Import Js Api UserModel UserSchema Security Server.

(** The body after [registerSchema.parse]. *)
Record RegisterData := mkRegisterData {
  reg_email : string;
  reg_password : string;
  reg_firstName : string;
  reg_lastName : string
}.

Definition msg_password_set : string :=
  "Password set successfully. You can now login with email and password.".

Definition msg_exists : string :=
  "An account with this email already exists. Please login instead.".

Definition option_string_eqb (a b : option string) : bool :=
  match a, b with
  | Some x, Some y => String.eqb x y
  | None, None => true
  | _, _ => false
  end.

(** The answer of the [catch] block to anything but a [ZodError]. *)
Definition internal_error : NextResponse :=
  errorResponse "An error occurred during registration"
    HttpStatus.INTERNAL_SERVER_ERROR ErrorCode.INTERNAL_ERROR None.

(** The branch taken when the looked-up e-mail already has an account:
    the answer and, when the record is written, its new content.  The
    names pass through the setter of their path when they are assigned;
    a [save] that throws ends in the [catch] block. *)
Definition existing_account `{Externals} (now : Z) (salt : string)
    (existingUser : IUser) (plain first last : string)
    : NextResponse * option IUser :=
  if is_oauth_provider (provider existingUser)
     && negb (truthy (password existingUser)) then
    let edited :=
      with_names (name_setters first) (name_setters last)
        (with_password (Some plain) existingUser) in
    match
      save salt
        (negb (option_string_eqb (password existingUser) (Some plain)))
        edited
    with
    | Some saved =>
        let token := generateToken now (_id saved) (email saved) in
        (set_token_cookie token
           (successResponse (LoginRoute.view_of saved) token
              msg_password_set HttpStatus.OK),
         Some saved)
    | None => (internal_error, None)
    end
  else
    (errorResponse msg_exists HttpStatus.CONFLICT ErrorCode.CONFLICT_ERROR
       None, None).

(** [POST]: [parsed] is what [request.json()] followed by
    [registerSchema.parse] gave, [salt] the salt that [bcrypt.genSalt]
    draws and [freshId] the identifier that a new record receives. *)
Definition POST `{Externals} (now : Z) (salt freshId : string) (st : State)
    (request : NextRequest) (parsed : Thrown + RegisterData)
    : NextResponse * State :=
  let '(limit, store) :=
    RateLimiter.checkRateLimit now (rateLimitStore st) request
      RateLimiter.rateLimitConfigs.auth in
  let st :=
    {| users := users st; loginAttemptsMap := loginAttemptsMap st;
       rateLimitStore := store |} in
  if negb (RateLimiter.allowed limit) then
    (RateLimiter.rateLimitResponse now (RateLimiter.result_resetTime limit),
     st)
  else
    match parsed with
    | inl (ZodError issues) => (handleZodError issues, st)
    | inl OtherError => (internal_error, st)
    | inr validatedData =>
        let sanitizedEmail := sanitizeEmail (reg_email validatedData) in
        let sanitizedFirstName := sanitizeInput (reg_firstName validatedData) in
        let sanitizedLastName := sanitizeInput (reg_lastName validatedData) in
        let passwordStrength :=
          validatePasswordStrength (units (reg_password validatedData)) in
        if negb (isValid passwordStrength) then
          (errorResponse "Password is not strong enough"
             HttpStatus.BAD_REQUEST ErrorCode.VALIDATION_ERROR
             (Some (map (fun msg => ("password", msg))
                      (feedback passwordStrength))),
           st)
        else
          match findOne (users st) sanitizedEmail with
          | Some existingUser =>
              let '(response, written) :=
                existing_account now salt existingUser
                  (reg_password validatedData) sanitizedFirstName
                  sanitizedLastName in
              (response,
               match written with
               | Some saved =>
                   {| users :=
                        <[email_setters sanitizedEmail := saved]> (users st);
                      loginAttemptsMap := loginAttemptsMap st;
                      rateLimitStore := rateLimitStore st |}
               | None => st
               end)
          | None =>
              match
                save salt true
                  (newUser freshId (email_setters sanitizedEmail)
                     (Some (reg_password validatedData))
                     (name_setters sanitizedFirstName)
                     (name_setters sanitizedLastName) ""
                     (Some credentials) None false)
              with
              | Some user =>
                  let token := generateToken now (_id user) (email user) in
                  (set_token_cookie token
                     (successResponse (LoginRoute.view_of user) token
                        "Account created successfully" HttpStatus.CREATED),
                   {| users :=
                        <[email_setters sanitizedEmail := user]> (users st);
                      loginAttemptsMap := loginAttemptsMap st;
                      rateLimitStore := rateLimitStore st |})
              | None => (internal_error, st)
              end
          end
    end.

(** The handler run on a sequence of calls that carry the same
    headers and path, oldest first: the answers and the final state.
    A call is its instant, the salt and the identifier it would draw,
    and its body. *)
Fixpoint run `{Externals} (st : State) (request : NextRequest)
    (calls : list (Z * string * string * (Thrown + RegisterData)))
    : list NextResponse * State :=
  match calls with
  | [] => ([], st)
  | (now, salt, freshId, parsed) :: rest =>
      let '(r, st') := POST now salt freshId st request parsed in
      let '(rs, st'') := run st' request rest in
      (r :: rs, st'')
  end.

(** The instant of a call of [run]. *)
Definition call_time
    (call : Z * string * string * (Thrown + RegisterData)) : Z :=
  call.1.1.1.

End RegisterRoute.

(** ** lib/auth/middleware.ts: the unified authenticator *)

Module AuthMiddleware.
Import Js Api UserModel UserSchema.

Record JWTPayload := mkPayload {
  userId : string;
  payload_email : string
}.

(** The decoded NextAuth session token, of which the code reads the
    e-mail claim. *)
Record SessionToken := mkSession {
  session_email : option string
}.

(** What the awaited [getToken({ req, secret })] did. *)
Inductive GetToken :=
| getToken_throws
| getToken_returns (token : option SessionToken).

Record AuthResult := mkAuthResult {
  user : option JWTPayload;
  error : option string
}.

(** [request.cookies.get('token')?.value], when truthy *)
Definition cookie_value (request : NextRequest) : option string :=
  if truthy (cookie_token request) then cookie_token request else None.

Definition getTokenFromRequest (request : NextRequest) : option string :=
  match authorization request with
  | Some authHeader =>
      if startsWith authHeader "Bearer "
      then Some (substring_from 7 authHeader)
      else cookie_value request
  | None => cookie_value request
  end.

(** The [try] block: the principal it returns, or [None] when control
    leaves the block without returning (no token, no e-mail claim, no
    record, or an exception that the [catch] swallows). *)
Definition session_principal (users : gmap string IUser)
    (nextAuth : GetToken) : option JWTPayload :=
  match nextAuth with
  | getToken_throws => None
  | getToken_returns None => None
  | getToken_returns (Some nextAuthToken) =>
      if truthy (session_email nextAuthToken) then
        match
          findOne users (default EmptyString (session_email nextAuthToken))
        with
        | Some dbUser =>
            Some {| userId := _id dbUser; payload_email := email dbUser |}
        | None => None
        end
      else None
  end.

(** The fallback after the [try] block. *)
Definition legacy_principal `{Externals} (now : Z) (request : NextRequest)
    : AuthResult :=
  match getTokenFromRequest request with
  | None =>
      {| user := None; error := Some "No authentication token provided" |}
  | Some token =>
      if String.eqb token "" then
        {| user := None; error := Some "No authentication token provided" |}
      else
        match verifyToken now token with
        | None => {| user := None; error := Some "Invalid or expired token" |}
        | Some (uid, mail) =>
            {| user := Some {| userId := uid; payload_email := mail |};
               error := None |}
        end
  end.

Definition authenticateRequest `{Externals} (now : Z)
    (users : gmap string IUser) (nextAuth : GetToken)
    (request : NextRequest) : AuthResult :=
  match session_principal users nextAuth with
  | Some principal => {| user := Some principal; error := None |}
  | None => legacy_principal now request
  end.

End AuthMiddleware.

(** ** middleware.ts: the request-boundary guard *)

Module Middleware.
Import Js Api.

Definition protectedPaths : list string := ["/dashboard"].
Definition authPaths : list string := ["/auth/login"; "/auth/register"].

Definition securityHeaders : list (string * string) :=
  [ ("X-DNS-Prefetch-Control", "on");
    ("Strict-Transport-Security",
     "max-age=63072000; includeSubDomains; preload");
    ("X-XSS-Protection", "1; mode=block");
    ("X-Frame-Options", "SAMEORIGIN");
    ("X-Content-Type-Options", "nosniff");
    ("Referrer-Policy", "strict-origin-when-cross-origin");
    ("Permissions-Policy", "camera=(), microphone=(), geolocation=()") ].

(** What the middleware answers: the request goes on, with the headers
    set on the response, or the browser is sent to another path of the
    same origin, possibly with a [callbackUrl] query parameter. *)
Inductive Outcome :=
| next (headers : list (string * string))
| redirect (path : string) (callbackUrl : option string).

(** [!!(token || legacyToken)], where [token] is what the awaited
    [getToken] returned (an exception of [getToken] is not caught by the
    middleware and produces no outcome). *)
Definition isAuthenticated (token : option AuthMiddleware.SessionToken)
    (request : NextRequest) : bool :=
  match token with
  | Some _ => true
  | None => truthy (cookie_token request)
  end.

Definition middleware (token : option AuthMiddleware.SessionToken)
    (request : NextRequest) : Outcome :=
  let pathname := pathname request in
  let response := next securityHeaders in
  let isAuthenticated := isAuthenticated token request in
  let isProtectedPath :=
    existsb (fun path => startsWith pathname path) protectedPaths in
  let isAuthPath :=
    existsb (fun path => startsWith pathname path) authPaths in
  if isProtectedPath && negb isAuthenticated then
    redirect "/auth/login" (Some pathname)
  else if isAuthPath && isAuthenticated then
    redirect "/dashboard" None
  else response.

End Middleware.

(** ** lib/auth/jwt.ts: the legacy token (its code is not in the snapshot) *)

Module Jwt.

(** Modelled from the spec: the signed payload of a legacy token holds
    the user id, the e-mail, the issue time and the expiry (section 3 of
    the specification); [jwt.ts] itself is missing. *)
Record Claims := mkClaims {
  claim_userId : string;
  claim_email : string;
  iat : Z;
  exp : Z
}.

(** Modelled from the spec: the token is symmetric-signed with a
    process-wide secret.  The signing function, the secret and the wire
    format of the payload are not described, so they are parameters:
    [mac key message] is the signature, [serialize] and [parse] turn
    the claims into the signed bits and back. *)
Class Scheme := {
  secret : list bool;
  mac : list bool -> list bool -> list bool;
  serialize : Claims -> list bool;
  parse : list bool -> option Claims
}.

(** Modelled from the spec: a token carries the signed payload and its
    signature. *)
Record Token := mkToken {
  signed : list bool;
  signature : list bool
}.

(** Modelled from the spec: the fixed expiry of seven days, in
    milliseconds. *)
Definition EXPIRY : Z := 7 * 24 * 60 * 60 * 1000.

(** Modelled from the spec: [issue(userId, email) -> token] with the
    fixed expiry, at the instant [now]. *)
Definition generateToken `{Scheme} (now : Z) (userId email : string)
    : Token :=
  let payload :=
    serialize {| claim_userId := userId; claim_email := email;
                 iat := now; exp := now + EXPIRY |} in
  {| signed := payload; signature := mac secret payload |}.

(** Modelled from the spec: [verify(token) -> payload | invalid]; a
    signature mismatch, a malformed payload and an expiry in the past
    all give invalid ([None]). *)
Definition verifyToken `{Scheme} (now : Z) (token : Token)
    : option (string * string) :=
  if bool_decide (mac secret (signed token) = signature token) then
    match parse (signed token) with
    | Some claims =>
        if exp claims <? now then None
        else Some (claim_userId claims, claim_email claims)
    | None => None
    end
  else None.

(** The bit at position [i] inverted. *)
Fixpoint flip_bit (i : nat) (bits : list bool) : list bool :=
  match bits, i with
  | [], _ => []
  | b :: rest, O => negb b :: rest
  | b :: rest, S j => b :: flip_bit j rest
  end.

(** A token whose signed payload differs from that of [token] in the
    one bit at position [i]. *)
Definition mutate (i : nat) (token : Token) : Token :=
  {| signed := flip_bit i (signed token); signature := signature token |}.

End Jwt.

(** ** Runs of the account methods *)

Module AccountRuns.
Import UserModel.

(** Failed password verifications at the given instants, oldest first,
    each applied to the stored record. *)
Definition failures (times : list Z) (u : IUser) : IUser :=
  fold_left (fun u now => incrementLoginAttempts now u) times u.

End AccountRuns.

(** ** Histories of the login limiter *)

Module LoginLimiterRuns.
Import LoginLimiter.

(** What the login handler does to the limiter's map: it checks a login
    for an (ip, e-mail) pair at some instant, and clears the pair's
    entry after a successful login. *)
Inductive Call :=
| check (now : Z) (ip email : string)
| success (ip email : string).

Definition step (store : gmap string Attempt) (call : Call)
    : gmap string Attempt :=
  match call with
  | check now ip email => (checkLoginRateLimit now store ip email).2
  | success ip email => resetLoginAttempts store ip email
  end.

(** The map after a history of calls, oldest first, from the empty map
    that the module starts with. *)
Definition history (calls : list Call) : gmap string Attempt :=
  fold_left step calls ∅.

(** Every entry holds a count between 1 and 12. *)
Definition counts_bounded (store : gmap string Attempt) : Prop :=
  forall key a, store !! key = Some a -> 1 <= count a <= 12.

End LoginLimiterRuns.

(** ** rateLimiter.ts: the limiter keyed by type and address, the sweep
    and the wrapper *)

Module RateLimiterByType.
Import Js Api.

(** [keyof typeof rateLimitConfigs] *)
Inductive RateLimitType := auth | api | read | passwordReset.

Definition type_name (type : RateLimitType) : string :=
  match type with
  | auth => "auth"
  | api => "api"
  | read => "read"
  | passwordReset => "passwordReset"
  end.

(** [rateLimitConfigs[type]] *)
Definition config_of (type : RateLimitType) : RateLimiter.RateLimitConfig :=
  match type with
  | auth => RateLimiter.rateLimitConfigs.auth
  | api => RateLimiter.rateLimitConfigs.api
  | read => RateLimiter.rateLimitConfigs.read
  | passwordReset => RateLimiter.rateLimitConfigs.passwordReset
  end.

Record TypeResult := mkTypeResult {
  allowed : bool;
  remaining : Z;
  resetTime : Z;
  waitTime : Z
}.

Definition key_of (type : RateLimitType) (ip : string) : string :=
  type_name type +:+ ":" +:+ ip.

Definition checkRateLimitByType (now : Z)
    (rateLimitStore : gmap string RateLimiter.RateLimitEntry)
    (type : RateLimitType) (ip : string)
    : TypeResult * gmap string RateLimiter.RateLimitEntry :=
  let config := config_of type in
  let key := key_of type ip in
  let fresh :=
    let entry :=
      {| RateLimiter.count := 1;
         RateLimiter.resetTime := now + RateLimiter.windowMs config |} in
    ({| allowed := true;
        remaining := RateLimiter.maxRequests config - 1;
        resetTime := RateLimiter.resetTime entry;
        waitTime := 0 |},
     <[key := entry]> rateLimitStore) in
  match rateLimitStore !! key with
  | None => fresh
  | Some entry =>
      if RateLimiter.resetTime entry <? now then fresh
      else
        let entry :=
          {| RateLimiter.count := RateLimiter.count entry + 1;
             RateLimiter.resetTime := RateLimiter.resetTime entry |} in
        let allowed :=
          RateLimiter.count entry <=? RateLimiter.maxRequests config in
        ({| allowed := allowed;
            remaining :=
              Z.max 0 (RateLimiter.maxRequests config
                       - RateLimiter.count entry);
            resetTime := RateLimiter.resetTime entry;
            waitTime :=
              if allowed then 0
              else ceil_div_1000 (RateLimiter.resetTime entry - now) |},
         <[key := entry]> rateLimitStore)
  end.

(** The body of the [setInterval] callback, run at the instant [now]:
    every entry whose window ended before [now] is deleted. *)
Definition sweep (now : Z)
    (rateLimitStore : gmap string RateLimiter.RateLimitEntry)
    : gmap string RateLimiter.RateLimitEntry :=
  filter (fun kv => ~ RateLimiter.resetTime kv.2 < now) rateLimitStore.

(** Calls of one type from one address at the given instants, oldest
    first: the answers and the store afterwards. *)
Fixpoint serve (type : RateLimitType) (ip : string)
    (store : gmap string RateLimiter.RateLimitEntry) (times : list Z)
    : list TypeResult * gmap string RateLimiter.RateLimitEntry :=
  match times with
  | [] => ([], store)
  | now :: rest =>
      let out := checkRateLimitByType now store type ip in
      let served := serve type ip out.2 rest in
      (out.1 :: served.1, served.2)
  end.

End RateLimiterByType.

(** ** security.ts: injection patterns and origins *)

Module SecurityMore.
Import Js Security.

(** The seven patterns of [hasNoSQLInjection]: the operator names
    [$where], [$gt], [$lt], [$ne], [$regex], [$or] and [$and], each
    sought anywhere in the input without regard to letter case. *)
Definition nosqlPatterns : list jsstring :=
  [ units "$where"; units "$gt"; units "$lt"; units "$ne";
    units "$regex"; units "$or"; units "$and" ].

Definition hasNoSQLInjection (input : jsstring) : bool :=
  existsb (fun pattern => occurs eq_ci pattern input) nosqlPatterns.

(** [s.endsWith(suffix)] *)
Fixpoint endsWith (s suffix : string) : bool :=
  String.eqb s suffix ||
  match s with
  | EmptyString => false
  | String _ rest => endsWith rest suffix
  end.

(** [isValidOrigin(origin, allowedOrigins)]; a missing origin is
    [None]. *)
Definition isValidOrigin (origin : option string)
    (allowedOrigins : list string) : bool :=
  match origin with
  | None => false
  | Some origin =>
      if String.eqb origin "" then false
      else
        existsb
          (fun allowed =>
             if String.eqb allowed "*" then true
             else if startsWith allowed "*." then
               let domain := substring_from 2 allowed in
               endsWith origin domain
             else String.eqb origin allowed)
          allowedOrigins
  end.

(** Number of the four character classes (lowercase, uppercase, digit,
    symbol) that a password draws from. *)
Definition classes_met (password : jsstring) : Z :=
  b2z (existsb is_lower password) + b2z (existsb is_upper password)
  + b2z (existsb is_digit password) + b2z (existsb is_symbol password).

End SecurityMore.

(** ** lib/auth/auth.config.ts: the NextAuth callbacks *)

Module AuthConfig.
Import Js UserModel UserSchema.

(** The [user] object that NextAuth passes to the callbacks and that
    [authorize] returns. *)
Record NextAuthUser := mkNextAuthUser {
  user_id : string;
  user_email : string;
  user_name : option string;
  user_image : option string;
  user_firstName : option string;
  user_lastName : option string
}.

(** The [account] of a sign-in: the provider and the provider's
    identifier of the user. *)
Record Account := mkAccount {
  account_provider : Provider;
  providerAccountId : string
}.

(** [s.split(' ')]: the text before the first space and the text after
    it, which is what [names[0]] and [names.slice(1).join(' ')] are. *)
Fixpoint split_first_space (s : string) : string * string :=
  match s with
  | EmptyString => (EmptyString, EmptyString)
  | String c rest =>
      if Ascii.eqb c " "%char then (EmptyString, rest)
      else let '(first, last) := split_first_space rest in
           (String c first, last)
  end.

(** [x || fallback] on a possibly missing string. *)
Definition or_else (x : option string) (fallback : string) : string :=
  if truthy x then default EmptyString x else fallback.

Definition with_provider (prov : Provider) (provId avatar' : string)
    (u : IUser) : IUser :=
  {| _id := _id u; email := email u; password := password u;
     firstName := firstName u; lastName := lastName u;
     avatar := avatar'; bio := bio u; provider := Some prov;
     providerId := Some provId; emailVerified := emailVerified u;
     lastLogin := lastLogin u; loginAttempts := loginAttempts u;
     lockUntil := lockUntil u |}.

(** The [signIn] callback; [freshId] is the identifier that a created
    record receives.  The e-mail and the names of a new record pass
    through the setters of their paths; a [create] or [save] whose
    validation throws ends in the [catch] block, which answers [false],
    and nothing is written.  No password is set on a new record, so the
    [pre('save')] hook leaves it as it is; the lookup does not select
    the password, so the [save] of a loaded record does not validate
    it. *)
Definition signIn (freshId : string)
    (users : gmap string IUser) (user : NextAuthUser)
    (account : option Account) : bool * gmap string IUser :=
  match account with
  | Some account =>
      if is_oauth_provider (Some (account_provider account)) then
        match findOne users (user_email user) with
        | None =>
            let names :=
              split_first_space (or_else (user_name user) "User") in
            let firstName := or_else (Some names.1) "User" in
            let lastName := or_else (Some names.2) "" in
            let created :=
              newUser freshId (email_setters (user_email user)) None
                (name_setters firstName) (name_setters lastName)
                (or_else (user_image user) "")
                (Some (account_provider account))
                (Some (providerAccountId account)) true in
            if validate created then
              (true, <[email_setters (user_email user) := created]> users)
            else (false, users)
        | Some existingUser =>
            match provider existingUser with
            | None =>
                let avatar' :=
                  if negb (truthy (Some (avatar existingUser)))
                     && truthy (user_image user)
                  then default EmptyString (user_image user)
                  else avatar existingUser in
                let linked :=
                  with_provider (account_provider account)
                    (providerAccountId account) avatar' existingUser in
                if validate (with_password None linked) then
                  (true,
                   <[email_setters (user_email user) := linked]> users)
                else (false, users)
            | Some _ => (true, users)
            end
        end
      else (true, users)
  | None => (true, users)
  end.

(** [authorize] of the credentials provider; [parsed] is what
    [loginSchema.safeParse] gave, [None] for a failure.  Every
    exception ends in [null] as well. *)
Definition authorize `{Externals} (users : gmap string IUser)
    (parsed : option (string * string)) : option NextAuthUser :=
  match parsed with
  | None => None
  | Some (email, password') =>
      match users !! toLowerCase email with
      | None => None
      | Some user =>
          if negb (truthy (password user)) then None
          else if bcrypt_compare password' (default EmptyString (password user))
          then
            Some {| user_id := _id user;
                    user_email := UserModel.email user;
                    user_name :=
                      Some (firstName user +:+ " " +:+ lastName user);
                    user_image :=
                      if truthy (Some (avatar user)) then Some (avatar user)
                      else None;
                    user_firstName := Some (firstName user);
                    user_lastName := Some (lastName user) |}
          else None
      end
  end.

(** The claims of the session token that the [jwt] callback reads and
    writes. *)
Record Token := mkToken {
  token_email : option string;
  token_id : option string;
  token_firstName : option string;
  token_lastName : option string;
  token_picture : option string
}.

(** The [session] argument of an update trigger. *)
Record SessionUpdate := mkSessionUpdate {
  update_firstName : option string;
  update_lastName : option string;
  update_image : option string
}.

(** The [jwt] callback.  [user] is set on sign-in; [update] is the
    session of an ['update'] trigger, [None] for any other trigger or a
    missing session. *)
Definition jwt (users : gmap string IUser) (token : Token)
    (user : option NextAuthUser) (update : option SessionUpdate) : Token :=
  let token :=
    match user with
    | Some user =>
        {| token_email := token_email token;
           token_id := Some (user_id user);
           token_firstName := user_firstName user;
           token_lastName := user_lastName user;
           token_picture := token_picture token |}
    | None => token
    end in
  let token :=
    match update with
    | Some session =>
        {| token_email := token_email token;
           token_id := token_id token;
           token_firstName := update_firstName session;
           token_lastName := update_lastName session;
           token_picture := update_image session |}
    | None => token
    end in
  if truthy (token_email token) then
    match findOne users (default EmptyString (token_email token)) with
    | Some dbUser =>
        {| token_email := token_email token;
           token_id := Some (_id dbUser);
           token_firstName := Some (firstName dbUser);
           token_lastName := Some (lastName dbUser);
           token_picture :=
             if truthy (Some (avatar dbUser)) then Some (avatar dbUser)
             else token_picture token |}
    | None => token
    end
  else token.

End AuthConfig.

(** ** Concrete collaborators and data for the worked examples *)

Module Examples.
Import Api UserModel Server.

(** Stand-ins that compute: the stored hash is the plain text behind a
    fixed prefix, tokens spell out their claims. *)
Definition toy : Externals := {|
  bcrypt_compare candidate hash := String.eqb ("h:" +:+ candidate) hash;
  bcrypt_hash plain salt := "h:" +:+ plain;
  sanitizeHtml input := input;
  generateToken now uid mail := uid +:+ "|" +:+ mail;
  verifyToken now token :=
    if String.eqb token "u1|alice@example.com"
    then Some ("u1", "alice@example.com") else None
|}.

Definition alice : IUser :=
  newUser "u1" "alice@example.com" (Some "h:Passw0rd!") "Alice" "A" ""
    (Some credentials) None false.

(** An account that signed in with Google and never set a password. *)
Definition bob : IUser :=
  newUser "u2" "bob@example.com" None "Bob" "B" "" (Some google)
    (Some "g-2") true.

Definition st0 : State :=
  {| users := <["bob@example.com" := bob]> {["alice@example.com" := alice]};
     loginAttemptsMap := ∅;
     rateLimitStore := ∅ |}.

Definition from_ip (ip path : string) : NextRequest :=
  {| x_forwarded_for := Some ip; authorization := None;
     cookie_token := None; pathname := path |}.

Definition wrong : LoginRoute.LoginData :=
  {| LoginRoute.login_email := "Alice@Example.com";
     LoginRoute.login_password := "guess-1" |}.

Definition right : LoginRoute.LoginData :=
  {| LoginRoute.login_email := "alice@example.com";
     LoginRoute.login_password := "Passw0rd!" |}.

Definition login_request : NextRequest := from_ip "10.0.0.1" "/api/auth/login".

(** Four wrong guesses, each made once the backoff of the one before
    has run out. *)
Definition four_failures : list (Z * NextRequest * LoginRoute.LoginData) :=
  [ (0, login_request, wrong); (1000, login_request, wrong);
    (3000, login_request, wrong); (7000, login_request, wrong) ].

Definition register_request : NextRequest :=
  from_ip "10.0.0.2" "/api/auth/register".


(** A signing scheme that computes: the claims are numbered by their
    countable encoding and written as the binary digits of that number;
    the signature is the secret followed by the message. *)
Fixpoint bits_of_pos (p : positive) : list bool :=
  match p with
  | xH => []
  | xO q => false :: bits_of_pos q
  | xI q => true :: bits_of_pos q
  end.

Fixpoint pos_of_bits (bits : list bool) : positive :=
  match bits with
  | [] => xH
  | false :: rest => xO (pos_of_bits rest)
  | true :: rest => xI (pos_of_bits rest)
  end.

Definition tuple_of_claims (c : Jwt.Claims) : string * string * Z * Z :=
  (Jwt.claim_userId c, Jwt.claim_email c, Jwt.iat c, Jwt.exp c).

Definition claims_of_tuple (t : string * string * Z * Z) : Jwt.Claims :=
  {| Jwt.claim_userId := t.1.1.1; Jwt.claim_email := t.1.1.2;
     Jwt.iat := t.1.2; Jwt.exp := t.2 |}.

Definition toy_scheme : Jwt.Scheme := {|
  Jwt.secret := [true; false; true; true];
  Jwt.mac key message := key ++ message;
  Jwt.serialize c := bits_of_pos (encode (tuple_of_claims c));
  Jwt.parse bits := claims_of_tuple <$> decode (pos_of_bits bits)
|}.

End Examples.

(** ** Further data for the worked examples *)

Module Examples2.
Import Api UserModel Server.

(** Scenario A of the specification, with another name. *)
Definition carol_registers : RegisterRoute.RegisterData :=
  {| RegisterRoute.reg_email := "Carol@example.com";
     RegisterRoute.reg_password := "Passw0rd!";
     RegisterRoute.reg_firstName := "Carol";
     RegisterRoute.reg_lastName := "C" |}.

(** Bob again, with a password of six characters that has all four
    character classes: the body schema and the strength policy accept
    it. *)
Definition bob_registers_short : RegisterRoute.RegisterData :=
  {| RegisterRoute.reg_email := "bob@example.com";
     RegisterRoute.reg_password := "Ab1!xy";
     RegisterRoute.reg_firstName := "Bob";
     RegisterRoute.reg_lastName := "Builder" |}.

End Examples2.

(** * Properties *)

(** ** Account lockout *)

Section AccountLockout.
Import UserModel.

Lemma isLocked_true_iff now u :
  isLocked now u = true <-> exists t, lockUntil u = Some t /\ now < t.
Proof.
  unfold isLocked. destruct (lockUntil u) as [t|].
  - rewrite Z.ltb_lt. split; [eauto | intros (t' & [= <-] & ?); done].
  - split; [done | intros (t' & ? & ?); done].
Qed.

Lemma lockExpired_true_iff now u :
  lockExpired now u = true <-> exists t, lockUntil u = Some t /\ t < now.
Proof.
  unfold lockExpired. destruct (lockUntil u) as [t|].
  - rewrite Z.ltb_lt. split; [eauto | intros (t' & [= <-] & ?); done].
  - split; [done | intros (t' & ? & ?); done].
Qed.

Lemma lockExpired_not_locked now u :
  lockExpired now u = true -> isLocked now u = false.
Proof.
  unfold lockExpired, isLocked. destruct (lockUntil u); [|done].
  rewrite Z.ltb_lt, Z.ltb_ge. lia.
Qed.

Lemma incrementLoginAttempts_expired now u :
  lockExpired now u = true ->
  loginAttempts (incrementLoginAttempts now u) = 1
  /\ lockUntil (incrementLoginAttempts now u) = None.
Proof. unfold incrementLoginAttempts. intros ->. done. Qed.

Lemma incrementLoginAttempts_counter now u :
  lockExpired now u = false ->
  loginAttempts (incrementLoginAttempts now u) = loginAttempts u + 1.
Proof.
  unfold incrementLoginAttempts. intros ->.
  by destruct (_ && _).
Qed.

Lemma incrementLoginAttempts_lock now u :
  lockExpired now u = false ->
  lockUntil (incrementLoginAttempts now u) =
    if (MAX_LOGIN_ATTEMPTS <=? loginAttempts u + 1) && negb (isLocked now u)
    then Some (now + LOCK_TIME) else lockUntil u.
Proof.
  unfold incrementLoginAttempts. intros ->.
  by destruct (_ && _).
Qed.

(** The methods touch the lockout fields and [lastLogin] only. *)
Lemma updateOne_identity upd u :
  _id (updateOne upd u) = _id u
  /\ email (updateOne upd u) = email u
  /\ password (updateOne upd u) = password u
  /\ provider (updateOne upd u) = provider u.
Proof. done. Qed.

Lemma incrementLoginAttempts_identity now u :
  _id (incrementLoginAttempts now u) = _id u
  /\ email (incrementLoginAttempts now u) = email u
  /\ password (incrementLoginAttempts now u) = password u
  /\ provider (incrementLoginAttempts now u) = provider u.
Proof.
  unfold incrementLoginAttempts.
  destruct (lockExpired now u); [done|]. by destruct (_ && _).
Qed.

(** C4. [incrementLoginAttempts] on an account whose lock has expired
    (a lock time is stored and lies in the past) sets the counter to 1
    and clears the lock.  Otherwise it adds one to the counter; when
    the new count is at least the threshold 5 and the account is not
    locked, it sets [lockUntil] to now plus two hours (7 200 000 ms),
    and in the remaining cases it leaves [lockUntil] as it was. *)
Theorem incrementLoginAttempts_spec (now : Z) (u : IUser) :
  MAX_LOGIN_ATTEMPTS = 5 /\ LOCK_TIME = 7200000
  /\ ((exists t, lockUntil u = Some t /\ t < now) ->
      loginAttempts (incrementLoginAttempts now u) = 1
      /\ lockUntil (incrementLoginAttempts now u) = None)
  /\ (~ (exists t, lockUntil u = Some t /\ t < now) ->
      loginAttempts (incrementLoginAttempts now u) = loginAttempts u + 1
      /\ (5 <= loginAttempts u + 1 -> isLocked now u = false ->
          lockUntil (incrementLoginAttempts now u) = Some (now + 7200000))
      /\ (loginAttempts u + 1 < 5 \/ isLocked now u = true ->
          lockUntil (incrementLoginAttempts now u) = lockUntil u)).
Proof.
  split; [done|]. split; [done|]. split.
  - intros Hexp. apply lockExpired_true_iff in Hexp.
    by apply incrementLoginAttempts_expired.
  - intros Hnot.
    assert (lockExpired now u = false) as Hexp.
    { destruct (lockExpired now u) eqn:E; [|done].
      apply lockExpired_true_iff in E. contradiction. }
    split; [by apply incrementLoginAttempts_counter|].
    rewrite (incrementLoginAttempts_lock _ _ Hexp).
    unfold MAX_LOGIN_ATTEMPTS, LOCK_TIME. split.
    + intros Hge ->. simpl. rewrite andb_true_r.
      by destruct (Z.leb_spec 5 (loginAttempts u + 1)); [|lia].
    + intros [Hlt | ->].
      * by destruct (Z.leb_spec 5 (loginAttempts u + 1)); [lia|].
      * by rewrite andb_false_r.
Qed.

Lemma incrementLoginAttempts_spec_witness :
  let u := newUser "1" "a@b.co" (Some "h") "A" "B" "" (Some credentials)
             None false in
  loginAttempts (incrementLoginAttempts 1000 (updateOne
    {| set_loginAttempts := Some 4; set_lockUntil := None;
       set_lastLogin := None; inc_loginAttempts := None;
       unset_lockUntil := false |} u)) = 5
  /\ lockUntil (incrementLoginAttempts 1000 (updateOne
    {| set_loginAttempts := Some 4; set_lockUntil := None;
       set_lastLogin := None; inc_loginAttempts := None;
       unset_lockUntil := false |} u)) = Some 7201000.
Proof.
  intros u.
  pose proof (incrementLoginAttempts_spec 1000 (updateOne
    {| set_loginAttempts := Some 4; set_lockUntil := None;
       set_lastLogin := None; inc_loginAttempts := None;
       unset_lockUntil := false |} u)) as (_ & _ & _ & H).
  destruct H as (Hc & Hl & _).
  - intros (t & Ht & _). discriminate Ht.
  - split; [exact Hc|]. apply Hl; [simpl; lia | reflexivity].
Defined.

Lemma resetLoginAttempts_fields now u :
  loginAttempts (resetLoginAttempts now u) = 0
  /\ lockUntil (resetLoginAttempts now u) = None
  /\ lastLogin (resetLoginAttempts now u) = Some now.
Proof. done. Qed.

(** The counter is never negative and a zero counter has no lock, in
    every account state that the application produces. *)
Lemma reachable_lockout_invariant u :
  reachable u ->
  0 <= loginAttempts u /\ (loginAttempts u = 0 -> lockUntil u = None).
Proof.
  induction 1 as [| now u _ [IH0 IH] | now u _ _ | u v _ [IH0 IH] [Ha Hl]].
  - done.
  - destruct (lockExpired now u) eqn:E.
    + destruct (incrementLoginAttempts_expired _ _ E) as [-> ->]. done.
    + rewrite (incrementLoginAttempts_counter _ _ E). split; lia.
  - done.
  - rewrite <- Ha, <- Hl. done.
Qed.

(** C9. [resetLoginAttempts] sets the counter to zero, removes
    [lockUntil] and stamps [lastLogin] with the current time in one
    update; and in every account state that the application produces a
    zero counter goes with a cleared lock. *)
Theorem resetLoginAttempts_clears_lock :
  (forall now u,
      loginAttempts (resetLoginAttempts now u) = 0
      /\ lockUntil (resetLoginAttempts now u) = None
      /\ lastLogin (resetLoginAttempts now u) = Some now)
  /\ (forall u, reachable u -> loginAttempts u = 0 -> lockUntil u = None).
Proof.
  split.
  - apply resetLoginAttempts_fields.
  - intros u Hr. by apply reachable_lockout_invariant.
Qed.

Lemma resetLoginAttempts_clears_lock_witness :
  let u := resetLoginAttempts 99
             (incrementLoginAttempts 5
                (newUser "1" "a@b.co" (Some "h") "A" "B" ""
                   (Some credentials) None false)) in
  loginAttempts u = 0 /\ lockUntil u = None.
Proof.
  intros u. split; [reflexivity|].
  apply (proj2 resetLoginAttempts_clears_lock u).
  - apply reach_reset, reach_increment, reach_new.
  - reflexivity.
Defined.

End AccountLockout.

(** ** Lockout through the login handler *)

Section LoginLockout.
Context `{Externals}.
Import Api UserModel Security Server LoginRoute.

Lemma msg_oauth_not_invalid p : msg_oauth p <> msg_invalid.
Proof. by destruct p as [[]|]. Qed.

Lemma errorResponse_eq m s c e m' s' c' e' :
  errorResponse m s c e = errorResponse m' s' c' e' -> m = m' /\ s = s'.
Proof.
  intros Hr. split.
  - apply (f_equal (fun r => match body r with
                             | ErrorBody x _ _ _ => x
                             | _ => EmptyString
                             end)) in Hr. exact Hr.
  - apply (f_equal status) in Hr. exact Hr.
Qed.

(** A failed password verification is the only way for [attempt] to
    answer [invalid_credentials]. *)
Lemma attempt_invalid now u candidate :
  (attempt now u candidate).1.1 = invalid_credentials ->
  attempt now u candidate
    = (invalid_credentials, incrementLoginAttempts now u, false)
  /\ negb (Js.truthy (password u)) && is_oauth_provider (provider u) = false
  /\ isLocked now u = false
  /\ comparePassword u candidate = false.
Proof.
  unfold attempt.
  destruct (negb (Js.truthy (password u)) && is_oauth_provider (provider u)).
  { simpl. intros Hm. apply errorResponse_eq in Hm as [Hm _].
    by apply msg_oauth_not_invalid in Hm. }
  destruct (isLocked now u).
  { simpl. intros Hm. apply errorResponse_eq in Hm as [Hm _].
    discriminate Hm. }
  destruct (comparePassword u candidate); simpl; [|done].
  intros Hm. apply (f_equal status) in Hm. discriminate Hm.
Qed.

Lemma attempt_locked now u candidate :
  negb (Js.truthy (password u)) && is_oauth_provider (provider u) = false ->
  isLocked now u = true ->
  attempt now u candidate = (account_locked, u, false).
Proof. unfold attempt. by intros -> ->. Qed.

(** What [POST] does when the looked-up account exists. *)
Lemma POST_found now st request data u :
  users st !! sanitizeEmail (login_email data) = Some u ->
  let e := sanitizeEmail (login_email data) in
  let ip := requester_ip (x_forwarded_for request) in
  let limit := LoginLimiter.checkLoginRateLimit now (loginAttemptsMap st) ip e in
  let out := POST now st request (inr data) in
  (LoginLimiter.allowed limit.1 = false ->
     status out.1 = 429 /\ users out.2 = users st)
  /\ (LoginLimiter.allowed limit.1 = true ->
     out.1 = (attempt now u (login_password data)).1.1
     /\ users out.2
        = <[e := (attempt now u (login_password data)).1.2]> (users st)).
Proof.
  intros Hu e ip limit out. subst out limit. unfold POST.
  fold ip. fold e.
  destruct (LoginLimiter.checkLoginRateLimit now (loginAttemptsMap st) ip e)
    as [limit attempts]. simpl.
  destruct (LoginLimiter.allowed limit); simpl.
  - split; [done|]. intros _. subst e. rewrite Hu.
    by destruct (attempt now u (login_password data)) as [[r u'] ok].
  - split; [done|]. done.
Qed.

Lemma POST_invalid now st request data u :
  users st !! sanitizeEmail (login_email data) = Some u ->
  (POST now st request (inr data)).1 = invalid_credentials ->
  users (POST now st request (inr data)).2
    = <[sanitizeEmail (login_email data) := incrementLoginAttempts now u]>
        (users st)
  /\ negb (Js.truthy (password u)) && is_oauth_provider (provider u) = false
  /\ isLocked now u = false.
Proof.
  intros Hu Hr. destruct (POST_found now st request data u Hu) as [Hd Ha].
  destruct (LoginLimiter.allowed _) eqn:E.
  - destruct (Ha eq_refl) as [Hout Hst]. rewrite Hout in Hr.
    destruct (attempt_invalid _ _ _ Hr) as (Heq & Ho & Hl & _).
    rewrite Hst, Heq. done.
  - destruct (Hd eq_refl) as [Hs _]. rewrite Hr in Hs. discriminate Hs.
Qed.

Lemma run_cons st now request data calls :
  run st ((now, request, data) :: calls)
  = ((POST now st request (inr data)).1
       :: (run (POST now st request (inr data)).2 calls).1,
     (run (POST now st request (inr data)).2 calls).2).
Proof.
  cbn [run]. destruct (POST now st request (inr data)) as [r st1].
  cbn [fst snd]. by destruct (run st1 calls).
Qed.

(** While the counter stays below the threshold, failed verifications
    only count up. *)
Lemma run_failures_below e calls : forall st u,
  users st !! e = Some u ->
  lockUntil u = None ->
  loginAttempts u + Z.of_nat (length calls) < MAX_LOGIN_ATTEMPTS ->
  Forall (addressed_to e) calls ->
  Forall (eq invalid_credentials) (run st calls).1 ->
  exists u',
    users (run st calls).2 !! e = Some u'
    /\ loginAttempts u' = loginAttempts u + Z.of_nat (length calls)
    /\ lockUntil u' = None
    /\ password u' = password u /\ provider u' = provider u.
Proof.
  induction calls as [|[[now request] data] calls IH]; intros st u Hu Hl Hn Ha Hr.
  - exists u. simpl. rewrite Z.add_0_r. done.
  - apply Forall_cons in Ha as [Ha1 Ha]. unfold addressed_to in Ha1.
    simpl in Ha1. subst e. rewrite run_cons in Hr |- *.
    cbn [fst snd] in Hr |- *.
    apply Forall_cons in Hr as [Hr1 Hr]. symmetry in Hr1.
    destruct (POST_invalid now st request data u Hu Hr1) as (Hst & _ & _).
    assert (lockExpired now u = false) as Hexp
      by (unfold lockExpired; by rewrite Hl).
    rewrite length_cons, Nat2Z.inj_succ in Hn |- *.
    destruct (IH (POST now st request (inr data)).2
                (incrementLoginAttempts now u))
      as (u' & H1 & H2 & H3 & H4 & H5).
    + rewrite Hst. apply lookup_insert_eq.
    + rewrite (incrementLoginAttempts_lock _ _ Hexp).
      destruct (Z.leb_spec MAX_LOGIN_ATTEMPTS (loginAttempts u + 1));
        [lia | done].
    + rewrite incrementLoginAttempts_counter by done. lia.
    + done.
    + done.
    + exists u'. split; [done|].
      rewrite incrementLoginAttempts_counter in H2 by done.
      destruct (incrementLoginAttempts_identity now u) as (_ & _ & Hp & Hv).
      rewrite H2, H3, H4, H5, Hp, Hv. repeat split; try done. lia.
Qed.

Lemma run_app st calls1 calls2 :
  run st (calls1 ++ calls2)
  = ((run st calls1).1 ++ (run (run st calls1).2 calls2).1,
     (run (run st calls1).2 calls2).2).
Proof.
  revert st. induction calls1 as [|[[now request] data] calls1 IH]; intros st.
  - simpl. by destruct (run st calls2).
  - rewrite <- app_comm_cons, !run_cons, IH. done.
Qed.

(** C1. Take an account with a zero counter and no lock, and five
    consecutive logins for it that are each answered 401 with the
    invalid-credentials message (five failed password verifications).
    After fewer than five of them the account is not locked; after the
    fifth, made at [t5], the counter is 5 and the account is locked at
    exactly the instants before [t5] plus two hours.  A sixth login
    before that instant, whatever its password and origin, leaves the
    stored record (and so the counter) as it is; it is answered 401 with
    the account-locked message whenever the login limiter lets it
    through, and 429 by the limiter otherwise. *)
Theorem lockout_after_five_failures
    (st0 : State) (e : string) (u0 : IUser)
    (calls : list (Z * NextRequest * LoginData))
    (t5 : Z) (request5 : NextRequest) (data5 : LoginData) :
  users st0 !! e = Some u0 ->
  loginAttempts u0 = 0 ->
  lockUntil u0 = None ->
  length calls = 4%nat ->
  Forall (addressed_to e) (calls ++ [(t5, request5, data5)]) ->
  Forall (eq invalid_credentials)
    (run st0 (calls ++ [(t5, request5, data5)])).1 ->
  let st5 := (run st0 (calls ++ [(t5, request5, data5)])).2 in
  (forall k, (k < 5)%nat ->
     exists uk,
       users (run st0 (take k calls)).2 !! e = Some uk
       /\ loginAttempts uk = Z.of_nat k
       /\ forall t, isLocked t uk = false)
  /\ exists u5,
       users st5 !! e = Some u5
       /\ loginAttempts u5 = 5
       /\ lockUntil u5 = Some (t5 + 7200000)
       /\ (forall t, isLocked t u5 = true <-> t < t5 + 7200000)
       /\ forall t6 request6 data6,
            addressed_to e (t6, request6, data6) ->
            t6 < t5 + 7200000 ->
            let out := POST t6 st5 request6 (inr data6) in
            let limit :=
              (LoginLimiter.checkLoginRateLimit t6 (loginAttemptsMap st5)
                 (requester_ip (x_forwarded_for request6)) e).1 in
            users out.2 !! e = Some u5
            /\ (LoginLimiter.allowed limit = true ->
                out.1 = account_locked /\ status out.1 = 401)
            /\ (LoginLimiter.allowed limit = false -> status out.1 = 429).
Proof.
  intros Hu Hz Hn Hlen Ha Hr st5.
  assert (forall k, (k <= 4)%nat ->
     exists uk,
       users (run st0 (take k calls)).2 !! e = Some uk
       /\ loginAttempts uk = Z.of_nat k /\ lockUntil uk = None
       /\ password uk = password u0 /\ provider uk = provider u0) as Hprefix.
  { intros k Hk.
    assert (calls ++ [(t5, request5, data5)]
            = take k calls ++ (drop k calls ++ [(t5, request5, data5)])) as Hs
      by (by rewrite app_assoc, take_drop).
    rewrite Hs in Ha, Hr. rewrite run_app in Hr. cbn [fst] in Hr.
    apply Forall_app in Ha as [Ha _]. apply Forall_app in Hr as [Hr _].
    destruct (run_failures_below e (take k calls) st0 u0) as (uk & H1 & H2 & H3);
      try done.
    - rewrite Hz, length_take. unfold MAX_LOGIN_ATTEMPTS. lia.
    - exists uk. split; [done|]. rewrite H2, Hz, length_take.
      split; [lia | done]. }
  split.
  { intros k Hk. destruct (Hprefix k) as (uk & H1 & H2 & H3 & _); [lia|].
    exists uk. repeat split; try done. intros t. unfold isLocked.
    by rewrite H3. }
  destruct (Hprefix 4%nat) as (u4 & H1 & H2 & H3 & H4 & H5); [lia|].
  rewrite firstn_all2 in H1 by lia.
  subst st5. rewrite run_app in Hr |- *. cbn [fst snd] in Hr |- *.
  apply Forall_app in Hr as [_ Hr]. apply Forall_app in Ha as [_ Ha].
  apply Forall_cons in Ha as [Ha _]. unfold addressed_to in Ha. simpl in Ha.
  rewrite run_cons in Hr |- *. cbn [fst snd run] in Hr |- *.
  apply Forall_cons in Hr as [Hr _]. symmetry in Hr.
  set (st4 := (run st0 calls).2) in *.
  rewrite <- Ha in H1.
  destruct (POST_invalid t5 st4 request5 data5 u4 H1 Hr) as (Hst & Ho & Hl).
  rewrite Ha in Hst.
  assert (lockExpired t5 u4 = false) as Hexp
    by (unfold lockExpired; by rewrite H3).
  set (u5 := incrementLoginAttempts t5 u4) in *.
  assert (lockUntil u5 = Some (t5 + 7200000)) as Hlock.
  { subst u5. rewrite (incrementLoginAttempts_lock _ _ Hexp), H2, Hl. done. }
  assert (forall t, isLocked t u5 = true <-> t < t5 + 7200000) as Hiff.
  { intros t. unfold isLocked. rewrite Hlock. apply Z.ltb_lt. }
  exists u5. split; [rewrite Hst; apply lookup_insert_eq|].
  split; [subst u5; rewrite incrementLoginAttempts_counter by done; lia|].
  split; [done|]. split; [done|].
  intros t6 request6 data6 Ha6 Ht6.
  unfold addressed_to in Ha6. simpl in Ha6.
  set (st5 := (POST t5 st4 request5 (inr data5)).2) in *.
  assert (users st5 !! sanitizeEmail (login_email data6) = Some u5) as Hu5
    by (rewrite Ha6, Hst; apply lookup_insert_eq).
  destruct (POST_found t6 st5 request6 data6 u5 Hu5) as [Hd Hal].
  rewrite Ha6 in Hd, Hal.
  assert (attempt t6 u5 (login_password data6) = (account_locked, u5, false))
    as Hatt.
  { apply attempt_locked; [|by apply Hiff].
    destruct (incrementLoginAttempts_identity t5 u4) as (_ & _ & Hp & Hv).
    fold u5 in Hp, Hv. by rewrite Hp, Hv. }
  rewrite Hatt in Hal. cbn [fst snd] in Hal.
  split; [|split].
  - destruct (LoginLimiter.allowed _) eqn:E.
    + destruct (Hal eq_refl) as [_ ->]. apply lookup_insert_eq.
    + destruct (Hd eq_refl) as [_ ->]. rewrite Hst. apply lookup_insert_eq.
  - intros E. destruct (Hal E) as [-> _]. done.
  - intros E. by destruct (Hd E).
Qed.

End LoginLockout.

Lemma lockout_after_five_failures_witness :
  exists u5,
    Server.users
      (@LoginRoute.run Examples.toy Examples.st0
         (Examples.four_failures
            ++ [(15000, Examples.login_request, Examples.wrong)])).2
      !! "alice@example.com" = Some u5
    /\ UserModel.loginAttempts u5 = 5
    /\ UserModel.lockUntil u5 = Some (15000 + 7200000)
    /\ (@LoginRoute.POST Examples.toy 31000
          (@LoginRoute.run Examples.toy Examples.st0
             (Examples.four_failures
                ++ [(15000, Examples.login_request, Examples.wrong)])).2
          Examples.login_request (inr Examples.right)).1
       = LoginRoute.account_locked.
Proof.
  destruct (@lockout_after_five_failures Examples.toy Examples.st0
              "alice@example.com" Examples.alice Examples.four_failures
              15000 Examples.login_request Examples.wrong)
    as [_ (u5 & Hu & Hc & Hl & _ & H6)].
  - vm_compute. reflexivity.
  - reflexivity.
  - reflexivity.
  - reflexivity.
  - repeat constructor.
  - vm_compute. repeat constructor.
  - exists u5. split; [exact Hu|]. split; [exact Hc|]. split; [exact Hl|].
    destruct (H6 31000 Examples.login_request Examples.right)
      as (_ & Hlocked & _).
    + reflexivity.
    + lia.
    + apply Hlocked. vm_compute. reflexivity.
Defined.

(** The claim as the specification words it fails for a sixth login
    that comes before the wait of the login limiter has run out: the
    limiter is asked before the account is looked up, and answers 429.
    Here the five failures come at 0, 1, 3, 7 and 15 seconds, each as
    soon as the limiter admits it, and the sixth login, with the right
    password, at 16 seconds. *)
Lemma spec_lockout_counterexample :
  let st5 :=
    (@LoginRoute.run Examples.toy Examples.st0
       (Examples.four_failures
          ++ [(15000, Examples.login_request, Examples.wrong)])).2 in
  let out :=
    @LoginRoute.POST Examples.toy 16000 st5 Examples.login_request
      (inr Examples.right) in
  (Api.status
     <$> (@LoginRoute.run Examples.toy Examples.st0
            (Examples.four_failures
               ++ [(15000, Examples.login_request, Examples.wrong)])).1)
  = [401; 401; 401; 401; 401]
  /\ (UserModel.isLocked 16000 <$> Server.users st5 !! "alice@example.com")
     = Some true
  /\ Api.status out.1 = 429
  /\ Api.body out.1
     = Api.ErrorBody
         "Too many login attempts. Please try again in 15 seconds." 429
         "RATE_LIMIT_ERROR" None
  /\ Server.users out.2 !! "alice@example.com"
     = Server.users st5 !! "alice@example.com".
Proof. vm_compute. repeat split; reflexivity. Qed.

(** ** The user schema *)

Section SchemaFacts.
Import Js UserModel UserSchema.

(** The two setters of [email] commute, so the order in which they run
    does not matter. *)
Lemma is_space_lower_char c : is_space (lower_char c) = is_space c.
Proof. destruct c as [[] [] [] [] [] [] [] []]; vm_compute; reflexivity. Qed.

Lemma toLowerCase_trim_start s :
  toLowerCase (trim_start s) = trim_start (toLowerCase s).
Proof.
  induction s as [|c s IH]; [done|]. cbn [trim_start toLowerCase].
  rewrite is_space_lower_char. by destruct (is_space c).
Qed.

Lemma toLowerCase_trim_end s :
  toLowerCase (trim_end s) = trim_end (toLowerCase s).
Proof.
  induction s as [|c s IH]; [done|]. cbn [trim_end toLowerCase].
  rewrite <- IH, is_space_lower_char.
  destruct (trim_end s); [by destruct (is_space c) | done].
Qed.

Lemma toLowerCase_trim s : toLowerCase (trim s) = trim (toLowerCase s).
Proof. unfold trim. by rewrite toLowerCase_trim_end, toLowerCase_trim_start. Qed.

Lemma required_true value : required value = true <-> value <> EmptyString.
Proof.
  unfold required. destruct (String.eqb_spec value ""); split; try done.
Qed.

(** What the validators ask of a document. *)
Lemma validate_iff doc :
  validate doc = true
  <-> email doc <> EmptyString
      /\ email_match (email doc) = true
      /\ (forall value, password doc = Some value ->
            (8 <= String.length value)%nat)
      /\ firstName doc <> EmptyString
      /\ (String.length (firstName doc) <= 50)%nat
      /\ lastName doc <> EmptyString
      /\ (String.length (lastName doc) <= 50)%nat
      /\ (String.length (bio doc) <= 500)%nat.
Proof.
  unfold validate. rewrite !andb_true_iff, !required_true, !Nat.leb_le.
  destruct (password doc) as [value|].
  - rewrite Nat.leb_le. split.
    + intros (((((((? & ?) & ?) & ?) & ?) & ?) & ?) & ?).
      repeat split; try done. by intros ? [= <-].
    + intros (? & ? & Hp & ? & ? & ? & ? & ?).
      repeat split; try done. by apply Hp.
  - split.
    + intros (((((((? & ?) & ?) & ?) & ?) & ?) & ?) & ?).
      repeat split; done.
    + intros (? & ? & ? & ? & ? & ? & ? & ?). repeat split; done.
Qed.

Lemma email_match_nonempty value :
  email_match value = true -> value <> EmptyString.
Proof. by destruct value. Qed.

(** Loading a record changes its [provider] at most. *)
Lemma hydrate_provider stored :
  provider stored <> None -> hydrate stored = stored.
Proof. by destruct stored as [? ? ? ? ? ? ? [prov|] ? ? ? ? ?]. Qed.

Lemma hydrate_oauth stored :
  is_oauth_provider (provider (hydrate stored))
  = is_oauth_provider (provider stored).
Proof. by destruct stored as [? ? ? ? ? ? ? [prov|] ? ? ? ? ?]. Qed.

Lemma hydrate_fields stored :
  _id (hydrate stored) = _id stored
  /\ email (hydrate stored) = email stored
  /\ password (hydrate stored) = password stored
  /\ firstName (hydrate stored) = firstName stored
  /\ lastName (hydrate stored) = lastName stored
  /\ avatar (hydrate stored) = avatar stored
  /\ provider (hydrate stored) <> None.
Proof. by destruct stored as [? ? ? ? ? ? ? [prov|] ? ? ? ? ?]. Qed.

Lemma oauth_provider_set stored :
  is_oauth_provider (provider stored) = true -> provider stored <> None.
Proof. by destruct (provider stored). Qed.

Lemma string_app_nil_l s : EmptyString +:+ s = s.
Proof. reflexivity. Qed.

Lemma string_app_cons c a s : String c a +:+ s = String c (a +:+ s).
Proof. reflexivity. Qed.

Ltac norm_app H :=
  repeat (rewrite string_app_cons in H || rewrite string_app_nil_l in H).

Lemma all_email_chars_app a b :
  all_email_chars (a +:+ b) = all_email_chars a && all_email_chars b.
Proof.
  induction a as [|c a IH]; [done|]. rewrite string_app_cons.
  cbn [all_email_chars]. by rewrite IH, andb_assoc.
Qed.

Lemma dot_before_end_iff s :
  dot_before_end s = true
  <-> exists before after,
        s = before +:+ "." +:+ after /\ after <> EmptyString.
Proof.
  induction s as [|c s IH].
  - split; [done|]. intros (before & after & Hs & _).
    by destruct before.
  - destruct s as [|d s].
    + split; [done|]. intros (before & after & Hs & Hne).
      destruct before as [|? before]; norm_app Hs.
      * by injection Hs as _ <-.
      * injection Hs as _ Hs. by destruct before.
    + cbn [dot_before_end]. rewrite orb_true_iff, IH. split.
      * intros [Hc | (before & after & -> & Hne)].
        -- apply Ascii.eqb_eq in Hc as ->. by exists EmptyString, (String d s).
        -- by exists (String c before), after.
      * intros (before & after & Hs & Hne).
        destruct before as [|? before]; norm_app Hs.
        -- injection Hs as -> _. by left.
        -- injection Hs as -> Hs. right. by exists before, after.
Qed.

(** What the pattern of the [match] validator accepts: a non-empty
    local part, an at sign, and a domain with a dot that has something
    before it and something after it, all without white space or a
    further at sign. *)
Lemma email_match_iff value :
  email_match value = true
  <-> exists local domain tld,
        value = local +:+ "@" +:+ domain +:+ "." +:+ tld
        /\ local <> EmptyString /\ domain <> EmptyString
        /\ tld <> EmptyString
        /\ all_email_chars local = true
        /\ all_email_chars domain = true
        /\ all_email_chars tld = true.
Proof.
  assert (forall s,
            domain_match s = true
            <-> exists domain tld,
                  s = domain +:+ "." +:+ tld
                  /\ domain <> EmptyString /\ tld <> EmptyString
                  /\ all_email_chars domain = true
                  /\ all_email_chars tld = true) as Hdomain.
  { intros [|c s]; cbn [domain_match].
    - split; [done|]. intros (domain & tld & Hs & Hd & _).
      by destruct domain.
    - rewrite andb_true_iff, dot_before_end_iff. split.
      + intros [Hall (before & after & -> & Hne)].
        exists (String c before), after.
        rewrite <- string_app_cons, !all_email_chars_app in Hall.
        apply andb_true_iff in Hall as [Hb Hall].
        apply andb_true_iff in Hall as [_ Ha]. done.
      + intros (domain & tld & Hs & Hd & Ht & Hda & Hta).
        rewrite Hs, !all_email_chars_app, Hda, Hta.
        split; [done|].
        destruct domain as [|? domain]; [done|]. norm_app Hs.
        injection Hs as _ ->. by exists domain, tld. }
  assert (forall s seen,
            email_match_from seen s = true
            <-> exists local rest,
                  s = local +:+ "@" +:+ rest
                  /\ (seen = true \/ local <> EmptyString)
                  /\ all_email_chars local = true
                  /\ domain_match rest = true) as Hfrom.
  { induction s as [|c s IH]; intros seen.
    - split; [done|]. intros (local & rest & Hs & _). by destruct local.
    - cbn [email_match_from].
      destruct (Ascii.eqb_spec c "@") as [->|Hc].
      + rewrite andb_true_iff. split.
        * intros [-> Hd]. exists EmptyString, s. split; [done|].
          split; [by left | done].
        * intros (local & rest & Hs & Hseen & Hall & Hd).
          destruct local as [|? local]; norm_app Hs.
          -- injection Hs as ->. by destruct Hseen.
          -- injection Hs as <- _. by cbn in Hall.
      + destruct (is_space c) eqn:Esp.
        * split; [done|]. intros (local & rest & Hs & _ & Hall & _).
          destruct local as [|? local]; norm_app Hs; [by injection Hs|].
          injection Hs as <- _. cbn [all_email_chars] in Hall.
          unfold email_char in Hall. by rewrite Esp in Hall.
        * rewrite IH. split.
          -- intros (local & rest & -> & _ & Hall & Hd).
             exists (String c local), rest. split; [done|].
             split; [by right|]. split; [|done].
             cbn [all_email_chars]. unfold email_char. rewrite Esp, Hall.
             by destruct (Ascii.eqb_spec c "@").
          -- intros (local & rest & Hs & _ & Hall & Hd).
             destruct local as [|? local]; norm_app Hs; [by injection Hs|].
             injection Hs as <- ->. exists local, rest.
             split; [done|]. split; [by left|].
             cbn [all_email_chars] in Hall.
             by apply andb_true_iff in Hall as [_ ?]. }
  unfold email_match. rewrite Hfrom. split.
  - intros (local & rest & -> & [?|Hl] & Hall & Hd); [done|].
    apply Hdomain in Hd as (domain & tld & -> & ? & ? & ? & ?).
    by exists local, domain, tld.
  - intros (local & domain & tld & -> & ? & ? & ? & ? & ? & ?).
    exists local, (domain +:+ "." +:+ tld). split; [done|].
    split; [by right|]. split; [done|]. apply Hdomain.
    by exists domain, tld.
Qed.

End SchemaFacts.

(** ** Registration for an e-mail that already has an account *)

Section RegisterExisting.
Context `{Externals}.
Import Js Api UserModel UserSchema Security Server RegisterRoute.

Lemma valid_password_nonempty (plain : string) :
  isValid (validatePasswordStrength (units plain)) = true ->
  String.eqb plain "" = false.
Proof. destruct plain; [vm_compute; discriminate | done]. Qed.

(** The set-password branch when the validators accept the edited
    record. *)
Lemma existing_account_sets_password now salt u plain first last :
  is_oauth_provider (provider u) = true ->
  truthy (password u) = false ->
  validate (with_names (trim first) (trim last)
              (with_password (Some plain) u)) = true ->
  existing_account now salt u plain first last
  = (let saved :=
       with_names (trim first) (trim last)
         (with_password (Some (bcrypt_hash plain salt)) u) in
     let token := generateToken now (_id u) (email u) in
     (set_token_cookie token
        (successResponse (LoginRoute.view_of saved) token msg_password_set
           HttpStatus.OK),
      Some saved)).
Proof.
  intros Ho Hp Hv. unfold existing_account, save, name_setters.
  rewrite Ho, Hp, Hv. cbn [negb andb].
  assert (String.eqb plain "" = false) as Hne.
  { apply validate_iff in Hv as (_ & _ & Hlen & _).
    specialize (Hlen plain eq_refl). by destruct plain; [simpl in Hlen; lia|]. }
  assert (option_string_eqb (password u) (Some plain) = false) as ->.
  { destruct (password u) as [h|]; [|done]. simpl in *.
    destruct (String.eqb_spec h ""); [subst h|done].
    destruct (String.eqb_spec "" plain); [subst plain; done|done]. }
  unfold pre_save. simpl. rewrite Hne. done.
Qed.

(** The same branch when a validator refuses it. *)
Lemma existing_account_refused now salt u plain first last :
  is_oauth_provider (provider u) = true ->
  truthy (password u) = false ->
  validate (with_names (trim first) (trim last)
              (with_password (Some plain) u)) = false ->
  existing_account now salt u plain first last = (internal_error, None).
Proof.
  intros Ho Hp Hv. unfold existing_account, save, name_setters.
  by rewrite Ho, Hp, Hv.
Qed.


(** [POST] past the limiter, the parser and the strength policy. *)
Lemma POST_admitted now salt freshId st request data :
  RateLimiter.allowed
    (RateLimiter.checkRateLimit now (rateLimitStore st) request
       RateLimiter.rateLimitConfigs.auth).1 = true ->
  isValid (validatePasswordStrength (units (reg_password data))) = true ->
  let key := email_setters (sanitizeEmail (reg_email data)) in
  let first := sanitizeInput (reg_firstName data) in
  let last := sanitizeInput (reg_lastName data) in
  let out := POST now salt freshId st request (inr data) in
  loginAttemptsMap out.2 = loginAttemptsMap st
  /\ match users st !! key with
     | Some stored =>
         out.1
         = (existing_account now salt (hydrate stored) (reg_password data)
              first last).1
         /\ users out.2
            = match (existing_account now salt (hydrate stored)
                       (reg_password data) first last).2 with
              | Some saved => <[key := saved]> (users st)
              | None => users st
              end
     | None =>
         let doc :=
           newUser freshId key (Some (reg_password data)) (trim first)
             (trim last) "" (Some credentials) None false in
         if validate doc then
           let user :=
             newUser freshId key
               (Some (bcrypt_hash (reg_password data) salt)) (trim first)
               (trim last) "" (Some credentials) None false in
           let token := generateToken now freshId key in
           out.1
           = set_token_cookie token
               (successResponse (LoginRoute.view_of user) token
                  "Account created successfully" HttpStatus.CREATED)
           /\ users out.2 = <[key := user]> (users st)
         else out.1 = internal_error /\ users out.2 = users st
     end.
Proof.
  intros Hlim Hvalid key first last out. subst out. unfold POST.
  destruct (RateLimiter.checkRateLimit now (rateLimitStore st) request
              RateLimiter.rateLimitConfigs.auth) as [limit store].
  cbn [fst] in Hlim. rewrite Hlim. cbn [negb users]. rewrite Hvalid.
  cbn [negb]. unfold findOne. fold key first last.
  destruct (users st !! key) as [stored|]; cbn [fmap option_fmap option_map].
  - destruct (existing_account now salt (hydrate stored) (reg_password data)
                first last) as [response [saved|]]; done.
  - unfold save, name_setters.
    destruct (validate _) eqn:Hv; [|done].
    unfold pre_save. cbn [password newUser].
    rewrite (valid_password_nonempty _ Hvalid). done.
Qed.


End RegisterExisting.



(** ** The password-strength policy *)

Section PasswordStrength.
Import Js Security.

Lemma b2z_range b : 0 <= b2z b <= 1.
Proof. destruct b; simpl; lia. Qed.

Lemma criteria_met_range password : 0 <= criteria_met password <= 6.
Proof.
  unfold criteria_met.
  pose proof (b2z_range (8 <=? Z.of_nat (length password))).
  pose proof (b2z_range (12 <=? Z.of_nat (length password))).
  pose proof (b2z_range (existsb is_lower password)).
  pose proof (b2z_range (existsb is_upper password)).
  pose proof (b2z_range (existsb is_digit password)).
  pose proof (b2z_range (existsb is_symbol password)).
  lia.
Qed.

(** The five patterns of the source are the four that the
    specification lists and [/abc123/i]. *)
Lemma matches_common_pattern_cases password :
  matches_common_pattern password
  = spec_weak_pattern password || occurs eq_ci (units "abc123") password.
Proof.
  unfold matches_common_pattern, spec_weak_pattern, commonPatterns.
  cbn [existsb].
  destruct (starts_with N.eqb (units "123") password),
    (occurs eq_ci (units "password") password),
    (occurs eq_ci (units "qwerty") password),
    (occurs eq_ci (units "abc123") password),
    (has_repeat3 password); reflexivity.
Qed.

(** The score that the code computes, in closed form. *)
Lemma score_closed_form password :
  score (validatePasswordStrength password)
  = if matches_common_pattern password
    then Z.max 0 (criteria_met password - 2)
    else criteria_met password.
Proof.
  unfold validatePasswordStrength, criteria_met, check.
  destruct (8 <=? Z.of_nat (length password)),
    (12 <=? Z.of_nat (length password)),
    (existsb is_lower password), (existsb is_upper password),
    (existsb is_digit password), (existsb is_symbol password),
    (matches_common_pattern password); reflexivity.
Qed.

Lemma isValid_iff_score password :
  isValid (validatePasswordStrength password) = true
  <-> 4 <= score (validatePasswordStrength password).
Proof. unfold validatePasswordStrength. cbn [isValid score]. apply Z.leb_le. Qed.

(** What the matchers decide. *)
Lemma starts_with_iff eq pat s :
  starts_with eq pat s = true
  <-> exists mid post,
        s = mid ++ post /\ Forall2 (fun p c => eq p c = true) pat mid.
Proof.
  revert s. induction pat as [|p pat IH]; intros s.
  - split; [|done]. intros _. exists [], s. split; [done | constructor].
  - destruct s as [|c s]; simpl.
    + split; [done|]. intros (mid & post & Hs & Hf).
      inversion Hf; subst. discriminate Hs.
    + rewrite andb_true_iff, IH. split.
      * intros (Hpc & mid & post & -> & Hf). exists (c :: mid), post.
        split; [done | by constructor].
      * intros (mid & post & Hs & Hf). inversion Hf as [|? c' ? mid' Hpc Hf']; subst.
        injection Hs as <- ->. split; [done|]. by exists mid', post.
Qed.

Lemma occurs_iff eq pat s :
  occurs eq pat s = true
  <-> exists pre mid post,
        s = pre ++ mid ++ post /\ Forall2 (fun p c => eq p c = true) pat mid.
Proof.
  induction s as [|c s IH].
  - simpl. rewrite orb_false_r, starts_with_iff. split.
    + intros (mid & post & Hs & Hf). by exists [], mid, post.
    + intros (pre & mid & post & Hs & Hf).
      symmetry in Hs. apply app_eq_nil in Hs as [-> Hs].
      by exists mid, post.
  - cbn [occurs]. rewrite orb_true_iff, IH, starts_with_iff. split.
    + intros [(mid & post & Hs & Hf) | (pre & mid & post & -> & Hf)].
      * by exists [], mid, post.
      * by exists (c :: pre), mid, post.
    + intros (pre & mid & post & Hs & Hf). destruct pre as [|c' pre].
      * left. by exists mid, post.
      * right. injection Hs as -> ->. by exists pre, mid, post.
Qed.

Lemma has_repeat3_iff s :
  has_repeat3 s = true
  <-> exists pre c post,
        s = pre ++ c :: c :: c :: post /\ is_line_terminator c = false.
Proof.
  induction s as [|a s IH].
  - split; [done|]. intros (pre & c & post & Hs & _). by destruct pre.
  - cbn [has_repeat3]. rewrite orb_true_iff, IH. split.
    + intros [Hh | (pre & c & post & -> & Hc)].
      * destruct s as [|b [|c s]]; try done.
        apply andb_true_iff in Hh as [Hh Hc].
        apply andb_true_iff in Hh as [Ht Hb].
        apply N.eqb_eq in Hb as <-. apply N.eqb_eq in Hc as <-.
        exists [], a, s. split; [done|]. by destruct (is_line_terminator a).
      * by exists (a :: pre), c, post.
    + intros (pre & c & post & Hs & Hc). destruct pre as [|a' pre].
      * left. injection Hs as -> ->. by rewrite Hc, !N.eqb_refl.
      * right. injection Hs as -> ->. by exists pre, c, post.
Qed.

(** C5, as amended.  The score is the number of criteria met among
    length at least 8, length at least 12, a lowercase letter, an
    uppercase letter, a digit and a symbol, lowered by 2 but not below
    0 when a weak pattern matches; the weak patterns are the four of
    the specification (leading 123, password, qwerty, a character three
    or more times in a row) and also abc123 in any letter case.  The
    score lies between 0 and 6 and the password is valid exactly when
    the score is at least 4: four criteria and no weak pattern give a
    valid password, three criteria an invalid one, four criteria with a
    weak pattern the score 2 and an invalid password. *)
Theorem validatePasswordStrength_policy (password : jsstring) :
  let r := validatePasswordStrength password in
  let weak :=
    spec_weak_pattern password || occurs eq_ci (units "abc123") password in
  score r
    = (if weak then Z.max 0 (criteria_met password - 2)
       else criteria_met password)
  /\ 0 <= score r <= 6
  /\ (isValid r = true <-> 4 <= score r)
  /\ (criteria_met password = 4 -> weak = false ->
      score r = 4 /\ isValid r = true)
  /\ (criteria_met password = 3 -> isValid r = false)
  /\ (criteria_met password = 4 -> weak = true ->
      score r = 2 /\ isValid r = false).
Proof.
  intros r weak. subst r weak.
  pose proof (criteria_met_range password) as Hrange.
  pose proof (isValid_iff_score password) as Hvalid.
  pose proof (score_closed_form password) as Hscore.
  rewrite matches_common_pattern_cases in Hscore.
  split; [exact Hscore|]. split; [|split; [exact Hvalid|]].
  { rewrite Hscore. destruct (_ || _); lia. }
  assert (forall b, (b = true <-> 4 <= score (validatePasswordStrength password)) ->
                    score (validatePasswordStrength password) < 4 -> b = false)
    as Hinvalid.
  { intros [] Hb Hlt; [|done]. pose proof (proj1 Hb eq_refl). lia. }
  split; [|split].
  - intros Hc Hw. rewrite Hw in Hscore. split; [lia|]. apply Hvalid. lia.
  - intros Hc. apply (Hinvalid _ Hvalid). rewrite Hscore.
    destruct (_ || _); lia.
  - intros Hc Hw. rewrite Hw in Hscore. split; [lia|].
    apply (Hinvalid _ Hvalid). lia.
Qed.

Lemma validatePasswordStrength_policy_witness :
  score (validatePasswordStrength (units "Abcdefg1")) = 4
  /\ isValid (validatePasswordStrength (units "Abcdefg1")) = true.
Proof.
  destruct (validatePasswordStrength_policy (units "Abcdefg1"))
    as (_ & _ & _ & H4 & _).
  apply H4; vm_compute; reflexivity.
Defined.

(** The wording of the specification fails on [abc123XY]: the
    password meets exactly four criteria and matches none of the weak
    patterns that the specification lists, yet it is not valid, and its
    score is 2 where the specification's wording gives 4. *)
Lemma spec_policy_counterexample :
  ~ (forall password,
       criteria_met password = 4 ->
       spec_weak_pattern password = false ->
       score (validatePasswordStrength password) = spec_score password
       /\ isValid (validatePasswordStrength password) = true).
Proof.
  intros Hclaim.
  destruct (Hclaim (units "abc123XY")) as [Hscore _];
    [vm_compute; reflexivity | vm_compute; reflexivity |].
  vm_compute in Hscore. discriminate Hscore.
Qed.

End PasswordStrength.

(** ** The login limiter *)

Section LoginBackoff.
Import LoginLimiter.

Lemma backoff_seconds count :
  backoff count = Z.min (2 ^ (count - 1)) 1800 * 1000.
Proof. unfold backoff. lia. Qed.

Lemma backoff_le_cap count : backoff count <= 1800000.
Proof. unfold backoff. lia. Qed.

(** One call against a stored entry. *)
Lemma check_with_entry now store ip email a :
  store !! key_of ip email = Some a ->
  checkLoginRateLimit now store ip email
  = if backoff (count a) <=? now - lastAttempt a then
      ({| allowed := true; waitTime := 0 |},
       <[key_of ip email :=
           {| count := if 1800000 <=? now - lastAttempt a
                       then 1 else count a + 1;
              lastAttempt := now |}]> store)
    else
      ({| allowed := false;
          waitTime :=
            Js.ceil_div_1000 (backoff (count a) - (now - lastAttempt a)) |},
       store).
Proof.
  intros Ha. unfold checkLoginRateLimit. rewrite Ha.
  change (30 * 60 * 1000) with 1800000.
  destruct (backoff (count a) <=? now - lastAttempt a); [|done].
  by destruct (1800000 <=? now - lastAttempt a).
Qed.

Lemma check_without_entry now store ip email :
  store !! key_of ip email = None ->
  checkLoginRateLimit now store ip email
  = ({| allowed := true; waitTime := 0 |},
     <[key_of ip email := {| count := 1; lastAttempt := now |}]> store).
Proof. intros Ha. unfold checkLoginRateLimit. by rewrite Ha. Qed.

Lemma admitted_run_spaced ip email times : forall store c prev store',
  store !! key_of ip email = Some {| count := c; lastAttempt := prev |} ->
  admitted_run ip email store times = Some store' ->
  no_reset prev times ->
  spaced c prev times
  /\ count <$> store' !! key_of ip email
     = Some (c + Z.of_nat (length times)).
Proof.
  induction times as [|t rest IH]; intros store c prev store' Hs Hrun Hgap.
  - injection Hrun as <-. simpl. by rewrite Hs, Z.add_0_r.
  - cbn [admitted_run] in Hrun. rewrite (check_with_entry _ _ _ _ _ Hs) in Hrun.
    cbn [count lastAttempt] in Hrun. destruct Hgap as [Hlt Hgap].
    destruct (Z.leb_spec (backoff c) (t - prev)) as [Hwait|]; [|done].
    destruct (Z.leb_spec 1800000 (t - prev)); [lia|].
    cbn [allowed] in Hrun.
    destruct (IH _ (c + 1) t store' (lookup_insert_eq _ _ _) Hrun Hgap)
      as [Hsp Hst].
    split; [done|]. rewrite Hst, length_cons, Nat2Z.inj_succ.
    f_equal. lia.
Qed.

Lemma spaced_lookup times : forall c prev i a b,
  spaced c prev times ->
  (prev :: times) !! i = Some a ->
  times !! i = Some b ->
  backoff (c + Z.of_nat i) <= b - a.
Proof.
  induction times as [|t rest IH]; intros c prev i a b Hsp Ha Hb; [done|].
  destruct Hsp as (Hw & _ & Hsp). destruct i as [|i].
  - injection Ha as <-. injection Hb as <-. by rewrite Z.add_0_r.
  - cbn in Ha, Hb. pose proof (IH (c + 1) t i a b Hsp Ha Hb) as Hle.
    rewrite Nat2Z.inj_succ. by replace (c + Z.succ (Z.of_nat i))
      with (c + 1 + Z.of_nat i) by lia.
Qed.

(** C6, as amended.  Number the admitted calls of one (ip, e-mail) pair
    from 1, starting with no entry and with no gap of thirty minutes.
    (1) Call [n], for [n] at least 2, comes at least
    [min(2^(n-2), 1800)] seconds after call [n-1]: the wait is
    [min(2^(c-1), 1800)] seconds for the counter value [c = n-1] that
    call [n] finds.  (2) A call against an entry is admitted exactly
    when that wait has elapsed; a call that is turned away leaves the
    map, and so the counter, as it was.  (3) A call that comes thirty
    minutes or more after the last admitted one is admitted and resets
    the counter to 1; an admitted call that comes sooner adds one.
    (4) After [resetLoginAttempts] the next call finds no entry and is
    admitted with a wait of zero seconds. *)
Theorem login_backoff (ip email : string) :
  (forall times store' n a b,
      admitted_run ip email ∅ times = Some store' ->
      match times with [] => True | t :: rest => no_reset t rest end ->
      (2 <= n)%nat ->
      times !! (n - 2)%nat = Some a ->
      times !! (n - 1)%nat = Some b ->
      Z.min (2 ^ (Z.of_nat n - 2)) 1800 * 1000 <= b - a)
  /\ (forall now store e,
      store !! key_of ip email = Some e ->
      let out := checkLoginRateLimit now store ip email in
      (allowed out.1 = true <->
         Z.min (2 ^ (count e - 1)) 1800 * 1000 <= now - lastAttempt e)
      /\ (allowed out.1 = false -> out.2 = store))
  /\ (forall now store e,
      store !! key_of ip email = Some e ->
      let out := checkLoginRateLimit now store ip email in
      (1800000 <= now - lastAttempt e ->
         allowed out.1 = true
         /\ out.2 !! key_of ip email
            = Some {| count := 1; lastAttempt := now |})
      /\ (allowed out.1 = true -> now - lastAttempt e < 1800000 ->
         out.2 !! key_of ip email
         = Some {| count := count e + 1; lastAttempt := now |}))
  /\ (forall now store,
      checkLoginRateLimit now (resetLoginAttempts store ip email) ip email
      = ({| allowed := true; waitTime := 0 |},
         <[key_of ip email := {| count := 1; lastAttempt := now |}]> store)).
Proof.
  split; [|split; [|split]].
  - intros times store' n a b Hrun Hgap Hn Ha Hb.
    destruct times as [|t rest]; [done|].
    cbn [admitted_run] in Hrun.
    rewrite check_without_entry in Hrun by apply lookup_empty.
    cbn [allowed] in Hrun.
    destruct (admitted_run_spaced ip email rest _ 1 t store'
                (lookup_insert_eq _ _ _) Hrun Hgap) as [Hsp _].
    destruct n as [|[|i]]; [lia | lia |].
    replace (S (S i) - 2)%nat with i in Ha by lia.
    replace (S (S i) - 1)%nat with (S i) in Hb by lia.
    cbn in Hb. pose proof (spaced_lookup rest 1 t i a b Hsp Ha Hb) as Hle.
    rewrite backoff_seconds in Hle.
    by replace (Z.of_nat (S (S i)) - 2) with (1 + Z.of_nat i - 1) by lia.
  - intros now store e He out. subst out.
    rewrite (check_with_entry _ _ _ _ _ He), <- backoff_seconds.
    destruct (Z.leb_spec (backoff (count e)) (now - lastAttempt e))
      as [Hle | Hgt]; cbn [fst snd allowed].
    + split; [split; [intros _; exact Hle | done] | done].
    + split; [split; [done | lia] | done].
  - intros now store e He out. subst out.
    rewrite (check_with_entry _ _ _ _ _ He).
    pose proof (backoff_le_cap (count e)).
    destruct (Z.leb_spec (backoff (count e)) (now - lastAttempt e));
      cbn [fst snd allowed].
    + destruct (Z.leb_spec 1800000 (now - lastAttempt e)).
      * split; [intros _; split; [done | apply lookup_insert_eq] | lia].
      * split; [lia | intros _ _; apply lookup_insert_eq].
    + split; [lia | done].
  - intros now store. unfold resetLoginAttempts.
    rewrite check_without_entry by apply lookup_delete_eq.
    f_equal. apply insert_delete_eq.
Qed.

Lemma login_backoff_witness :
  Z.min (2 ^ (Z.of_nat 3 - 2)) 1800 * 1000 <= 3000 - 1000.
Proof.
  destruct (login_backoff "10.0.0.1" "alice@example.com") as [Hgap _].
  apply (Hgap [0; 1000; 3000]
           (<[key_of "10.0.0.1" "alice@example.com"
                := {| count := 3; lastAttempt := 3000 |}]> ∅) 3%nat).
  - vm_compute. reflexivity.
  - simpl. lia.
  - lia.
  - reflexivity.
  - reflexivity.
Defined.

(** The bound of the specification, [min(2^(n-1), 1800)] seconds before
    call [n], fails for the second call: made one second after the
    first, it is admitted. *)
Lemma spec_backoff_counterexample :
  ~ (forall ip email times store' n a b,
       admitted_run ip email ∅ times = Some store' ->
       match times with [] => True | t :: rest => no_reset t rest end ->
       (2 <= n)%nat ->
       times !! (n - 2)%nat = Some a ->
       times !! (n - 1)%nat = Some b ->
       Z.min (2 ^ (Z.of_nat n - 1)) 1800 * 1000 <= b - a).
Proof.
  intros Hclaim.
  assert (Z.min (2 ^ (Z.of_nat 2 - 1)) 1800 * 1000 <= 1000 - 0) as Hle.
  { apply (Hclaim "10.0.0.1" "alice@example.com" [0; 1000]
             (<[key_of "10.0.0.1" "alice@example.com"
                  := {| count := 2; lastAttempt := 1000 |}]> ∅) 2%nat).
    - vm_compute. reflexivity.
    - simpl. lia.
    - lia.
    - reflexivity.
    - reflexivity. }
  vm_compute in Hle. by apply Hle.
Qed.

End LoginBackoff.

(** ** The generic fixed-window limiter *)

Section FixedWindow.
Import Js Api RateLimiter.

Lemma string_app_length (a b : string) :
  String.length (a +:+ b) = (String.length a + String.length b)%nat.
Proof. induction a as [|c a IH]; simpl; [done | by rewrite IH]. Qed.

Lemma string_app_inj_r (a b s : string) : a +:+ s = b +:+ s -> a = b.
Proof.
  revert b. induction a as [|c a IH]; intros [|d b] Heq.
  - done.
  - apply (f_equal String.length) in Heq.
    rewrite !string_app_length in Heq. simpl in Heq. lia.
  - apply (f_equal String.length) in Heq.
    rewrite !string_app_length in Heq. simpl in Heq. lia.
  - injection Heq as -> Heq. f_equal. by apply IH.
Qed.

Lemma string_app_inj_l (a x y : string) : a +:+ x = a +:+ y -> x = y.
Proof. induction a as [|c a IH]; [done|]. intros [= Heq]. by apply IH. Qed.

(** On one path, different requester addresses have different keys. *)
Lemma getRateLimitKey_ip_inj r1 r2 prefix :
  pathname r1 = pathname r2 ->
  getRateLimitKey r1 prefix = getRateLimitKey r2 prefix ->
  requester_ip (x_forwarded_for r1) = requester_ip (x_forwarded_for r2).
Proof.
  unfold getRateLimitKey. intros -> Heq.
  apply string_app_inj_l, string_app_inj_l in Heq.
  by apply string_app_inj_r in Heq.
Qed.

(** The answer depends on the store through the requester's entry
    only. *)
Lemma checkRateLimit_local now store1 store2 request config :
  store1 !! getRateLimitKey request "" = store2 !! getRateLimitKey request "" ->
  (checkRateLimit now store1 request config).1
  = (checkRateLimit now store2 request config).1.
Proof.
  intros Heq. unfold checkRateLimit. rewrite Heq.
  destruct (store2 !! getRateLimitKey request "") as [entry|]; [|done].
  by destruct (resetTime entry <? now).
Qed.

(** A call changes the requester's entry only. *)
Lemma checkRateLimit_frame now store request config key :
  key <> getRateLimitKey request "" ->
  (checkRateLimit now store request config).2 !! key = store !! key.
Proof.
  intros Hne. unfold checkRateLimit.
  destruct (store !! getRateLimitKey request "") as [entry|].
  - destruct (resetTime entry <? now); simpl; by rewrite lookup_insert_ne.
  - simpl. by rewrite lookup_insert_ne.
Qed.

Lemma serve_cons config store t request rest :
  serve config store ((t, request) :: rest)
  = ((checkRateLimit t store request config).1
       :: (serve config (checkRateLimit t store request config).2 rest).1,
     (serve config (checkRateLimit t store request config).2 rest).2).
Proof.
  cbn [serve]. destruct (checkRateLimit t store request config) as [r s1].
  cbn [fst snd]. by destruct (serve config s1 rest).
Qed.

Lemma serve_frame config request key times : forall store,
  key <> getRateLimitKey request "" ->
  (serve config store (map (fun t => (t, request)) times)).2 !! key
  = store !! key.
Proof.
  induction times as [|t times IH]; intros store Hne; [done|].
  cbn [map]. rewrite serve_cons. cbn [snd].
  rewrite IH by done. by apply checkRateLimit_frame.
Qed.

(** Requests that arrive while the requester's window is open only
    count up: the [i]-th of them (from 0) finds [c + i] requests
    counted. *)
Lemma serve_open_window config request R times : forall store c i t,
  store !! getRateLimitKey request "" = Some {| count := c; resetTime := R |} ->
  Forall (fun t => t <= R) times ->
  times !! i = Some t ->
  (serve config store (map (fun t => (t, request)) times)).1 !! i
  = Some {| allowed := c + Z.of_nat i + 1 <=? maxRequests config;
            remaining :=
              Z.max 0 (maxRequests config - (c + Z.of_nat i + 1));
            result_resetTime := R |}.
Proof.
  induction times as [|t0 times IH]; intros store c i t Hs Hall Hi; [done|].
  apply Forall_cons in Hall as [Ht0 Hall].
  cbn [map]. rewrite serve_cons. cbn [fst].
  assert (checkRateLimit t0 store request config
          = ({| allowed := c + 1 <=? maxRequests config;
                remaining := Z.max 0 (maxRequests config - (c + 1));
                result_resetTime := R |},
             <[getRateLimitKey request "" :=
                 {| count := c + 1; resetTime := R |}]> store)) as ->.
  { unfold checkRateLimit. rewrite Hs. cbn [resetTime count].
    by destruct (Z.ltb_spec R t0); [lia|]. }
  cbn [fst snd]. destruct i as [|i].
  - simpl. by rewrite Z.add_0_r.
  - rewrite lookup_cons.
    rewrite (IH _ (c + 1) i t (lookup_insert_eq _ _ _) Hall Hi).
    rewrite Nat2Z.inj_succ.
    by replace (c + Z.succ (Z.of_nat i)) with (c + 1 + Z.of_nat i) by lia.
Qed.

Lemma ceil_div_1000_pos x : 0 < x -> 0 < ceil_div_1000 x.
Proof.
  intros Hx. unfold ceil_div_1000.
  assert (- x / 1000 < 0); [|lia].
  apply Z.div_lt_upper_bound; lia.
Qed.

(** [ceil_div_1000 x] is the least integer that is at least [x/1000]. *)
Lemma ceil_div_1000_spec x :
  x <= 1000 * ceil_div_1000 x < x + 1000.
Proof.
  unfold ceil_div_1000.
  pose proof (Z.mod_pos_bound (- x) 1000 ltac:(lia)).
  pose proof (Z.div_mod (- x) 1000 ltac:(lia)). lia.
Qed.

Lemma checkRateLimit_fresh now store request config :
  (forall e, store !! getRateLimitKey request "" = Some e ->
             resetTime e < now) ->
  checkRateLimit now store request config
  = ({| allowed := true; remaining := maxRequests config - 1;
        result_resetTime := now + windowMs config |},
     <[getRateLimitKey request "" :=
         {| count := 1; resetTime := now + windowMs config |}]> store).
Proof.
  intros Hfresh. unfold checkRateLimit.
  destruct (store !! getRateLimitKey request "") as [e|]; [|done].
  specialize (Hfresh e eq_refl).
  by destruct (Z.ltb_spec (resetTime e) now); [|lia].
Qed.

End FixedWindow.

(** ** The fixed window on the register endpoint *)

Section RegisterWindow.
Context `{Externals}.
Import Js Api UserModel UserSchema Security Server RateLimiter.

(** What the limiter decides for a registration call: its entry is
    counted whatever the answer; a refused call gets the limiter's
    response and touches no account; an admitted call is never
    answered 429. *)
Lemma register_POST_limiter now salt freshId st request parsed :
  let verdict :=
    checkRateLimit now (rateLimitStore st) request rateLimitConfigs.auth in
  let out := RegisterRoute.POST now salt freshId st request parsed in
  rateLimitStore out.2 = verdict.2
  /\ (allowed verdict.1 = false ->
      out.1 = rateLimitResponse now (result_resetTime verdict.1)
      /\ users out.2 = users st)
  /\ (allowed verdict.1 = true -> status out.1 <> 429).
Proof.
  intros verdict out. subst verdict out. unfold RegisterRoute.POST.
  destruct (checkRateLimit now (rateLimitStore st) request
              rateLimitConfigs.auth) as [limit store].
  cbn [fst snd]. destruct (allowed limit); cbn [negb].
  2: { split; [done|]. split; [done|]. done. }
  assert (forall (r : NextResponse) (st' : State),
            rateLimitStore st' = store -> status r <> 429 ->
            rateLimitStore (r, st').2 = store
            /\ (true = false -> (r, st').1
                  = rateLimitResponse now (result_resetTime limit)
                  /\ users (r, st').2 = users st)
            /\ (true = true -> status (r, st').1 <> 429)) as Hok.
  { intros r st' Hs Hr. split; [done|]. split; [done|]. done. }
  destruct parsed as [[issues|]|data]; [by apply Hok | by apply Hok|].
  destruct (isValid _); cbn [negb]; [|by apply Hok].
  destruct (findOne _ _) as [existingUser|].
  - unfold RegisterRoute.existing_account.
    destruct (is_oauth_provider _ && negb _); [|by apply Hok].
    destruct (save _ _ _); by apply Hok.
  - destruct (save _ _ _); by apply Hok.
Qed.

Lemma register_run_cons st request now salt freshId parsed rest :
  RegisterRoute.run st request ((now, salt, freshId, parsed) :: rest)
  = ((RegisterRoute.POST now salt freshId st request parsed).1
       :: (RegisterRoute.run
             (RegisterRoute.POST now salt freshId st request parsed).2
             request rest).1,
     (RegisterRoute.run
        (RegisterRoute.POST now salt freshId st request parsed).2
        request rest).2).
Proof.
  cbn [RegisterRoute.run].
  destruct (RegisterRoute.POST now salt freshId st request parsed)
    as [r st'].
  cbn [fst snd]. by destruct (RegisterRoute.run st' request rest).
Qed.

(** A run of the handler counts its calls exactly as the limiter
    alone does, and answers 429 exactly where the limiter refuses. *)
Lemma register_run_limiter request calls : forall st,
  let served :=
    serve rateLimitConfigs.auth (rateLimitStore st)
      (map (fun t => (t, request)) (map RegisterRoute.call_time calls)) in
  let out := RegisterRoute.run st request calls in
  rateLimitStore out.2 = served.2
  /\ forall i call verdict,
       calls !! i = Some call ->
       served.1 !! i = Some verdict ->
       exists r,
         out.1 !! i = Some r
         /\ (allowed verdict = true -> status r <> 429)
         /\ (allowed verdict = false ->
             r = rateLimitResponse (RegisterRoute.call_time call)
                   (result_resetTime verdict)).
Proof.
  induction calls as [|[[[now salt] freshId] parsed] calls IH]; intros st.
  - split; [done|]. by intros i call verdict Hi.
  - cbn zeta. cbn [map]. rewrite register_run_cons, serve_cons.
    change (RegisterRoute.call_time (now, salt, freshId, parsed)) with now.
    destruct (register_POST_limiter now salt freshId st request parsed)
      as (Hstore & Hrefused & Hadmitted).
    cbn [fst snd].
    destruct (IH (RegisterRoute.POST now salt freshId st request parsed).2)
      as [IHstore IHanswers].
    rewrite Hstore in IHstore, IHanswers.
    split; [exact IHstore|].
    intros [|i] call verdict Hi Hv.
    + cbn in Hi, Hv. injection Hi as <-. injection Hv as <-.
      eexists. split; [reflexivity|]. split; [exact Hadmitted|].
      intros Hr. by destruct (Hrefused Hr).
    + rewrite lookup_cons in Hi. rewrite lookup_cons in Hv.
      rewrite lookup_cons.
      by apply IHanswers.
Qed.

(** C7. The fixed window guards the register endpoint (the login
    handler does not call it), with the configuration of the auth
    endpoints: 10 requests per 15 minutes.  Let a registration call
    open a requester's window at [t1] and be followed by ten more calls
    from the same address on the same path, whatever they carry, none
    later than the window's end.  The first ten are not answered 429;
    the eleventh is answered 429 with a Retry-After header that is the
    decimal rendering of the time left to the window's end, rounded up
    to whole seconds, which is positive when the call comes before that
    end and 0 at the end instant itself.  A call on the same path from
    another address gets the verdict of the limiter that it would have
    got without those eleven; it is not answered 429 when that address
    has no entry yet. *)
Theorem auth_window_eleventh_request
    (st : State) (request other : NextRequest)
    (first : Z * string * string * (Thrown + RegisterRoute.RegisterData))
    (later : list (Z * string * string
                   * (Thrown + RegisterRoute.RegisterData))) :
  let t1 := RegisterRoute.call_time first in
  (forall e, rateLimitStore st !! getRateLimitKey request "" = Some e ->
             resetTime e < t1) ->
  length later = 10%nat ->
  Forall (fun call => RegisterRoute.call_time call <= t1 + 900000) later ->
  let out := RegisterRoute.run st request (first :: later) in
  (forall i r, (i < 10)%nat -> out.1 !! i = Some r -> status r <> 429)
  /\ (exists eleventh,
        later !! 9%nat = Some eleventh
        /\ let wait := ceil_div_1000 (t1 + 900000 - RegisterRoute.call_time eleventh) in
           out.1 !! 10%nat
           = Some {| status := 429;
                     body :=
                       RateLimitBody
                         "Too many requests. Please try again later." wait;
                     headers := [("Retry-After", pretty wait)];
                     token_cookie := None |}
           /\ t1 + 900000 - RegisterRoute.call_time eleventh <= 1000 * wait
              < t1 + 900000 - RegisterRoute.call_time eleventh + 1000
           /\ (RegisterRoute.call_time eleventh < t1 + 900000 -> 0 < wait)
           /\ (RegisterRoute.call_time eleventh = t1 + 900000 -> wait = 0))
  /\ (forall t12 salt freshId parsed,
        pathname other = pathname request ->
        requester_ip (x_forwarded_for other)
          <> requester_ip (x_forwarded_for request) ->
        (checkRateLimit t12 (rateLimitStore out.2) other
           rateLimitConfigs.auth).1
          = (checkRateLimit t12 (rateLimitStore st) other
               rateLimitConfigs.auth).1
        /\ (rateLimitStore st !! getRateLimitKey other "" = None ->
            status
              (RegisterRoute.POST t12 salt freshId out.2 other parsed).1
            <> 429)).
Proof.
  intros t1 Hfresh Hlen Hall out.
  destruct (register_run_limiter request (first :: later) st)
    as [Hstore Hanswers]. fold out in Hstore, Hanswers.
  cbn [map] in Hstore, Hanswers. fold t1 in Hstore, Hanswers.
  rewrite serve_cons, (checkRateLimit_fresh _ _ _ _ Hfresh)
    in Hstore, Hanswers.
  cbn [fst snd] in Hstore, Hanswers.
  change (windowMs rateLimitConfigs.auth) with 900000 in Hstore, Hanswers.
  set (store1 := <[getRateLimitKey request "" :=
                     {| count := 1; resetTime := t1 + 900000 |}]>
                   (rateLimitStore st)) in *.
  assert (Forall (fun t => t <= t1 + 900000) (map RegisterRoute.call_time later)) as Hall'
    by (by apply Forall_map).
  assert (forall i call, later !! i = Some call ->
            (serve rateLimitConfigs.auth store1
               (map (fun t => (t, request)) (map RegisterRoute.call_time later))).1 !! i
            = Some {| allowed := 1 + Z.of_nat i + 1 <=? 10;
                      remaining := Z.max 0 (10 - (1 + Z.of_nat i + 1));
                      result_resetTime := t1 + 900000 |}) as Hserved.
  { intros i call Hi.
    apply (serve_open_window rateLimitConfigs.auth request (t1 + 900000)
             (map RegisterRoute.call_time later) store1 1 i (RegisterRoute.call_time call));
      [apply lookup_insert_eq | done |].
    by rewrite list_lookup_fmap, Hi. }
  split; [|split].
  - intros [|i] r Hi Hr.
    + destruct (Hanswers 0%nat first _ eq_refl eq_refl)
        as (r' & Hr' & Hok & _).
      rewrite Hr in Hr'. injection Hr' as <-. by apply Hok.
    + destruct (lookup_lt_is_Some_2 later i) as [call Hcall]; [lia|].
      destruct (Hanswers (S i) call _ Hcall (Hserved i call Hcall))
        as (r' & Hr' & Hok & _).
      rewrite Hr in Hr'. injection Hr' as <-. apply Hok.
      cbn [allowed]. apply Z.leb_le. lia.
  - destruct (lookup_lt_is_Some_2 later 9) as [eleventh He]; [lia|].
    exists eleventh. split; [done|]. cbn zeta.
    destruct (Hanswers 10%nat eleventh _ He (Hserved 9%nat eleventh He))
      as (r & Hr & _ & Hrefused).
    rewrite Hr, (Hrefused eq_refl). cbn [result_resetTime].
    split; [done|]. split; [apply ceil_div_1000_spec|]. split.
    + intros Hnow. apply ceil_div_1000_pos. lia.
    + intros ->. by rewrite Z.sub_diag.
  - intros t12 salt freshId parsed Hpath Hip.
    assert (getRateLimitKey other "" <> getRateLimitKey request "") as Hne.
    { intros Heq. apply Hip. by apply (getRateLimitKey_ip_inj _ _ ""). }
    assert (rateLimitStore out.2 !! getRateLimitKey other ""
            = rateLimitStore st !! getRateLimitKey other "") as Hsame.
    { rewrite Hstore, serve_frame by done. subst store1.
      by rewrite lookup_insert_ne. }
    pose proof (checkRateLimit_local t12 _ _ other rateLimitConfigs.auth
                  Hsame) as Hverdict.
    split; [exact Hverdict|]. intros Hnone.
    destruct (register_POST_limiter t12 salt freshId out.2 other parsed)
      as (_ & _ & Hadmitted).
    apply Hadmitted. rewrite Hverdict. unfold checkRateLimit.
    by rewrite Hnone.
Qed.

End RegisterWindow.

Lemma auth_window_eleventh_request_witness :
  let calls :=
    map (fun t => (t, "salt", "u3", inr Examples2.carol_registers))
      [0; 1000; 2000; 3000; 4000; 5000; 6000; 7000; 8000; 9000; 10000] in
  let out :=
    @RegisterRoute.run Examples.toy Examples.st0 Examples.register_request
      calls in
  (Api.status <$> out.1 !! 10%nat) = Some 429
  /\ (Api.headers <$> out.1 !! 10%nat) = Some [("Retry-After", "890")]
  /\ Api.status
       (@RegisterRoute.POST Examples.toy 11000 "salt" "u4" out.2
          (Examples.from_ip "10.0.0.3" "/api/auth/register")
          (inr Examples2.carol_registers)).1 <> 429.
Proof.
  intros calls out.
  destruct (@auth_window_eleventh_request Examples.toy Examples.st0
              Examples.register_request
              (Examples.from_ip "10.0.0.3" "/api/auth/register")
              (0, "salt", "u3", inr Examples2.carol_registers)
              (map (fun t => (t, "salt", "u3", inr Examples2.carol_registers))
                 [1000; 2000; 3000; 4000; 5000; 6000; 7000; 8000; 9000;
                  10000]))
    as (_ & (eleventh & He & Hr & _) & Hother).
  - intros e He. vm_compute in He. discriminate He.
  - reflexivity.
  - repeat constructor; vm_compute; discriminate.
  - injection He as <-. subst out calls.
    cbn [map] in Hr, Hother |- *.
    change (RegisterRoute.call_time
              (10000, "salt", "u3", inr Examples2.carol_registers))
      with 10000 in Hr.
    change (RegisterRoute.call_time
              (0, "salt", "u3", inr Examples2.carol_registers))
      with 0 in Hr.
    split; [by rewrite Hr|]. split; [by rewrite Hr|].
    apply (Hother 11000 "salt" "u4");
      [reflexivity | vm_compute; discriminate | vm_compute; reflexivity].
Defined.

(** The claim as the specification words it fails twice.  On the login
    endpoint the fixed window is not used at all: eleven logins from
    one address within ten seconds, each for another e-mail, are all
    let through by the login limiter, and the eleventh is answered 401
    without any header.  And on the register endpoint an eleventh call
    at the last instant of the window is refused with a Retry-After of
    0. *)
Lemma spec_login_window_counterexample :
  let logins :=
    map (fun '(t, mail) =>
           (t, Examples.login_request,
            {| LoginRoute.login_email := mail;
               LoginRoute.login_password := "guess-1" |}))
      [ (0, "a0@example.com"); (1000, "a1@example.com");
        (2000, "a2@example.com"); (3000, "a3@example.com");
        (4000, "a4@example.com"); (5000, "a5@example.com");
        (6000, "a6@example.com"); (7000, "a7@example.com");
        (8000, "a8@example.com"); (9000, "a9@example.com");
        (10000, "a10@example.com") ] in
  let registrations :=
    map (fun t => (t, "salt", "u3", inr Examples2.carol_registers))
      [0; 1; 2; 3; 4; 5; 6; 7; 8; 9; 900000] in
  ((fun r => (Api.status r, Api.headers r))
     <$> (@LoginRoute.run Examples.toy Examples.st0 logins).1 !! 10%nat)
  = Some (401, [])
  /\ ((fun r => (Api.status r, Api.headers r))
        <$> (@RegisterRoute.run Examples.toy Examples.st0
               Examples.register_request registrations).1 !! 10%nat)
     = Some (429, [("Retry-After", "0")]).
Proof. vm_compute. split; reflexivity. Qed.

(** ** The unified authenticator *)

Section Authenticator.
Context `{Externals}.
Import Js Api UserModel UserSchema AuthMiddleware.

Lemma startsWith_app prefix rest : startsWith (prefix +:+ rest) prefix = true.
Proof.
  induction prefix as [|c prefix IH]; [done|].
  change (String c prefix +:+ rest) with (String c (prefix +:+ rest)).
  cbn [startsWith]. by rewrite Ascii.eqb_refl, IH.
Qed.

Lemma startsWith_iff s prefix :
  startsWith s prefix = true <-> exists rest, s = prefix +:+ rest.
Proof.
  split; [|intros [rest ->]; apply startsWith_app].
  revert s. induction prefix as [|c prefix IH]; intros s Hs.
  - by exists s.
  - destruct s as [|d s]; [done|]. cbn [startsWith] in Hs.
    apply andb_true_iff in Hs as [Hc Hs]. apply Ascii.eqb_eq in Hc as <-.
    destruct (IH s Hs) as [rest ->]. by exists rest.
Qed.

(** The header wins over the cookie, and what follows [Bearer ] is the
    token. *)
Lemma getTokenFromRequest_bearer request token :
  authorization request = Some ("Bearer " +:+ token) ->
  getTokenFromRequest request = Some token.
Proof.
  unfold getTokenFromRequest. intros ->.
  by rewrite (startsWith_app "Bearer " token).
Qed.

Lemma getTokenFromRequest_cookie request :
  (forall token, authorization request <> Some ("Bearer " +:+ token)) ->
  getTokenFromRequest request
  = if truthy (cookie_token request) then cookie_token request else None.
Proof.
  unfold getTokenFromRequest, cookie_value. intros Hh.
  destruct (authorization request) as [authHeader|]; [|done].
  destruct (startsWith authHeader "Bearer ") eqn:E; [|done].
  apply startsWith_iff in E as [token ->]. by destruct (Hh token).
Qed.

(** When the session step yields a principal. *)
Lemma session_principal_Some users nextAuth principal :
  session_principal users nextAuth = Some principal
  <-> exists token mail dbUser,
        nextAuth = getToken_returns (Some token)
        /\ session_email token = Some mail /\ mail <> EmptyString
        /\ users !! toLowerCase (trim mail) = Some dbUser
        /\ principal
           = {| userId := _id dbUser; payload_email := email dbUser |}.
Proof.
  unfold session_principal, findOne, email_setters. split.
  - destruct nextAuth as [|[[[mail|]]|]]; try done. simpl.
    destruct (String.eqb_spec mail ""); [done|]. simpl.
    destruct (users !! toLowerCase (trim mail)) as [dbUser|] eqn:E; [|done].
    simpl. destruct (hydrate_fields dbUser) as (-> & -> & _).
    intros [= <-]. by exists {| session_email := Some mail |}, mail, dbUser.
  - intros (token & mail & dbUser & -> & Hm & Hne & Hu & ->).
    destruct token as [m]. simpl in Hm. subst m. simpl.
    destruct (String.eqb_spec mail ""); [done|]. simpl. rewrite Hu. simpl.
    by destruct (hydrate_fields dbUser) as (-> & -> & _).
Qed.

(** The legacy step on the token it extracted. *)
Lemma legacy_principal_token now request token :
  getTokenFromRequest request = Some token ->
  legacy_principal now request
  = if String.eqb token "" then
      {| user := None; error := Some "No authentication token provided" |}
    else
      match verifyToken now token with
      | Some (uid, mail) =>
          {| user := Some {| userId := uid; payload_email := mail |};
             error := None |}
      | None => {| user := None; error := Some "Invalid or expired token" |}
      end.
Proof. unfold legacy_principal. by intros ->. Qed.

(** C2. The authenticator tries the session artifact first: when
    [getToken] returns a token whose e-mail claim is set and, lower-cased
    and trimmed as the lookup does, is the e-mail of a stored account,
    the principal is built from the stored record and no error is
    reported.  In every other case the answer is that of the legacy
    step alone: when the authorization header is [Bearer ] followed by
    a text, that text is the token, whatever the cookie holds;
    otherwise the token is the value of the [token] cookie.  A token
    that is missing or empty gives a null principal with the reason
    that no token was provided, one that does not verify a null
    principal with the reason that it is invalid or expired, and one
    that verifies gives its principal and no error.  So a null
    principal always comes with a reason. *)
Theorem authenticateRequest_order (now : Z) (users : gmap string IUser)
    (nextAuth : GetToken) (request : NextRequest) :
  let r := authenticateRequest now users nextAuth request in
  let verdict (token : string) :=
    if String.eqb token "" then
      {| user := None; error := Some "No authentication token provided" |}
    else
      match verifyToken now token with
      | Some (uid, mail) =>
          {| user := Some {| userId := uid; payload_email := mail |};
             error := None |}
      | None => {| user := None; error := Some "Invalid or expired token" |}
      end in
  (forall token mail dbUser,
      nextAuth = getToken_returns (Some token) ->
      session_email token = Some mail -> mail <> EmptyString ->
      users !! toLowerCase (trim mail) = Some dbUser ->
      r = {| user := Some {| userId := _id dbUser;
                             payload_email := email dbUser |};
             error := None |})
  /\ (~ (exists token mail dbUser,
          nextAuth = getToken_returns (Some token)
          /\ session_email token = Some mail /\ mail <> EmptyString
          /\ users !! toLowerCase (trim mail) = Some dbUser) ->
      (forall token,
          authorization request = Some ("Bearer " +:+ token) ->
          r = verdict token)
      /\ ((forall token,
             authorization request <> Some ("Bearer " +:+ token)) ->
          r = verdict (default EmptyString (cookie_token request))))
  /\ (user r = None -> exists reason, error r = Some reason)
  /\ (forall principal, user r = Some principal -> error r = None).
Proof.
  intros r verdict.
  assert (forall token, getTokenFromRequest request = Some token ->
            legacy_principal now request = verdict token) as Hlegacy
    by (intros token Ht; by rewrite (legacy_principal_token _ _ _ Ht)).
  assert ((forall token,
             authorization request <> Some ("Bearer " +:+ token)) ->
          legacy_principal now request
          = verdict (default EmptyString (cookie_token request))) as Hcookie.
  { intros Hh. pose proof (getTokenFromRequest_cookie request Hh) as Hc.
    destruct (cookie_token request) as [value|] eqn:Ev.
    - cbn [truthy default] in Hc |- *.
      destruct (String.eqb_spec value "") as [->|Hne].
      + cbn [negb] in Hc. unfold legacy_principal. by rewrite Hc.
      + cbn [negb] in Hc. by apply Hlegacy.
    - cbn [truthy default] in Hc |- *. unfold legacy_principal.
      by rewrite Hc. }
  assert (forall token,
            (user (verdict token) = None ->
             exists reason, error (verdict token) = Some reason)
            /\ (forall principal, user (verdict token) = Some principal ->
                  error (verdict token) = None)) as Hverdict.
  { intros token. subst verdict. cbn beta.
    destruct (String.eqb token ""); [split; [eauto | done]|].
    destruct (verifyToken now token) as [[uid mail]|];
      split; try done; eauto. }
  assert (exists token, legacy_principal now request = verdict token)
    as [legacy Hl].
  { destruct (getTokenFromRequest request) as [token|] eqn:Et.
    - exists token. by apply Hlegacy.
    - exists EmptyString. unfold legacy_principal. by rewrite Et. }
  subst r. unfold authenticateRequest.
  destruct (session_principal users nextAuth) as [principal|] eqn:E.
  - apply session_principal_Some in E
      as (token & mail & dbUser & Hn & Hm & Hne & Hu & ->).
    split; [|split; [|split; [done | done]]].
    + intros token' mail' dbUser' Hn' Hm' _ Hu'.
      rewrite Hn in Hn'. injection Hn' as <-.
      rewrite Hm in Hm'. injection Hm' as <-.
      rewrite Hu in Hu'. by injection Hu' as <-.
    + intros Hnone. exfalso. apply Hnone. by exists token, mail, dbUser.
  - split; [|split].
    + intros token mail dbUser Hn Hm Hne Hu.
      assert (session_principal users nextAuth
              = Some {| userId := _id dbUser;
                        payload_email := email dbUser |}) as E'
        by (apply session_principal_Some; by exists token, mail, dbUser).
      by rewrite E in E'.
    + intros _. split.
      * intros token Ht. by apply Hlegacy, getTokenFromRequest_bearer.
      * exact Hcookie.
    + rewrite Hl. apply Hverdict.
Qed.

End Authenticator.

Lemma authenticateRequest_order_witness :
  AuthMiddleware.authenticateRequest (H := Examples.toy) 0
    (Server.users Examples.st0)
    (AuthMiddleware.getToken_returns
       (Some {| AuthMiddleware.session_email := Some " Bob@Example.com" |}))
    {| Api.x_forwarded_for := None;
       Api.authorization := Some "Bearer u1|alice@example.com";
       Api.cookie_token := None; Api.pathname := "/api/tasks" |}
  = {| AuthMiddleware.user :=
         Some {| AuthMiddleware.userId := "u2";
                 AuthMiddleware.payload_email := "bob@example.com" |};
       AuthMiddleware.error := None |}
  /\ AuthMiddleware.authenticateRequest (H := Examples.toy) 0
       (Server.users Examples.st0)
       (AuthMiddleware.getToken_returns None)
       {| Api.x_forwarded_for := None;
          Api.authorization := Some "Bearer u1|alice@example.com";
          Api.cookie_token := Some "some-other-token";
          Api.pathname := "/api/tasks" |}
     = {| AuthMiddleware.user :=
            Some {| AuthMiddleware.userId := "u1";
                    AuthMiddleware.payload_email := "alice@example.com" |};
          AuthMiddleware.error := None |}.
Proof.
  split.
  - apply (proj1 (authenticateRequest_order (H := Examples.toy) 0
                    (Server.users Examples.st0) _ _)
             {| AuthMiddleware.session_email := Some " Bob@Example.com" |}
             " Bob@Example.com" Examples.bob).
    + reflexivity.
    + reflexivity.
    + discriminate.
    + vm_compute. reflexivity.
  - destruct (proj1 (proj2 (authenticateRequest_order (H := Examples.toy) 0
                              (Server.users Examples.st0)
                              (AuthMiddleware.getToken_returns None)
                              {| Api.x_forwarded_for := None;
                                 Api.authorization :=
                                   Some "Bearer u1|alice@example.com";
                                 Api.cookie_token := Some "some-other-token";
                                 Api.pathname := "/api/tasks" |})))
      as [Hbearer _].
    + intros (token & mail & dbUser & Hn & _). discriminate Hn.
    + rewrite (Hbearer "u1|alice@example.com" eq_refl).
      vm_compute. reflexivity.
Defined.

(** ** The request-boundary middleware *)

Section BoundaryGuard.
Import Js Api Middleware.

Lemma dashboard_not_auth_path p :
  startsWith p "/dashboard" = true ->
  existsb (fun path => startsWith p path) authPaths = false.
Proof.
  unfold authPaths. cbn [existsb].
  destruct p as [|c0 [|c1 p]]; cbn [startsWith].
  - done.
  - by rewrite andb_false_r.
  - destruct (Ascii.eqb "/" c0); [|done]. cbn [andb].
    destruct (Ascii.eqb_spec "d" c1) as [<-|]; [|done].
    intros _. reflexivity.
Qed.

(** C10. The middleware counts a request as authenticated as soon as
    its [token] cookie is a non-empty string, without looking into it:
    whatever the cookie says and whether or not a session token
    decoded, a request for a protected path goes on (it is not sent to
    the login page) and a request for an auth-entry path is sent to the
    dashboard. *)
Theorem middleware_trusts_token_cookie
    (token : option AuthMiddleware.SessionToken) (request : NextRequest)
    (value : string) :
  cookie_token request = Some value ->
  value <> EmptyString ->
  (forall session, isAuthenticated (Some session) request = true)
  /\ isAuthenticated token request = true
  /\ (existsb (fun path => startsWith (pathname request) path)
        protectedPaths = true ->
      middleware token request = next securityHeaders)
  /\ (existsb (fun path => startsWith (pathname request) path)
        authPaths = true ->
      middleware token request = redirect "/dashboard" None).
Proof.
  intros Hc Hne.
  assert (isAuthenticated token request = true) as Hauth.
  { unfold isAuthenticated. destruct token; [done|]. rewrite Hc. simpl.
    by destruct (String.eqb_spec value ""). }
  split; [done|]. split; [done|]. unfold middleware. rewrite Hauth. split.
  - intros Hp. rewrite Hp. cbn [negb andb].
    unfold protectedPaths in Hp. cbn [existsb] in Hp.
    rewrite orb_false_r in Hp.
    by rewrite (dashboard_not_auth_path _ Hp).
  - intros Ha. rewrite Ha. by rewrite andb_false_r.
Qed.

Lemma middleware_trusts_token_cookie_witness :
  middleware None
    {| x_forwarded_for := None; authorization := None;
       cookie_token := Some "not-a-jwt"; pathname := "/dashboard/settings" |}
  = next securityHeaders.
Proof.
  apply (middleware_trusts_token_cookie None _ "not-a-jwt");
    [reflexivity | discriminate | reflexivity].
Defined.

End BoundaryGuard.

(** ** The legacy token *)

Section TokenRoundTrip.
Context `{Jwt.Scheme}.
Import Jwt.

(** The two properties of a signing scheme that the round trip rests
    on: parsing undoes serializing, and under the secret no two
    payloads share a signature (the signature is taken as ideal). *)
Hypothesis parse_serialize : forall claims, parse (serialize claims) = Some claims.
Hypothesis mac_collision_free :
  forall m1 m2, mac secret m1 = mac secret m2 -> m1 = m2.

Lemma flip_bit_changes i bits :
  (i < length bits)%nat -> flip_bit i bits <> bits.
Proof.
  revert i. induction bits as [|b bits IH]; intros i Hi; simpl in Hi; [lia|].
  destruct i as [|i]; simpl.
  - intros [= Hb]. by destruct b.
  - intros [= Hb]. apply (IH i); [lia | done].
Qed.

Lemma flip_bit_length i bits : length (flip_bit i bits) = length bits.
Proof.
  revert i. induction bits as [|b bits IH]; intros [|i]; simpl; try done.
  by rewrite IH.
Qed.

(** Exactly the bit at position [i] differs. *)
Lemma flip_bit_lookup i j bits :
  flip_bit i bits !! j
  = if decide (i = j) then negb <$> bits !! j else bits !! j.
Proof.
  revert i j. induction bits as [|b bits IH]; intros i j.
  - simpl. by destruct (decide (i = j)), i.
  - destruct i as [|i], j as [|j]; simpl; try done.
    rewrite IH. by destruct (decide (i = j)), (decide (S i = S j)); try lia.
Qed.

Lemma verifyToken_generateToken now t userId email :
  verifyToken t (generateToken now userId email)
  = if now + EXPIRY <? t then None else Some (userId, email).
Proof.
  unfold verifyToken, generateToken. cbn [signed signature].
  rewrite bool_decide_eq_true_2 by done.
  rewrite parse_serialize. done.
Qed.

(** C8. A token issued for a user id and an e-mail verifies to that
    pair at every instant before its expiry, seven days after issue;
    it is invalid at every instant after the expiry; and a token that
    differs from it in one bit of the signed payload is invalid at
    every instant. *)
Theorem token_round_trip (now : Z) (userId email : string) :
  let token := generateToken now userId email in
  EXPIRY = 604800000
  /\ (forall t, t < now + EXPIRY ->
        verifyToken t token = Some (userId, email))
  /\ (forall t, now + EXPIRY < t -> verifyToken t token = None)
  /\ (forall t i, (i < length (signed token))%nat ->
        verifyToken t (mutate i token) = None).
Proof.
  intros token. subst token. split; [done|]. split; [|split].
  - intros t Ht. rewrite verifyToken_generateToken.
    by destruct (Z.ltb_spec (now + EXPIRY) t); [lia|].
  - intros t Ht. rewrite verifyToken_generateToken.
    by destruct (Z.ltb_spec (now + EXPIRY) t); [|lia].
  - intros t i Hi. unfold verifyToken, mutate. cbn [signed signature].
    rewrite bool_decide_eq_false_2; [done|].
    intros Heq. apply mac_collision_free in Heq.
    by apply flip_bit_changes in Heq.
Qed.

End TokenRoundTrip.

Lemma pos_of_bits_of_pos p : Examples.pos_of_bits (Examples.bits_of_pos p) = p.
Proof. induction p as [p IH|p IH|]; simpl; by rewrite ?IH. Qed.

Lemma token_round_trip_witness :
  Jwt.verifyToken (H := Examples.toy_scheme) 1000
    (Jwt.generateToken (H := Examples.toy_scheme) 0 "u1" "alice@example.com")
  = Some ("u1", "alice@example.com").
Proof.
  apply (token_round_trip (H := Examples.toy_scheme)).
  - intros [uid mail issued expires]. cbn.
    rewrite pos_of_bits_of_pos, decode_encode. done.
  - intros m1 m2. cbn. by intros [= ->].
  - reflexivity.
Defined.

(** * Further properties of the modelled code *)

(** ** The login handler beyond the lockout path *)

Section LoginHandler.
Context `{Externals}.
Import Js Api UserModel Security Server LoginRoute.

(** The record that [attempt] leaves behind has the identity, the
    password and the provider of the record it was given. *)
Lemma attempt_keeps_identity now u candidate :
  let u' := (attempt now u candidate).1.2 in
  _id u' = _id u /\ email u' = email u
  /\ password u' = password u /\ provider u' = provider u.
Proof.
  unfold attempt.
  destruct (negb (truthy (password u)) && is_oauth_provider (provider u));
    [done|].
  destruct (isLocked now u); [done|].
  destruct (comparePassword u candidate); cbn [fst snd negb].
  - done.
  - apply incrementLoginAttempts_identity.
Qed.

Lemma attempt_oauth now u candidate :
  truthy (password u) = false ->
  is_oauth_provider (provider u) = true ->
  attempt now u candidate
  = (errorResponse (msg_oauth (provider u)) HttpStatus.UNAUTHORIZED
       ErrorCode.AUTHENTICATION_ERROR None, u, false).
Proof. unfold attempt. by intros -> ->. Qed.

(** What [POST] does to the user collection, case by case. *)
Lemma POST_users now st request parsed :
  users (POST now st request parsed).2 = users st
  \/ exists data u,
       parsed = inr data
       /\ users st !! sanitizeEmail (login_email data) = Some u
       /\ users (POST now st request parsed).2
          = <[sanitizeEmail (login_email data) :=
                (attempt now u (login_password data)).1.2]> (users st).
Proof.
  destruct parsed as [[issues|]|data]; [by left | by left |].
  destruct (users st !! sanitizeEmail (login_email data)) as [u|] eqn:Hu.
  - destruct (POST_found now st request data u Hu) as [Hd Ha].
    destruct (LoginLimiter.allowed _) eqn:E.
    + right. exists data, u. by destruct (Ha eq_refl).
    + left. by destruct (Hd eq_refl).
  - left. unfold POST.
    destruct (LoginLimiter.checkLoginRateLimit _ _ _ _) as [limit attempts].
    cbn [users]. rewrite Hu. by destruct (negb (LoginLimiter.allowed limit)).
Qed.

(** X1. A login call writes at most the record stored under the
    sanitized e-mail it names: it never adds or removes an account,
    leaves every other account as it is, keeps the identity, e-mail,
    password and provider of the one it touches, and never touches the
    store of the generic limiter. *)
Theorem login_touches_one_account (now : Z) (st : State)
    (request : NextRequest) (parsed : Thrown + LoginData) :
  let out := POST now st request parsed in
  (forall k, is_Some (users out.2 !! k) <-> is_Some (users st !! k))
  /\ (forall k u, users st !! k = Some u ->
        exists u', users out.2 !! k = Some u'
          /\ _id u' = _id u /\ email u' = email u
          /\ password u' = password u /\ provider u' = provider u
          /\ (match parsed with
              | inr data => k <> sanitizeEmail (login_email data)
              | inl _ => True
              end -> u' = u))
  /\ rateLimitStore out.2 = rateLimitStore st.
Proof.
  intros out. subst out.
  destruct (POST_users now st request parsed)
    as [Hsame | (data & u0 & -> & Hu0 & Hins)].
  - split; [by rewrite Hsame|]. split.
    + intros k u Hk. exists u. by rewrite Hsame.
    + destruct parsed as [[issues|]|data]; [done | done |]. unfold POST.
      destruct (LoginLimiter.checkLoginRateLimit _ _ _ _) as [limit attempts].
      destruct (negb (LoginLimiter.allowed limit)); [done|]. cbn [users].
      destruct (users st !! sanitizeEmail (login_email data)) as [u1|];
        [|done].
      by destruct (attempt now u1 (login_password data)) as [[r u'] ok].
  - split; [|split].
    + intros k. rewrite Hins.
      destruct (decide (sanitizeEmail (login_email data) = k)) as [<-|Hne].
      * rewrite lookup_insert_eq, Hu0. split; eauto.
      * by rewrite lookup_insert_ne.
    + intros k u Hk. rewrite Hins.
      destruct (decide (sanitizeEmail (login_email data) = k)) as [<-|Hne].
      * rewrite lookup_insert_eq. eexists. split; [done|].
        rewrite Hu0 in Hk. injection Hk as <-.
        destruct (attempt_keeps_identity now u0 (login_password data))
          as (? & ? & ? & ?). repeat split; done.
      * rewrite lookup_insert_ne by done. exists u. repeat split; done.
    + unfold POST.
      destruct (LoginLimiter.checkLoginRateLimit _ _ _ _) as [limit attempts].
      destruct (negb (LoginLimiter.allowed limit)); [done|]. cbn [users].
      rewrite Hu0.
      by destruct (attempt now u0 (login_password data)) as [[r u'] ok].
Qed.

(** X2. An account that was created through Google or GitHub and has
    no password cannot be locked out, or changed at all, through the
    login handler: whatever calls are made, its stored record stays the
    same. *)
Theorem oauth_account_untouched_by_logins (e : string) (u : IUser)
    (calls : list (Z * NextRequest * LoginData)) (st : State) :
  users st !! e = Some u ->
  truthy (password u) = false ->
  is_oauth_provider (provider u) = true ->
  users (run st calls).2 !! e = Some u.
Proof.
  revert st. induction calls as [|[[now request] data] calls IH];
    intros st Hu Hp Ho; [done|].
  rewrite run_cons. cbn [snd]. apply IH; [|done|done].
  destruct (POST_users now st request (inr data))
    as [-> | (data' & u0 & [= <-] & Hu0 & ->)]; [done|].
  destruct (decide (sanitizeEmail (login_email data) = e)) as [<-|Hne].
  - rewrite lookup_insert_eq. rewrite Hu in Hu0. injection Hu0 as <-.
    by rewrite attempt_oauth.
  - by rewrite lookup_insert_ne.
Qed.

Lemma comparePassword_true_truthy u candidate :
  comparePassword u candidate = true -> truthy (password u) = true.
Proof.
  unfold comparePassword, truthy. destruct (password u) as [h|]; [|done].
  by destruct (String.eqb h "").
Qed.

(** The limiter map after [POST] on a well-formed body. *)
Lemma POST_limiter now st request data :
  let e := sanitizeEmail (login_email data) in
  let ip := requester_ip (x_forwarded_for request) in
  let limit := LoginLimiter.checkLoginRateLimit now (loginAttemptsMap st) ip e in
  let out := POST now st request (inr data) in
  loginAttemptsMap out.2
  = match users st !! e with
    | Some u =>
        if LoginLimiter.allowed limit.1
             && (attempt now u (login_password data)).2
        then LoginLimiter.resetLoginAttempts limit.2 ip e
        else limit.2
    | None => limit.2
    end.
Proof.
  intros e ip limit out. subst out limit. unfold POST. fold ip. fold e.
  destruct (LoginLimiter.checkLoginRateLimit now (loginAttemptsMap st) ip e)
    as [limit attempts]. cbn [fst snd users loginAttemptsMap].
  destruct (LoginLimiter.allowed limit); cbn [negb andb].
  - destruct (users st !! e) as [u|]; [|done].
    by destruct (attempt now u (login_password data)) as [[r u'] []].
  - by destruct (users st !! e).
Qed.

(** X3. A login that the limiter admits, for an unlocked account and
    with the password that the stored hash accepts, is answered 200
    with a token for the account, in the body and in the cookie; the
    stored record gets a zero counter, no lock and the login time; and
    the limiter entry of the (ip, e-mail) pair is deleted, so the next
    login from that address for that e-mail is admitted at once,
    whenever it comes. *)
Theorem login_success_resets (now : Z) (st : State) (request : NextRequest)
    (data : LoginData) (u : IUser) :
  let e := sanitizeEmail (login_email data) in
  let ip := requester_ip (x_forwarded_for request) in
  users st !! e = Some u ->
  LoginLimiter.allowed
    (LoginLimiter.checkLoginRateLimit now (loginAttemptsMap st) ip e).1
    = true ->
  isLocked now u = false ->
  comparePassword u (login_password data) = true ->
  let out := POST now st request (inr data) in
  let token := generateToken now (_id u) (email u) in
  status out.1 = 200
  /\ body out.1 = SuccessBody (view_of u) token "Login successful"
  /\ token_cookie out.1 = Some token
  /\ users out.2 !! e = Some (resetLoginAttempts now u)
  /\ loginAttemptsMap out.2 !! LoginLimiter.key_of ip e = None
  /\ forall later,
       (LoginLimiter.checkLoginRateLimit later (loginAttemptsMap out.2)
          ip e).1
       = {| LoginLimiter.allowed := true; LoginLimiter.waitTime := 0 |}.
Proof.
  intros e ip Hu Hadm Hlock Hcmp out token.
  assert (attempt now u (login_password data)
          = (set_token_cookie token
               (successResponse (view_of u) token "Login successful"
                  HttpStatus.OK),
             resetLoginAttempts now u, true)) as Hatt.
  { unfold attempt.
    rewrite (comparePassword_true_truthy _ _ Hcmp), Hlock, Hcmp. done. }
  destruct (POST_found now st request data u Hu) as [_ Ha].
  destruct (Ha Hadm) as [Hr Hst]. rewrite Hatt in Hr, Hst.
  cbn [fst snd] in Hr, Hst.
  pose proof (POST_limiter now st request data) as Hlim.
  cbv zeta in Hlim. fold e ip in Hlim. rewrite Hu, Hadm, Hatt in Hlim.
  cbn [snd andb] in Hlim. subst out. rewrite Hr, Hst, Hlim.
  split; [done|]. split; [done|]. split; [done|].
  split; [apply lookup_insert_eq|].
  assert (LoginLimiter.resetLoginAttempts
            (LoginLimiter.checkLoginRateLimit now (loginAttemptsMap st) ip e).2
            ip e !! LoginLimiter.key_of ip e = None) as Hnone
    by apply lookup_delete_eq.
  split; [done|]. intros later.
  by rewrite (check_without_entry _ _ _ _ Hnone).
Qed.

(** X4. Among the logins that the limiter admits, one for an e-mail
    that has no account and one with a wrong password for an unlocked
    account that has a password get the same answer, 401 with the same
    message and code; the first changes no record. *)
Theorem login_unknown_email_same_answer (now : Z) (st : State)
    (request : NextRequest) (data : LoginData) :
  let e := sanitizeEmail (login_email data) in
  let ip := requester_ip (x_forwarded_for request) in
  LoginLimiter.allowed
    (LoginLimiter.checkLoginRateLimit now (loginAttemptsMap st) ip e).1
    = true ->
  let out := POST now st request (inr data) in
  (users st !! e = None ->
     out.1 = invalid_credentials /\ users out.2 = users st)
  /\ (forall u,
        users st !! e = Some u ->
        truthy (password u) = true ->
        isLocked now u = false ->
        comparePassword u (login_password data) = false ->
        out.1 = invalid_credentials)
  /\ status invalid_credentials = 401.
Proof.
  intros e ip Hadm out. split; [|split; [|done]].
  - intros Hnone. subst out. unfold POST. fold ip. fold e.
    destruct (LoginLimiter.checkLoginRateLimit now (loginAttemptsMap st) ip e)
      as [limit attempts]. cbn [fst] in Hadm. rewrite Hadm. cbn [negb users].
    by rewrite Hnone.
  - intros u Hu Hp Hl Hc.
    destruct (POST_found now st request data u Hu) as [_ Ha].
    destruct (Ha Hadm) as [Hr _]. subst out. rewrite Hr.
    unfold attempt. by rewrite Hp, Hl, Hc.
Qed.

End LoginHandler.

Lemma oauth_account_untouched_by_logins_witness :
  Server.users
    (@LoginRoute.run Examples.toy Examples.st0
       [(0, Examples.login_request,
         {| LoginRoute.login_email := "bob@example.com";
            LoginRoute.login_password := "guess-1" |});
        (5000, Examples.login_request, Examples.wrong)]).2
    !! "bob@example.com" = Some Examples.bob.
Proof.
  apply (@oauth_account_untouched_by_logins Examples.toy);
    [vm_compute; reflexivity | reflexivity | reflexivity].
Defined.

Lemma login_success_resets_witness :
  let out :=
    @LoginRoute.POST Examples.toy 0 Examples.st0 Examples.login_request
      (inr Examples.right) in
  Api.status out.1 = 200
  /\ (UserModel.lastLogin <$> Server.users out.2 !! "alice@example.com")
     = Some (Some 0).
Proof.
  intros out.
  destruct (@login_success_resets Examples.toy 0 Examples.st0
              Examples.login_request Examples.right Examples.alice)
    as (Hs & _ & _ & Hu & _).
  - vm_compute. reflexivity.
  - vm_compute. reflexivity.
  - reflexivity.
  - vm_compute. reflexivity.
  - split; [exact Hs|].
    change (Security.sanitizeEmail (LoginRoute.login_email Examples.right))
      with "alice@example.com" in Hu.
    subst out. rewrite Hu. reflexivity.
Defined.

Lemma login_unknown_email_same_answer_witness :
  (@LoginRoute.POST Examples.toy 0 Examples.st0 Examples.login_request
     (inr {| LoginRoute.login_email := "nobody@example.com";
             LoginRoute.login_password := "guess-1" |})).1
  = (@LoginRoute.POST Examples.toy 0 Examples.st0 Examples.login_request
       (inr Examples.wrong)).1.
Proof.
  destruct (@login_unknown_email_same_answer Examples.toy 0 Examples.st0
              Examples.login_request
              {| LoginRoute.login_email := "nobody@example.com";
                 LoginRoute.login_password := "guess-1" |})
    as ([-> _] & _ & _); [vm_compute; reflexivity | vm_compute; reflexivity |].
  destruct (@login_unknown_email_same_answer Examples.toy 0 Examples.st0
              Examples.login_request Examples.wrong)
    as (_ & Hwrong & _); [vm_compute; reflexivity |].
  symmetry. apply (Hwrong Examples.alice); vm_compute; reflexivity.
Defined.

(** ** The lockout fields over the life of an account *)

Section LockoutLife.
Import UserModel AccountRuns.

(** X5. In every account state that the application produces, a
    counter that has reached the threshold of five comes with a stored
    lock time. *)
Theorem counter_at_threshold_has_lock (u : IUser) :
  reachable u ->
  MAX_LOGIN_ATTEMPTS <= loginAttempts u ->
  exists t, lockUntil u = Some t.
Proof.
  induction 1 as [| now u _ IH | now u _ _ | u v _ IH [Ha Hl]].
  - done.
  - destruct (lockExpired now u) eqn:E.
    + rewrite (proj1 (incrementLoginAttempts_expired _ _ E)). done.
    + rewrite (incrementLoginAttempts_counter _ _ E),
        (incrementLoginAttempts_lock _ _ E).
      intros Hge. destruct (Z.leb_spec MAX_LOGIN_ATTEMPTS (loginAttempts u + 1));
        [|lia]. cbn [andb].
      destruct (isLocked now u) eqn:Hl; cbn [negb]; [|eauto].
      apply isLocked_true_iff in Hl as (t & Ht & _). eauto.
  - done.
  - rewrite <- Ha, <- Hl. done.
Qed.

Lemma counter_at_threshold_has_lock_witness :
  exists t,
    lockUntil
      (failures [10; 20; 30; 40; 50]
         (newUser "1" "a@b.co" (Some "h") "A" "B" "" (Some credentials)
            None false)) = Some t.
Proof.
  apply counter_at_threshold_has_lock.
  - repeat apply reach_increment. apply reach_new.
  - vm_compute. discriminate.
Defined.

Lemma failures_snoc times now u :
  failures (times ++ [now]) u = incrementLoginAttempts now (failures times u).
Proof. unfold failures. by rewrite fold_left_app. Qed.

(** Without a stored lock, failures below the threshold only count. *)
Lemma failures_below times : forall u,
  lockUntil u = None ->
  loginAttempts u + Z.of_nat (length times) < MAX_LOGIN_ATTEMPTS ->
  loginAttempts (failures times u) = loginAttempts u + Z.of_nat (length times)
  /\ lockUntil (failures times u) = None.
Proof.
  induction times as [|now times IH]; intros u Hl Hn.
  - cbn. by rewrite Z.add_0_r.
  - rewrite length_cons, Nat2Z.inj_succ in Hn |- *.
    assert (lockExpired now u = false) as Hexp
      by (unfold lockExpired; by rewrite Hl).
    change (failures (now :: times) u)
      with (failures times (incrementLoginAttempts now u)).
    destruct (IH (incrementLoginAttempts now u)) as [Hc Hk].
    + rewrite (incrementLoginAttempts_lock _ _ Hexp).
      by destruct (Z.leb_spec MAX_LOGIN_ATTEMPTS (loginAttempts u + 1));
        [lia|].
    + rewrite (incrementLoginAttempts_counter _ _ Hexp). lia.
    + rewrite Hc, Hk, (incrementLoginAttempts_counter _ _ Hexp).
      split; [lia | done].
Qed.

(** X6. Once a lock has expired the count starts again, whatever the
    counter had reached: the first failed verification after the expiry
    sets the counter to 1 and removes the lock, the account stays
    unlocked through the fourth, and the fifth locks it for two hours
    from its own instant. *)
Theorem lock_expiry_restarts_count (u : IUser) (expiry first : Z)
    (more : list Z) (fifth : Z) :
  lockUntil u = Some expiry ->
  expiry < first ->
  length more = 3%nat ->
  (forall k, (k <= 3)%nat ->
     loginAttempts (failures (first :: take k more) u) = 1 + Z.of_nat k
     /\ lockUntil (failures (first :: take k more) u) = None)
  /\ loginAttempts (failures (first :: more ++ [fifth]) u) = 5
  /\ lockUntil (failures (first :: more ++ [fifth]) u)
     = Some (fifth + 7200000).
Proof.
  intros Hl Hlt Hlen.
  assert (lockExpired first u = true) as Hexp.
  { apply lockExpired_true_iff. eauto. }
  destruct (incrementLoginAttempts_expired _ _ Hexp) as [Hc1 Hl1].
  assert (forall k, (k <= 3)%nat ->
     loginAttempts (failures (first :: take k more) u) = 1 + Z.of_nat k
     /\ lockUntil (failures (first :: take k more) u) = None) as Hprefix.
  { intros k Hk.
    change (failures (first :: take k more) u)
      with (failures (take k more) (incrementLoginAttempts first u)).
    destruct (failures_below (take k more) (incrementLoginAttempts first u))
      as [Hc Hn]; [done | |].
    - rewrite Hc1, length_take. unfold MAX_LOGIN_ATTEMPTS. lia.
    - rewrite Hc, Hn, Hc1, length_take. split; [lia | done]. }
  split; [done|].
  destruct (Hprefix 3%nat) as [Hc Hn]; [lia|].
  rewrite firstn_all2 in Hc, Hn by lia.
  rewrite app_comm_cons, failures_snoc.
  set (u4 := failures (first :: more) u) in *.
  assert (lockExpired fifth u4 = false) as Hexp4
    by (unfold lockExpired; by rewrite Hn).
  rewrite (incrementLoginAttempts_counter _ _ Hexp4),
    (incrementLoginAttempts_lock _ _ Hexp4), Hc.
  split; [done|]. unfold isLocked. by rewrite Hn.
Qed.

Lemma lock_expiry_restarts_count_witness :
  let locked :=
    failures [10; 20; 30; 40; 50]
      (newUser "1" "a@b.co" (Some "h") "A" "B" "" (Some credentials)
         None false) in
  lockUntil (failures (7200051 :: [7200052; 7200053; 7200054] ++ [7200055])
               locked) = Some (7200055 + 7200000).
Proof.
  intros locked.
  apply (lock_expiry_restarts_count locked 7200050 7200051
           [7200052; 7200053; 7200054] 7200055);
    [reflexivity | lia | reflexivity].
Defined.

End LockoutLife.

(** ** The registration handler beyond the existing-account branch *)

Section RegisterHandler.
Context `{Externals}.
Import Js Api UserModel UserSchema Security Server RegisterRoute.

(** The validators on the record that registration builds for a new
    e-mail. *)
Lemma validate_new_user freshId key plain first last :
  validate
    (newUser freshId key (Some plain) first last "" (Some credentials) None
       false) = true
  <-> email_match key = true
      /\ (8 <= String.length plain)%nat
      /\ first <> EmptyString /\ (String.length first <= 50)%nat
      /\ last <> EmptyString /\ (String.length last <= 50)%nat.
Proof.
  rewrite validate_iff. cbn [newUser email password firstName lastName bio].
  split.
  - intros (_ & ? & Hp & ? & ? & ? & ? & _). repeat split; try done.
    by apply Hp.
  - intros (? & ? & ? & ? & ? & ?). repeat split; try done.
    + by apply email_match_nonempty.
    + by intros value [= <-].
    + simpl. lia.
Qed.

(** X7. A registration that the limiter admits, with a password that
    passes the strength policy, for an e-mail that has no account, when
    the new record passes the validators of the user schema (the
    sanitized e-mail matches the schema's pattern, the password has at
    least 8 characters, each sanitized and trimmed name is non-empty
    and has at most 50), creates exactly one record, under the
    sanitized e-mail: provider [credentials], the hash of the password,
    the sanitized and trimmed names, a zero counter, no lock, e-mail
    not verified.  The answer is 201 with a token for the new account
    in the body and in the cookie, and every other account stays as it
    is. *)
Theorem register_new_account (now : Z) (salt freshId : string) (st : State)
    (request : NextRequest) (data : RegisterData) :
  let e := toLowerCase (trim (sanitizeEmail (reg_email data))) in
  let first := trim (sanitizeInput (reg_firstName data)) in
  let last := trim (sanitizeInput (reg_lastName data)) in
  RateLimiter.allowed
    (RateLimiter.checkRateLimit now (rateLimitStore st) request
       RateLimiter.rateLimitConfigs.auth).1 = true ->
  isValid (validatePasswordStrength (units (reg_password data))) = true ->
  users st !! e = None ->
  email_match e = true ->
  (8 <= String.length (reg_password data))%nat ->
  first <> EmptyString -> (String.length first <= 50)%nat ->
  last <> EmptyString -> (String.length last <= 50)%nat ->
  let out := POST now salt freshId st request (inr data) in
  let user :=
    {| _id := freshId; email := e;
       password := Some (bcrypt_hash (reg_password data) salt);
       firstName := first; lastName := last;
       avatar := ""; bio := ""; provider := Some credentials;
       providerId := None; emailVerified := false; lastLogin := None;
       loginAttempts := 0; lockUntil := None |} in
  let token := generateToken now freshId e in
  status out.1 = 201
  /\ body out.1
     = SuccessBody
         {| view_id := freshId; view_email := e; view_firstName := first;
            view_lastName := last; view_avatar := ""; view_bio := "" |}
         token "Account created successfully"
  /\ token_cookie out.1 = Some token
  /\ users out.2 !! e = Some user
  /\ forall k, k <> e -> users out.2 !! k = users st !! k.
Proof.
  intros e first last Hlim Hvalid Hnone Hm Hlen Hf Hfl Hl Hll out user token.
  destruct (POST_admitted now salt freshId st request data Hlim Hvalid)
    as [_ Hout].
  unfold email_setters in Hout. fold e first last in Hout.
  rewrite Hnone in Hout. cbn zeta in Hout.
  rewrite (proj2 (validate_new_user freshId e (reg_password data) first last))
    in Hout by done.
  destruct Hout as [Hr Hu].
  subst out. rewrite Hr, Hu. split; [done|]. split; [done|].
  split; [done|]. split; [apply lookup_insert_eq|].
  intros k Hk. by rewrite lookup_insert_ne.
Qed.

(** X8. Whatever a registration call carries, it writes at most one
    record, and a record it writes holds as its password the hash that
    [bcrypt] made of the submitted one: every record of the user
    collection is as before, except possibly the one under the
    sanitized e-mail of a well-formed body, and that one is written
    with the hash.  The login limiter's map is never touched. *)
Theorem register_stores_only_hashes (now : Z) (salt freshId : string)
    (st : State) (request : NextRequest) (parsed : Thrown + RegisterData) :
  let out := POST now salt freshId st request parsed in
  loginAttemptsMap out.2 = loginAttemptsMap st
  /\ forall k,
       users out.2 !! k = users st !! k
       \/ exists data u',
            parsed = inr data
            /\ k = toLowerCase (trim (sanitizeEmail (reg_email data)))
            /\ users out.2 !! k = Some u'
            /\ password u' = Some (bcrypt_hash (reg_password data) salt).
Proof.
  intros out.
  destruct (RateLimiter.allowed
              (RateLimiter.checkRateLimit now (rateLimitStore st) request
                 RateLimiter.rateLimitConfigs.auth).1) eqn:Hlim.
  2: { subst out. unfold POST.
       destruct (RateLimiter.checkRateLimit _ _ _ _) as [limit store].
       cbn [fst] in Hlim. rewrite Hlim. cbn [negb snd users loginAttemptsMap].
       split; [done | by left]. }
  destruct parsed as [[issues|]|data].
  1,2: subst out; unfold POST;
       destruct (RateLimiter.checkRateLimit _ _ _ _) as [limit store];
       cbn [fst] in Hlim; rewrite Hlim; cbn [negb snd users loginAttemptsMap];
       split; [done | by left].
  destruct (isValid (validatePasswordStrength (units (reg_password data))))
    eqn:Hvalid.
  2: { subst out. unfold POST.
       destruct (RateLimiter.checkRateLimit _ _ _ _) as [limit store].
       cbn [fst] in Hlim. rewrite Hlim. cbn [negb]. rewrite Hvalid.
       cbn [negb snd users loginAttemptsMap]. split; [done | by left]. }
  destruct (POST_admitted now salt freshId st request data Hlim Hvalid)
    as [Hmap Hout].
  split; [exact Hmap|]. intros k. unfold email_setters in Hout.
  set (key := toLowerCase (trim (sanitizeEmail (reg_email data)))) in *.
  destruct (users st !! key) as [stored|] eqn:Hu.
  - destruct Hout as [_ Hu']. fold out in Hu'.
    destruct (is_oauth_provider (provider (hydrate stored))
              && negb (truthy (password (hydrate stored)))) eqn:Hbranch.
    + apply andb_true_iff in Hbranch as [Ho Hp].
      apply negb_true_iff in Hp.
      destruct (validate
                  (with_names (trim (sanitizeInput (reg_firstName data)))
                     (trim (sanitizeInput (reg_lastName data)))
                     (with_password (Some (reg_password data))
                        (hydrate stored)))) eqn:Hv.
      * rewrite (existing_account_sets_password _ _ _ _ _ _ Ho Hp Hv) in Hu'.
        cbn [snd] in Hu'. rewrite Hu'.
        destruct (decide (k = key)) as [->|Hk].
        -- right. eexists data, _. rewrite lookup_insert_eq. done.
        -- left. by rewrite lookup_insert_ne.
      * rewrite (existing_account_refused _ _ _ _ _ _ Ho Hp Hv) in Hu'.
        cbn [snd] in Hu'. left. by rewrite Hu'.
    + unfold existing_account in Hu'. rewrite Hbranch in Hu'.
      cbn [snd] in Hu'. left. by rewrite Hu'.
  - cbn zeta in Hout. destruct (validate _) in Hout.
    + destruct Hout as [_ Hu']. fold out in Hu'. rewrite Hu'.
      destruct (decide (k = key)) as [->|Hk].
      * right. eexists data, _. rewrite lookup_insert_eq. done.
      * left. by rewrite lookup_insert_ne.
    + destruct Hout as [_ Hu']. fold out in Hu'. left. by rewrite Hu'.
Qed.

(** X9. Registration followed by login.  After a registration that
    created a new account (the limiter admitted it, the password passes
    the strength policy and the new record passes the validators of the
    user schema), a login with an e-mail that sanitizes to the stored
    one and with the same password, at any instant at which the login
    limiter admits it, is answered 200 with a token for the new
    account; this needs of [bcrypt] only that a hash is never empty and
    accepts the password it was made from. *)
Theorem register_then_login (now later : Z) (salt freshId : string)
    (st : State) (request request' : NextRequest) (data : RegisterData)
    (login : LoginRoute.LoginData) :
  let e := toLowerCase (trim (sanitizeEmail (reg_email data))) in
  let first := trim (sanitizeInput (reg_firstName data)) in
  let last := trim (sanitizeInput (reg_lastName data)) in
  (forall plain, bcrypt_hash plain salt <> EmptyString
                 /\ bcrypt_compare plain (bcrypt_hash plain salt) = true) ->
  RateLimiter.allowed
    (RateLimiter.checkRateLimit now (rateLimitStore st) request
       RateLimiter.rateLimitConfigs.auth).1 = true ->
  isValid (validatePasswordStrength (units (reg_password data))) = true ->
  users st !! e = None ->
  email_match e = true ->
  (8 <= String.length (reg_password data))%nat ->
  first <> EmptyString -> (String.length first <= 50)%nat ->
  last <> EmptyString -> (String.length last <= 50)%nat ->
  sanitizeEmail (LoginRoute.login_email login) = e ->
  LoginRoute.login_password login = reg_password data ->
  LoginLimiter.allowed
    (LoginLimiter.checkLoginRateLimit later (loginAttemptsMap st)
       (LoginRoute.requester_ip (x_forwarded_for request')) e).1 = true ->
  let registered := (POST now salt freshId st request (inr data)).2 in
  let out := LoginRoute.POST later registered request' (inr login) in
  status out.1 = 200
  /\ token_cookie out.1 = Some (generateToken later freshId e).
Proof.
  intros e first last Hbcrypt Hlim Hvalid Hnone Hm Hlen Hf Hfl Hl Hll Hmail
    Hpw Hadm registered out.
  destruct (POST_admitted now salt freshId st request data Hlim Hvalid)
    as [Hmap Hout].
  unfold email_setters in Hout. fold e first last in Hout.
  rewrite Hnone in Hout. cbn zeta in Hout.
  rewrite (proj2 (validate_new_user freshId e (reg_password data) first last))
    in Hout by done.
  destruct Hout as [_ Hu]. fold registered in Hmap, Hu.
  set (user := newUser freshId e
                 (Some (bcrypt_hash (reg_password data) salt))
                 first last "" (Some credentials) None false) in *.
  assert (users registered !! sanitizeEmail (LoginRoute.login_email login)
          = Some user) as Hfound
    by (rewrite Hmail, Hu; apply lookup_insert_eq).
  destruct (POST_found later registered request' login user Hfound)
    as [_ Ha].
  rewrite Hmail, Hmap in Ha. destruct (Ha Hadm) as [Hr _].
  subst out. rewrite Hr, Hpw. unfold LoginRoute.attempt.
  destruct (Hbcrypt (reg_password data)) as [Hne Hcmp].
  assert (comparePassword user (reg_password data) = true) as ->.
  { unfold comparePassword. cbn [password user newUser].
    destruct (String.eqb_spec (bcrypt_hash (reg_password data) salt) "");
      [contradiction | exact Hcmp]. }
  assert (truthy (password user) = true) as ->.
  { cbn. by destruct (String.eqb_spec (bcrypt_hash (reg_password data) salt) ""). }
  done.
Qed.

(** X24. A password that the body schema and the strength policy
    accept can be too short for the user schema: when a registration
    that the limiter admits carries a policy-valid password of fewer
    than eight characters, for an e-mail with no account or with a
    Google or GitHub account that has no password, the save is refused,
    the answer is 500 with the handler's general error message, no
    token is issued and no record is written or changed. *)
Theorem register_short_password_refused (now : Z) (salt freshId : string)
    (st : State) (request : NextRequest) (data : RegisterData) :
  let e := toLowerCase (trim (sanitizeEmail (reg_email data))) in
  RateLimiter.allowed
    (RateLimiter.checkRateLimit now (rateLimitStore st) request
       RateLimiter.rateLimitConfigs.auth).1 = true ->
  isValid (validatePasswordStrength (units (reg_password data))) = true ->
  (String.length (reg_password data) < 8)%nat ->
  (forall stored,
      users st !! e = Some stored ->
      is_oauth_provider (provider stored) = true
      /\ truthy (password stored) = false) ->
  let out := POST now salt freshId st request (inr data) in
  status out.1 = 500
  /\ body out.1
     = ErrorBody "An error occurred during registration" 500
         "INTERNAL_ERROR" None
  /\ token_cookie out.1 = None
  /\ users out.2 = users st.
Proof.
  intros e Hlim Hvalid Hshort Hacc out.
  destruct (POST_admitted now salt freshId st request data Hlim Hvalid)
    as [_ Hout].
  unfold email_setters in Hout. fold e out in Hout.
  destruct (users st !! e) as [stored|] eqn:Hu.
  - destruct (Hacc stored eq_refl) as [Ho Hp].
    rewrite (hydrate_provider stored (oauth_provider_set _ Ho)) in Hout.
    rewrite existing_account_refused in Hout; try done.
    + destruct Hout as [-> ->]. done.
    + destruct (validate _) eqn:Hv; [|done].
      apply validate_iff in Hv as (_ & _ & Hp' & _).
      specialize (Hp' (reg_password data) eq_refl). lia.
  - cbn zeta in Hout. destruct (validate _) eqn:Hv.
    + apply validate_new_user in Hv as (_ & ? & _). lia.
    + destruct Hout as [-> ->]. done.
Qed.

End RegisterHandler.

Lemma register_new_account_witness :
  let out :=
    @RegisterRoute.POST Examples.toy 0 "salt" "u3" Examples.st0
      Examples.register_request (inr Examples2.carol_registers) in
  Api.status out.1 = 201
  /\ Server.users out.2 !! "carol@example.com"
     = Some (UserModel.newUser "u3" "carol@example.com"
               (Some "h:Passw0rd!") "Carol" "C" ""
               (Some UserModel.credentials) None false).
Proof.
  intros out.
  destruct (@register_new_account Examples.toy 0 "salt" "u3" Examples.st0
              Examples.register_request Examples2.carol_registers)
    as (Hs & _ & _ & Hu & _).
  - vm_compute. reflexivity.
  - vm_compute. reflexivity.
  - vm_compute. reflexivity.
  - vm_compute. reflexivity.
  - vm_compute. lia.
  - vm_compute. discriminate.
  - vm_compute. lia.
  - vm_compute. discriminate.
  - vm_compute. lia.
  - split; [exact Hs | exact Hu].
Defined.

Lemma register_then_login_witness :
  Api.status
    (@LoginRoute.POST Examples.toy 60000
       (@RegisterRoute.POST Examples.toy 0 "salt" "u3" Examples.st0
          Examples.register_request (inr Examples2.carol_registers)).2
       Examples.login_request
       (inr {| LoginRoute.login_email := "Carol@Example.com";
               LoginRoute.login_password := "Passw0rd!" |})).1 = 200.
Proof.
  apply (@register_then_login Examples.toy 0 60000 "salt" "u3" Examples.st0
           Examples.register_request Examples.login_request
           Examples2.carol_registers
           {| LoginRoute.login_email := "Carol@Example.com";
              LoginRoute.login_password := "Passw0rd!" |}).
  - intros plain. split; [discriminate|]. cbn. apply String.eqb_refl.
  - vm_compute. reflexivity.
  - vm_compute. reflexivity.
  - vm_compute. reflexivity.
  - vm_compute. reflexivity.
  - vm_compute. lia.
  - vm_compute. discriminate.
  - vm_compute. lia.
  - vm_compute. discriminate.
  - vm_compute. lia.
  - vm_compute. reflexivity.
  - reflexivity.
  - vm_compute. reflexivity.
Defined.

Lemma register_short_password_refused_witness :
  let out :=
    @RegisterRoute.POST Examples.toy 500 "salt" "u9" Examples.st0
      Examples.register_request (inr Examples2.bob_registers_short) in
  Api.status out.1 = 500 /\ Server.users out.2 = Server.users Examples.st0.
Proof.
  intros out.
  destruct (@register_short_password_refused Examples.toy 500 "salt" "u9"
              Examples.st0 Examples.register_request
              Examples2.bob_registers_short) as (Hs & _ & _ & Hu).
  - vm_compute. reflexivity.
  - vm_compute. reflexivity.
  - vm_compute. lia.
  - intros stored Hstored. vm_compute in Hstored.
    injection Hstored as <-. split; reflexivity.
  - split; [exact Hs | exact Hu].
Defined.

(** ** The login limiter over its whole history *)

Section LoginLimiterHistory.
Import LoginLimiter LoginLimiterRuns.

Lemma backoff_capped_from_12 count : 12 <= count -> backoff count = 1800000.
Proof.
  intros Hc. unfold backoff.
  assert (2 ^ 11 <= 2 ^ (count - 1)) by (apply Z.pow_le_mono_r; lia).
  change (2 ^ 11) with 2048 in *. lia.
Qed.

Lemma step_counts_bounded store call :
  counts_bounded store -> counts_bounded (step store call).
Proof.
  intros Hb. destruct call as [now ip email | ip email]; cbn [step].
  - destruct (store !! key_of ip email) as [a|] eqn:Ha.
    + rewrite (check_with_entry _ _ _ _ _ Ha).
      destruct (Z.leb_spec (backoff (count a)) (now - lastAttempt a));
        [|done]. cbn [snd]. intros key b.
      destruct (decide (key_of ip email = key)) as [<-|Hne].
      * rewrite lookup_insert_eq. intros [= <-]. cbn [count].
        destruct (Z.leb_spec 1800000 (now - lastAttempt a)); [lia|].
        specialize (Hb _ _ Ha).
        destruct (Z.le_gt_cases 12 (count a)) as [Hge|]; [|lia].
        rewrite (backoff_capped_from_12 _ Hge) in *. lia.
      * rewrite lookup_insert_ne by done. apply Hb.
    + rewrite (check_without_entry _ _ _ _ Ha). cbn [snd]. intros key b.
      destruct (decide (key_of ip email = key)) as [<-|Hne].
      * rewrite lookup_insert_eq. intros [= <-]. cbn. lia.
      * rewrite lookup_insert_ne by done. apply Hb.
  - intros key b. unfold resetLoginAttempts.
    destruct (decide (key_of ip email = key)) as [<-|Hne].
    + by rewrite lookup_delete_eq.
    + rewrite lookup_delete_ne by done. apply Hb.
Qed.

(** X10. Whatever logins are checked and cleared, at whatever
    instants, every entry of the login limiter holds a count between 1
    and 12: an entry starts at 1, and at 12 the wait has reached the
    thirty minutes after which the count starts again.  (So the power
    of two in the backoff never has a negative exponent and never
    exceeds 2^11.) *)
Theorem login_limiter_count_bounded (calls : list Call) (key : string)
    (a : Attempt) :
  history calls !! key = Some a -> 1 <= count a <= 12.
Proof.
  unfold history. revert key a.
  change (counts_bounded (fold_left step calls ∅)).
  assert (forall store, counts_bounded store ->
                        counts_bounded (fold_left step calls store)) as Hgen.
  { induction calls as [|call calls IH]; intros store Hb; [done|].
    cbn [fold_left]. by apply IH, step_counts_bounded. }
  apply Hgen. intros key a Ha. by rewrite lookup_empty in Ha.
Qed.

Lemma login_limiter_count_bounded_witness :
  exists a,
    history [check 0 "ip" "e"; check 1000 "ip" "e"; check 3000 "ip" "e"]
      !! key_of "ip" "e" = Some a
    /\ 1 <= count a <= 12.
Proof.
  eexists. split; [vm_compute; reflexivity|].
  apply (login_limiter_count_bounded
           [check 0 "ip" "e"; check 1000 "ip" "e"; check 3000 "ip" "e"]
           (key_of "ip" "e")).
  vm_compute. reflexivity.
Defined.

(** X11. The wait that the login limiter reports.  When the clock has
    not gone back since the pair's last admitted login, a call is
    either admitted with a wait of 0, or turned away with a wait of at
    least 1 and at most 1800 seconds; and a call that is turned away
    and repeated once the reported seconds have passed is admitted. *)
Theorem login_limiter_wait_bounds (now : Z)
    (store : gmap string Attempt) (ip email : string) :
  (forall a, store !! key_of ip email = Some a -> lastAttempt a <= now) ->
  let out := checkLoginRateLimit now store ip email in
  (allowed out.1 = true /\ waitTime out.1 = 0)
  \/ (allowed out.1 = false
      /\ 1 <= waitTime out.1 <= 1800
      /\ out.2 = store
      /\ forall later, now + 1000 * waitTime out.1 <= later ->
           allowed (checkLoginRateLimit later store ip email).1 = true).
Proof.
  intros Hclock out. subst out.
  destruct (store !! key_of ip email) as [a|] eqn:Ha.
  - rewrite (check_with_entry _ _ _ _ _ Ha). specialize (Hclock a eq_refl).
    destruct (Z.leb_spec (backoff (count a)) (now - lastAttempt a))
      as [Hle|Hgt]; [by left|].
    right. cbn [fst snd allowed waitTime].
    pose proof (backoff_le_cap (count a)) as Hcap.
    pose proof (ceil_div_1000_spec
                  (backoff (count a) - (now - lastAttempt a))) as Hceil.
    split; [done|]. split; [lia|]. split; [done|].
    intros later Hlater. rewrite (check_with_entry _ _ _ _ _ Ha).
    by destruct (Z.leb_spec (backoff (count a)) (later - lastAttempt a));
      [|lia].
  - left. by rewrite (check_without_entry _ _ _ _ Ha).
Qed.

Lemma login_limiter_wait_bounds_witness :
  let store := history [check 0 "ip" "e"; check 1000 "ip" "e"] in
  waitTime (checkLoginRateLimit 1500 store "ip" "e").1 = 2.
Proof.
  intros store.
  destruct (login_limiter_wait_bounds 1500 store "ip" "e")
    as [[Hadm _] | (_ & _ & _ & _)].
  - intros a Ha. vm_compute in Ha. injection Ha as <-. cbn. lia.
  - vm_compute in Hadm. discriminate Hadm.
  - vm_compute. reflexivity.
Defined.

End LoginLimiterHistory.

(** ** The limiter keyed by type and address, and the sweep *)

Section ByTypeLimiter.
Import Js Api RateLimiterByType.

Lemma type_max_positive type : 1 <= RateLimiter.maxRequests (config_of type).
Proof. by destruct type. Qed.

Lemma type_window_positive type : 0 < RateLimiter.windowMs (config_of type).
Proof. by destruct type. Qed.

Lemma byType_fresh now store type ip :
  (forall e, store !! key_of type ip = Some e ->
             RateLimiter.resetTime e < now) ->
  checkRateLimitByType now store type ip
  = ({| allowed := true;
        remaining := RateLimiter.maxRequests (config_of type) - 1;
        resetTime := now + RateLimiter.windowMs (config_of type);
        waitTime := 0 |},
     <[key_of type ip :=
         {| RateLimiter.count := 1;
            RateLimiter.resetTime :=
              now + RateLimiter.windowMs (config_of type) |}]> store).
Proof.
  intros Hfresh. unfold checkRateLimitByType.
  destruct (store !! key_of type ip) as [e|]; [|done].
  specialize (Hfresh e eq_refl).
  by destruct (Z.ltb_spec (RateLimiter.resetTime e) now); [|lia].
Qed.

Lemma byType_open now store type ip c R :
  store !! key_of type ip
    = Some {| RateLimiter.count := c; RateLimiter.resetTime := R |} ->
  now <= R ->
  checkRateLimitByType now store type ip
  = ({| allowed := c + 1 <=? RateLimiter.maxRequests (config_of type);
        remaining :=
          Z.max 0 (RateLimiter.maxRequests (config_of type) - (c + 1));
        resetTime := R;
        waitTime :=
          if c + 1 <=? RateLimiter.maxRequests (config_of type) then 0
          else ceil_div_1000 (R - now) |},
     <[key_of type ip :=
         {| RateLimiter.count := c + 1; RateLimiter.resetTime := R |}]>
       store).
Proof.
  intros Hs Hle. unfold checkRateLimitByType. rewrite Hs.
  cbn [RateLimiter.resetTime RateLimiter.count].
  by destruct (Z.ltb_spec R now); [lia|].
Qed.

Lemma serve_open type ip R times : forall store c,
  store !! key_of type ip
    = Some {| RateLimiter.count := c; RateLimiter.resetTime := R |} ->
  Forall (fun t => t <= R) times ->
  (forall i t, times !! i = Some t ->
     (serve type ip store times).1 !! i
     = Some {| allowed :=
                 c + Z.of_nat i + 1
                   <=? RateLimiter.maxRequests (config_of type);
               remaining :=
                 Z.max 0 (RateLimiter.maxRequests (config_of type)
                          - (c + Z.of_nat i + 1));
               resetTime := R;
               waitTime :=
                 if c + Z.of_nat i + 1
                      <=? RateLimiter.maxRequests (config_of type)
                 then 0 else ceil_div_1000 (R - t) |})
  /\ (serve type ip store times).2 !! key_of type ip
     = Some {| RateLimiter.count := c + Z.of_nat (length times);
               RateLimiter.resetTime := R |}.
Proof.
  induction times as [|t0 times IH]; intros store c Hs Hall.
  - split; [done|]. cbn. by rewrite Z.add_0_r.
  - apply Forall_cons in Hall as [Ht0 Hall]. cbn [serve].
    rewrite (byType_open _ _ _ _ _ _ Hs Ht0). cbn [fst snd].
    destruct (IH (<[key_of type ip :=
                      {| RateLimiter.count := c + 1;
                         RateLimiter.resetTime := R |}]> store) (c + 1)
                (lookup_insert_eq _ _ _) Hall) as [Hres Hst].
    split.
    + intros [|i] t Hi.
      * injection Hi as <-. cbn. by rewrite Z.add_0_r.
      * rewrite lookup_cons. cbn in Hi. rewrite (Hres i t Hi).
        rewrite Nat2Z.inj_succ.
        by replace (c + Z.succ (Z.of_nat i)) with (c + 1 + Z.of_nat i) by lia.
    + rewrite Hst, length_cons, Nat2Z.inj_succ. do 2 f_equal. lia.
Qed.

(** X12. For each of the four limit types and each address: when a
    call opens a window at [t1] and further calls follow up to the
    window's end, call number [n] (from 1) is allowed exactly when [n]
    is at most the type's [maxRequests]; [remaining] counts down from
    [maxRequests - 1] to 0; an allowed call reports a wait of 0 and a
    refused one the time left to the window's end in whole seconds,
    rounded up, which is at least 0.  The first call after the window's
    end is allowed again and opens a full new window. *)
Theorem byType_window (type : RateLimitType) (ip : string)
    (store : gmap string RateLimiter.RateLimitEntry) (t1 : Z)
    (later : list Z) :
  let config := config_of type in
  let R := t1 + RateLimiter.windowMs config in
  (forall e, store !! key_of type ip = Some e ->
             RateLimiter.resetTime e < t1) ->
  Forall (fun t => t <= R) later ->
  let served := serve type ip store (t1 :: later) in
  (forall i t r,
      (t1 :: later) !! i = Some t ->
      served.1 !! i = Some r ->
      let n := Z.of_nat i + 1 in
      (allowed r = true <-> n <= RateLimiter.maxRequests config)
      /\ remaining r = Z.max 0 (RateLimiter.maxRequests config - n)
      /\ resetTime r = R
      /\ (allowed r = true -> waitTime r = 0)
      /\ (allowed r = false ->
          waitTime r = ceil_div_1000 (R - t) /\ 0 <= waitTime r))
  /\ (forall t, R < t ->
        (checkRateLimitByType t served.2 type ip).1
        = {| allowed := true;
             remaining := RateLimiter.maxRequests config - 1;
             resetTime := t + RateLimiter.windowMs config;
             waitTime := 0 |}).
Proof.
  intros config R Hfresh Hall served. subst served. cbn [serve].
  rewrite (byType_fresh _ _ _ _ Hfresh). cbn [fst snd]. fold config R.
  set (store1 := <[key_of type ip :=
                     {| RateLimiter.count := 1;
                        RateLimiter.resetTime := R |}]> store).
  destruct (serve_open type ip R later store1 1 (lookup_insert_eq _ _ _)
              Hall) as [Hres Hst].
  fold config in Hres. pose proof (type_max_positive type) as Hmax.
  fold config in Hmax. split.
  - intros [|i] t r Ht Hr.
    + injection Hr as <-. cbn [allowed remaining resetTime waitTime].
      change (Z.of_nat 0 + 1) with 1.
      repeat split; try done; lia.
    + rewrite lookup_cons in Hr. cbn in Ht. rewrite (Hres i t Ht) in Hr.
      injection Hr as <-. cbn [allowed remaining resetTime waitTime].
      rewrite Nat2Z.inj_succ.
      replace (1 + Z.of_nat i + 1) with (Z.succ (Z.of_nat i) + 1) by lia.
      destruct (Z.leb_spec (Z.succ (Z.of_nat i) + 1)
                  (RateLimiter.maxRequests config)).
      * repeat split; try done.
      * split; [split; [done | lia]|]. split; [done|]. split; [done|].
        split; [done|]. intros _. split; [done|].
        apply (Forall_lookup_1 _ _ _ _ Hall) in Ht.
        pose proof (ceil_div_1000_spec (R - t)). lia.
  - intros t Ht. rewrite byType_fresh; [done|].
    intros e He. rewrite Hst in He. injection He as <-. cbn. lia.
Qed.

Lemma byType_window_witness :
  let served := serve passwordReset "10.0.0.1" ∅ [0; 10; 20; 30] in
  (allowed <$> served.1 !! 2%nat) = Some true
  /\ (allowed <$> served.1 !! 3%nat) = Some false
  /\ (waitTime <$> served.1 !! 3%nat) = Some 3600.
Proof.
  intros served.
  destruct (byType_window passwordReset "10.0.0.1" ∅ 0 [10; 20; 30])
    as [Hrows _].
  - intros e He. rewrite lookup_empty in He. discriminate He.
  - repeat constructor; cbn; lia.
  - fold served in Hrows.
    destruct (served.1 !! 2%nat) as [r2|] eqn:E2; [|vm_compute in E2; done].
    destruct (served.1 !! 3%nat) as [r3|] eqn:E3; [|vm_compute in E3; done].
    destruct (Hrows 2%nat 20 r2 eq_refl E2) as (Ha2 & _).
    destruct (Hrows 3%nat 30 r3 eq_refl E3) as (Ha3 & _ & _ & _ & Hw3).
    cbn [fmap option_fmap option_map].
    assert (allowed r2 = true) as -> by (apply Ha2; cbn; lia).
    assert (allowed r3 = false) as Hf.
    { destruct (allowed r3); [|done]. cbn in Ha3.
      pose proof (proj1 Ha3 eq_refl). lia. }
    rewrite Hf. destruct (Hw3 Hf) as [-> _]. done.
Defined.

Lemma key_of_inj type ip type' ip' :
  key_of type ip = key_of type' ip' -> type = type' /\ ip = ip'.
Proof.
  unfold key_of.
  destruct type, type'; cbv [type_name String.app]; fold String.app;
    intros Heq; try discriminate Heq; injection Heq as ->; done.
Qed.

Lemma key_of_not_path_key type ip request :
  key_of type ip <> RateLimiter.getRateLimitKey request "".
Proof.
  unfold key_of, RateLimiter.getRateLimitKey.
  destruct type; cbv [type_name String.app]; fold String.app; discriminate.
Qed.

Lemma byType_local now store1 store2 type ip :
  store1 !! key_of type ip = store2 !! key_of type ip ->
  (checkRateLimitByType now store1 type ip).1
  = (checkRateLimitByType now store2 type ip).1.
Proof.
  intros Heq. unfold checkRateLimitByType. rewrite Heq.
  destruct (store2 !! key_of type ip) as [entry|]; [|done].
  by destruct (RateLimiter.resetTime entry <? now).
Qed.

Lemma byType_frame now store type ip key :
  key <> key_of type ip ->
  (checkRateLimitByType now store type ip).2 !! key = store !! key.
Proof.
  intros Hne. unfold checkRateLimitByType.
  destruct (store !! key_of type ip) as [entry|].
  - destruct (RateLimiter.resetTime entry <? now); cbn [snd];
      by rewrite lookup_insert_ne.
  - cbn [snd]. by rewrite lookup_insert_ne.
Qed.

(** X13. The two limiters keep their entries in one map without ever
    meeting: a call for one (type, address) pair does not change the
    answer to a call for another type or another address, a call of the
    path-keyed limiter does not change the answer of the type-keyed
    one, and the other way round. *)
Theorem limiter_entries_independent (now now' : Z)
    (store : gmap string RateLimiter.RateLimitEntry)
    (type : RateLimitType) (ip : string) :
  (forall type' ip',
      (type, ip) <> (type', ip') ->
      (checkRateLimitByType now'
         (checkRateLimitByType now store type ip).2 type' ip').1
      = (checkRateLimitByType now' store type' ip').1)
  /\ (forall request config,
        (checkRateLimitByType now'
           (RateLimiter.checkRateLimit now store request config).2
           type ip).1
        = (checkRateLimitByType now' store type ip).1)
  /\ (forall request config,
        (RateLimiter.checkRateLimit now'
           (checkRateLimitByType now store type ip).2 request config).1
        = (RateLimiter.checkRateLimit now' store request config).1).
Proof.
  split; [|split].
  - intros type' ip' Hne. apply byType_local, byType_frame.
    intros Heq. apply key_of_inj in Heq as [-> ->]. by apply Hne.
  - intros request config. apply byType_local, checkRateLimit_frame.
    apply key_of_not_path_key.
  - intros request config. apply checkRateLimit_local, byType_frame.
    intros Heq. symmetry in Heq. by apply key_of_not_path_key in Heq.
Qed.

Lemma sweep_lookup now store key e :
  sweep now store !! key = Some e
  <-> store !! key = Some e /\ now <= RateLimiter.resetTime e.
Proof.
  unfold sweep. rewrite map_lookup_filter_Some. cbn. split.
  - intros [? ?]. split; [done | lia].
  - intros [? ?]. split; [done | lia].
Qed.

Lemma sweep_lookup_None now store key :
  sweep now store !! key = None
  <-> forall e, store !! key = Some e -> RateLimiter.resetTime e < now.
Proof.
  unfold sweep. rewrite map_lookup_filter_None. cbn. split.
  - intros [Hn | Hall] e He; [by rewrite Hn in He|].
    specialize (Hall e He). lia.
  - intros Hall. destruct (store !! key) as [e|] eqn:He; [|by left].
    right. intros e' [= <-]. specialize (Hall e eq_refl). lia.
Qed.

Lemma sweep_insert now store key e :
  now <= RateLimiter.resetTime e ->
  sweep now (<[key := e]> store) = <[key := e]> (sweep now store).
Proof.
  intros Hle. unfold sweep. apply map_filter_insert_True. cbn. lia.
Qed.

(** X14. The periodic sweep deletes exactly the entries whose window
    ended before the sweep, and no caller can tell: for either limiter,
    a call made at or after the instant of the sweep gets the same
    answer with or without it, and sweeping before the call leaves the
    same map as sweeping after it. *)
Theorem sweep_is_invisible (now t : Z)
    (store : gmap string RateLimiter.RateLimitEntry) :
  now <= t ->
  (forall key e,
      sweep now store !! key = Some e
      <-> store !! key = Some e /\ now <= RateLimiter.resetTime e)
  /\ (forall request config,
        0 <= RateLimiter.windowMs config ->
        RateLimiter.checkRateLimit t (sweep now store) request config
        = ((RateLimiter.checkRateLimit t store request config).1,
           sweep now (RateLimiter.checkRateLimit t store request config).2))
  /\ (forall type ip,
        checkRateLimitByType t (sweep now store) type ip
        = ((checkRateLimitByType t store type ip).1,
           sweep now (checkRateLimitByType t store type ip).2)).
Proof.
  intros Hle. split; [apply sweep_lookup|]. split.
  - intros request config Hw. unfold RateLimiter.checkRateLimit.
    set (key := RateLimiter.getRateLimitKey request "").
    destruct (store !! key) as [e|] eqn:He.
    + destruct (Z.ltb_spec (RateLimiter.resetTime e) t) as [Hlt|Hge].
      * assert (sweep now store !! key = None
                \/ sweep now store !! key = Some e) as [-> | ->].
        { destruct (sweep now store !! key) as [e'|] eqn:E; [|by left].
          apply sweep_lookup in E as [E _]. rewrite He in E.
          injection E as <-. by right. }
        -- cbn [fst snd]. by rewrite sweep_insert by (cbn; lia).
        -- destruct (Z.ltb_spec (RateLimiter.resetTime e) t); [|lia].
           cbn [fst snd]. by rewrite sweep_insert by (cbn; lia).
      * assert (sweep now store !! key = Some e) as ->
          by (apply sweep_lookup; split; [done | lia]).
        destruct (Z.ltb_spec (RateLimiter.resetTime e) t); [lia|].
        cbn [fst snd]. by rewrite sweep_insert by (cbn; lia).
    + assert (sweep now store !! key = None) as ->.
      { apply sweep_lookup_None. intros e He'. by rewrite He in He'. }
      cbn [fst snd]. by rewrite sweep_insert by (cbn; lia).
  - intros type ip. pose proof (type_window_positive type) as Hw.
    unfold checkRateLimitByType. set (key := key_of type ip).
    destruct (store !! key) as [e|] eqn:He.
    + destruct (Z.ltb_spec (RateLimiter.resetTime e) t) as [Hlt|Hge].
      * assert (sweep now store !! key = None
                \/ sweep now store !! key = Some e) as [-> | ->].
        { destruct (sweep now store !! key) as [e'|] eqn:E; [|by left].
          apply sweep_lookup in E as [E _]. rewrite He in E.
          injection E as <-. by right. }
        -- cbn [fst snd]. by rewrite sweep_insert by (cbn; lia).
        -- destruct (Z.ltb_spec (RateLimiter.resetTime e) t); [|lia].
           cbn [fst snd]. by rewrite sweep_insert by (cbn; lia).
      * assert (sweep now store !! key = Some e) as ->
          by (apply sweep_lookup; split; [done | lia]).
        destruct (Z.ltb_spec (RateLimiter.resetTime e) t); [lia|].
        cbn [fst snd]. by rewrite sweep_insert by (cbn; lia).
    + assert (sweep now store !! key = None) as ->.
      { apply sweep_lookup_None. intros e He'. by rewrite He in He'. }
      cbn [fst snd]. by rewrite sweep_insert by (cbn; lia).
Qed.

Lemma sweep_is_invisible_witness :
  let store := (serve api "10.0.0.1" ∅ [0; 10]).2 in
  (checkRateLimitByType 70000 (sweep 65000 store) api "10.0.0.1").1
  = (checkRateLimitByType 70000 store api "10.0.0.1").1.
Proof.
  intros store.
  destruct (sweep_is_invisible 65000 70000 store) as (_ & _ & Hby); [lia|].
  by rewrite Hby.
Defined.

End ByTypeLimiter.

(** ** The NextAuth callbacks *)

Section NextAuthCallbacks.
Import Js UserModel UserSchema AuthConfig.

(** The callback for a Google or GitHub sign-in, branch by branch: a
    loaded record always has a provider, so the linking branch is never
    taken. *)
Lemma signIn_cases freshId users user account :
  is_oauth_provider (Some (account_provider account)) = true ->
  signIn freshId users user (Some account)
  = let key := toLowerCase (trim (user_email user)) in
    match users !! key with
    | Some _ => (true, users)
    | None =>
        let names := split_first_space (or_else (user_name user) "User") in
        let created :=
          newUser freshId key None (trim (or_else (Some names.1) "User"))
            (trim (or_else (Some names.2) ""))
            (or_else (user_image user) "")
            (Some (account_provider account))
            (Some (providerAccountId account)) true in
        if validate created then (true, <[key := created]> users)
        else (false, users)
    end.
Proof.
  intros Ho. unfold signIn, findOne, email_setters, name_setters.
  rewrite Ho. cbn zeta.
  destruct (users !! toLowerCase (trim (user_email user))) as [stored|];
    [|done].
  cbn [fmap option_fmap option_map].
  destruct (hydrate_fields stored) as (_ & _ & _ & _ & _ & _ & Hp).
  by destruct (provider (hydrate stored)).
Qed.

Lemma signIn_other freshId users user account :
  match account with
  | Some account => is_oauth_provider (Some (account_provider account)) = false
  | None => True
  end ->
  signIn freshId users user account = (true, users).
Proof.
  unfold signIn. destruct account as [account|]; [|done]. by intros ->.
Qed.

(** A text without a space has nothing after its first space. *)
Lemma split_first_space_single s :
  (forall before after, s <> before +:+ " " +:+ after) ->
  split_first_space s = (s, EmptyString).
Proof.
  induction s as [|c s IH]; intros Hs; [done|].
  cbn [split_first_space].
  destruct (Ascii.eqb_spec c " ") as [->|Hc].
  - by destruct (Hs EmptyString s).
  - rewrite IH; [done|]. intros before after ->.
    by destruct (Hs (String c before) after).
Qed.

(** X15. An account is created once and never linked.  A Google or
    GitHub sign-in looks the e-mail up lower-cased and trimmed.  When
    that e-mail has an account, whatever its provider, the sign-in is
    accepted and nothing is written: no provider is attached to it.
    When it has none and the sign-in is accepted, a record with the
    fresh identifier and the sign-in's provider is stored under the
    lower-cased, trimmed e-mail.  No other record changes, and after an
    accepted sign-in every further sign-in for that e-mail, in any
    letter case and with blanks around it, with whatever provider and
    profile, is accepted and changes nothing. *)
Theorem signIn_creates_once (freshId : string) (users : gmap string IUser)
    (user : NextAuthUser) (account : Account) :
  is_oauth_provider (Some (account_provider account)) = true ->
  let key := toLowerCase (trim (user_email user)) in
  let first := signIn freshId users user (Some account) in
  (forall k, k <> key -> first.2 !! k = users !! k)
  /\ (forall existing,
        users !! key = Some existing -> first = (true, users))
  /\ (users !! key = None ->
      first.1 = true ->
      exists created,
        first.2 !! key = Some created
        /\ _id created = freshId
        /\ email created = key
        /\ provider created = Some (account_provider account)
        /\ providerId created = Some (providerAccountId account))
  /\ (first.1 = true ->
      forall freshId' user' account',
        toLowerCase (trim (user_email user')) = key ->
        signIn freshId' first.2 user' account' = (true, first.2)).
Proof.
  intros Ho key first. subst first.
  rewrite (signIn_cases _ _ _ _ Ho). cbn zeta. fold key.
  assert (forall stored (m : gmap string IUser) freshId' user' account',
            m !! key = Some stored ->
            toLowerCase (trim (user_email user')) = key ->
            signIn freshId' m user' account' = (true, m)) as Hagain.
  { intros stored m freshId' user' account' Hm Hk.
    destruct account' as [account'|]; [|done].
    destruct (is_oauth_provider (Some (account_provider account'))) eqn:Ho';
      [|by apply signIn_other].
    rewrite (signIn_cases _ _ _ _ Ho'). cbn zeta. by rewrite Hk, Hm. }
  destruct (users !! key) as [stored|] eqn:Hu.
  - split; [done|]. split; [done|]. split; [done|].
    intros _ freshId' user' account'. by apply (Hagain stored).
  - destruct (validate _) eqn:Hv; cbn [fst snd].
    + split; [intros k Hk; by rewrite lookup_insert_ne|].
      split; [done|]. split.
      * intros _ _. eexists. split; [apply lookup_insert_eq|]. done.
      * intros _ freshId' user' account'.
        eapply Hagain. apply lookup_insert_eq.
    + split; [done|]. split; [done|]. split; done.
Qed.

Lemma signIn_creates_once_witness :
  let first :=
    signIn "u7" (Server.users Examples.st0)
      {| user_id := "g-7"; user_email := "Dave@Example.com";
         user_name := Some "Dave van Dyke"; user_image := None;
         user_firstName := None; user_lastName := None |}
      (Some {| account_provider := google; providerAccountId := "g-7" |}) in
  first.1 = true
  /\ signIn "u8" first.2
       {| user_id := "h-1"; user_email := "dave@example.com";
          user_name := Some "Someone Else"; user_image := None;
          user_firstName := None; user_lastName := None |}
       (Some {| account_provider := github; providerAccountId := "h-1" |})
     = (true, first.2).
Proof.
  intros first.
  assert (first.1 = true) as Hok by (vm_compute; reflexivity).
  split; [exact Hok|].
  destruct (signIn_creates_once "u7" (Server.users Examples.st0)
              {| user_id := "g-7"; user_email := "Dave@Example.com";
                 user_name := Some "Dave van Dyke"; user_image := None;
                 user_firstName := None; user_lastName := None |}
              {| account_provider := google; providerAccountId := "g-7" |})
    as (_ & _ & _ & Hagain); [reflexivity|].
  apply (Hagain Hok). reflexivity.
Defined.

(** X16. A sign-in never changes a record that exists: credentials,
    names, provider and lockout state all stay.  A record that a
    sign-in creates is stored under the lower-cased, trimmed e-mail,
    which matches the pattern of the schema; it has no password, a
    Google or GitHub provider, the e-mail marked verified, non-empty
    names, a zero counter and no lock.  A sign-in that is refused
    writes nothing. *)
Theorem signIn_keeps_credentials (freshId : string)
    (users : gmap string IUser) (user : NextAuthUser)
    (account : option Account) :
  let out := signIn freshId users user account in
  (forall k u, users !! k = Some u -> out.2 !! k = Some u)
  /\ (forall k u',
        users !! k = None ->
        out.2 !! k = Some u' ->
        k = toLowerCase (trim (user_email user))
        /\ email u' = k
        /\ email_match k = true
        /\ password u' = None
        /\ is_oauth_provider (provider u') = true
        /\ emailVerified u' = true
        /\ firstName u' <> EmptyString /\ lastName u' <> EmptyString
        /\ loginAttempts u' = 0 /\ lockUntil u' = None)
  /\ (out.1 = false -> out.2 = users).
Proof.
  intros out. subst out.
  assert (forall m : gmap string IUser,
            (forall k u, m !! k = Some u -> m !! k = Some u)
            /\ (forall k (u' : IUser),
                  m !! k = None -> m !! k = Some u' ->
                  k = toLowerCase (trim (user_email user))
                  /\ email u' = k
                  /\ email_match k = true
                  /\ password u' = None
                  /\ is_oauth_provider (provider u') = true
                  /\ emailVerified u' = true
                  /\ firstName u' <> EmptyString
                  /\ lastName u' <> EmptyString
                  /\ loginAttempts u' = 0 /\ lockUntil u' = None)) as Hsame.
  { intros m. split; [done|]. intros k u' Hn Hs. by rewrite Hn in Hs. }
  destruct account as [account|];
    [|rewrite signIn_other by done; cbn [fst snd];
      destruct (Hsame users); done].
  destruct (is_oauth_provider (Some (account_provider account))) eqn:Ho;
    [|rewrite signIn_other by done; cbn [fst snd];
      destruct (Hsame users); done].
  rewrite (signIn_cases _ _ _ _ Ho). cbn zeta.
  set (key := toLowerCase (trim (user_email user))).
  destruct (users !! key) as [stored|] eqn:Hu;
    [cbn [fst snd]; destruct (Hsame users); done|].
  destruct (validate _) eqn:Hv;
    [|cbn [fst snd]; destruct (Hsame users); done].
  cbn [fst snd]. apply validate_iff in Hv
    as (_ & Hm & _ & Hf & _ & Hl & _).
  cbn [newUser email firstName lastName] in Hm, Hf, Hl.
  split; [|split; [|done]].
  - intros k u Hk. destruct (decide (key = k)) as [<-|Hne].
    + by rewrite Hu in Hk.
    + by rewrite lookup_insert_ne.
  - intros k u' Hn Hs. destruct (decide (key = k)) as [<-|Hne].
    + rewrite lookup_insert_eq in Hs. injection Hs as <-.
      cbn [newUser email password provider emailVerified firstName lastName
           loginAttempts lockUntil].
      repeat split; done.
    + rewrite lookup_insert_ne in Hs by done. by rewrite Hn in Hs.
Qed.

(** X25. A profile with a one-word name cannot get an account.  When
    a Google or GitHub sign-in comes for an e-mail that has no account,
    and the name of the profile is missing, empty or without a space,
    the last name that the callback derives is empty, the schema
    refuses the new record, nothing is written and the sign-in is
    refused; this repeats at every further attempt. *)
Theorem signIn_single_name_refused (freshId : string)
    (users : gmap string IUser) (user : NextAuthUser) (account : Account) :
  is_oauth_provider (Some (account_provider account)) = true ->
  users !! toLowerCase (trim (user_email user)) = None ->
  (forall name before after,
      user_name user = Some name -> name <> before +:+ " " +:+ after) ->
  signIn freshId users user (Some account) = (false, users).
Proof.
  intros Ho Hu Hname. rewrite (signIn_cases _ _ _ _ Ho). cbn zeta.
  rewrite Hu.
  assert ((split_first_space (or_else (user_name user) "User")).2
          = EmptyString) as ->.
  { rewrite split_first_space_single; [done|].
    unfold or_else. destruct (user_name user) as [name|] eqn:En.
    - cbn [truthy default from_option].
      destruct (String.eqb_spec name "") as [->|Hne]; cbn [negb].
      + intros before after. by destruct before as [|? [|? [|? [|? [|? ?]]]]].
      + intros before after. by apply Hname.
    - cbn [truthy]. intros before after.
      by destruct before as [|? [|? [|? [|? [|? ?]]]]]. }
  assert (validate
            (newUser freshId (toLowerCase (trim (user_email user))) None
               (trim (or_else
                        (Some (split_first_space
                                 (or_else (user_name user) "User")).1)
                        "User"))
               (trim (or_else (Some EmptyString) ""))
               (or_else (user_image user) "")
               (Some (account_provider account))
               (Some (providerAccountId account)) true) = false) as ->;
    [|done].
  destruct (validate _) eqn:Hv; [|done].
  apply validate_iff in Hv as (_ & _ & _ & _ & _ & Hl & _).
  by cbn in Hl.
Qed.

Lemma signIn_single_name_refused_witness :
  signIn "u7" (Server.users Examples.st0)
    {| user_id := "g-9"; user_email := "cher@example.com";
       user_name := Some "Cher"; user_image := None;
       user_firstName := None; user_lastName := None |}
    (Some {| account_provider := google; providerAccountId := "g-9" |})
  = (false, Server.users Examples.st0).
Proof.
  apply (signIn_single_name_refused "u7" (Server.users Examples.st0)
           {| user_id := "g-9"; user_email := "cher@example.com";
              user_name := Some "Cher"; user_image := None;
              user_firstName := None; user_lastName := None |}
           {| account_provider := google; providerAccountId := "g-9" |}).
  - reflexivity.
  - vm_compute. reflexivity.
  - intros name before after [= <-].
    destruct before as [|a [|b [|c [|d [|e rest]]]]]; try discriminate;
      cbn; intros [= ? ? ? ?]; subst; discriminate.
Defined.

(** X17. The credentials provider of NextAuth does not know the
    lockout: [authorize] answers a user exactly when the lowercased
    e-mail has an account with a password hash that [bcrypt] accepts,
    and its answer is the same whatever the counter, the lock and the
    last login of the stored records are; so a locked account is still
    authorized with the right password. *)
Theorem authorize_ignores_lockout `{Externals}
    (users : gmap string IUser) (mail candidate : string) :
  (is_Some (authorize users (Some (mail, candidate)))
   <-> exists u hash,
         users !! toLowerCase mail = Some u
         /\ password u = Some hash /\ hash <> EmptyString
         /\ bcrypt_compare candidate hash = true)
  /\ (forall upd,
        authorize (updateOne upd <$> users) (Some (mail, candidate))
        = authorize users (Some (mail, candidate)))
  /\ (forall now u hash,
        users !! toLowerCase mail = Some u ->
        isLocked now u = true ->
        password u = Some hash -> hash <> EmptyString ->
        bcrypt_compare candidate hash = true ->
        is_Some (authorize users (Some (mail, candidate)))).
Proof.
  assert (is_Some (authorize users (Some (mail, candidate)))
          <-> exists u hash,
                users !! toLowerCase mail = Some u
                /\ password u = Some hash /\ hash <> EmptyString
                /\ bcrypt_compare candidate hash = true) as Hiff.
  { unfold authorize.
    destruct (users !! toLowerCase mail) as [u|]; cycle 1.
    { split; [by intros [? ?] | by intros (? & ? & ? & _)]. }
    destruct (password u) as [hash|] eqn:Hp; cycle 1.
    { cbn. split; [by intros [? ?] | by intros (? & ? & [= <-] & ? & _); congruence]. }
    cbn [truthy default from_option id]. unfold id.
    destruct (String.eqb_spec hash "") as [->|Hne]; cbn [negb].
    { split; [by intros [? ?]|]. intros (? & h & [= <-] & Hh & Hn & _).
      rewrite Hp in Hh. by injection Hh as <-. }
    destruct (bcrypt_compare candidate hash) eqn:Hc.
    - split; [|eauto]. intros _. exists u, hash. done.
    - split; [by intros [? ?]|]. intros (? & h & [= <-] & Hh & _ & Hc').
      rewrite Hp in Hh. injection Hh as <-. congruence. }
  split; [exact Hiff|]. split.
  - intros upd. unfold authorize. rewrite lookup_fmap.
    by destruct (users !! toLowerCase mail) as [u|].
  - intros now u hash Hu _ Hp Hne Hc. apply Hiff. by exists u, hash.
Qed.

Lemma authorize_ignores_lockout_witness :
  is_Some
    (authorize (H := Examples.toy)
       (<["alice@example.com" :=
            AccountRuns.failures [10; 20; 30; 40; 50] Examples.alice]>
          (Server.users Examples.st0))
       (Some ("Alice@example.com", "Passw0rd!"))).
Proof.
  apply (proj2 (proj2 (authorize_ignores_lockout (H := Examples.toy) _ _ _))
           60 (AccountRuns.failures [10; 20; 30; 40; 50] Examples.alice)
           "h:Passw0rd!").
  - vm_compute. reflexivity.
  - vm_compute. reflexivity.
  - reflexivity.
  - discriminate.
  - vm_compute. reflexivity.
Defined.

(** The lookup step of [jwt], alone. *)
Lemma jwt_store_step users t :
  jwt users t None None
  = if truthy (token_email t) then
      match
        users !! toLowerCase (trim (default EmptyString (token_email t)))
      with
      | Some dbUser =>
          {| token_email := token_email t;
             token_id := Some (_id dbUser);
             token_firstName := Some (firstName dbUser);
             token_lastName := Some (lastName dbUser);
             token_picture :=
               if truthy (Some (avatar dbUser)) then Some (avatar dbUser)
               else token_picture t |}
      | None => t
      end
    else t.
Proof.
  unfold jwt, findOne, email_setters.
  destruct (truthy (token_email t)); [|done].
  destruct (users !! _) as [dbUser|]; [|done].
  cbn [fmap option_fmap option_map].
  by destruct (hydrate_fields dbUser) as (-> & _ & _ & -> & -> & -> & _).
Qed.

(** The last step of [jwt] works on the token that the first two steps
    left, which has the e-mail claim of the token given. *)
Lemma jwt_last_step users token user update :
  exists t2,
    token_email t2 = token_email token
    /\ jwt users token user update = jwt users t2 None None.
Proof.
  set (t1 := match user with
             | Some user =>
                 {| token_email := token_email token;
                    token_id := Some (user_id user);
                    token_firstName := user_firstName user;
                    token_lastName := user_lastName user;
                    token_picture := token_picture token |}
             | None => token
             end).
  exists (match update with
          | Some session =>
              {| token_email := token_email t1;
                 token_id := token_id t1;
                 token_firstName := update_firstName session;
                 token_lastName := update_lastName session;
                 token_picture := update_image session |}
          | None => t1
          end).
  subst t1. by destruct user as [user|], update as [session|].
Qed.

(** X18. The [jwt] callback refreshes the claims from the store.  When
    the token's e-mail, lower-cased and trimmed as the lookup does, has
    an account, the identifier and the names of the result are those of
    the stored record, whatever the sign-in user and the session update
    say, and the picture is the stored avatar unless that is empty; the
    e-mail claim never changes; and refreshing a refreshed token again
    changes nothing. *)
Theorem jwt_refreshes_from_store (users : gmap string IUser) (token : Token)
    (user : option NextAuthUser) (update : option SessionUpdate) :
  let refreshed := jwt users token user update in
  token_email refreshed = token_email token
  /\ (forall mail dbUser,
        token_email token = Some mail -> mail <> EmptyString ->
        users !! toLowerCase (trim mail) = Some dbUser ->
        token_id refreshed = Some (_id dbUser)
        /\ token_firstName refreshed = Some (firstName dbUser)
        /\ token_lastName refreshed = Some (lastName dbUser)
        /\ (avatar dbUser <> EmptyString ->
            token_picture refreshed = Some (avatar dbUser)))
  /\ jwt users refreshed None None = refreshed.
Proof.
  intros refreshed. subst refreshed.
  destruct (jwt_last_step users token user update) as (t2 & Hm & ->).
  rewrite <- Hm. clear Hm token user update.
  pose proof (jwt_store_step users) as Hlast. rewrite (Hlast t2).
  destruct (token_email t2) as [mail|] eqn:Hm;
    cbn [truthy default from_option id]; cycle 1.
  { split; [done|]. split; [done|]. rewrite Hlast. by rewrite Hm. }
  destruct (String.eqb_spec mail "") as [->|Hne]; cbn [negb].
  { split; [done|]. split; [by intros ? ? [= <-]|].
    rewrite Hlast. by rewrite Hm. }
  unfold id.
  destruct (users !! toLowerCase (trim mail)) as [dbUser|] eqn:Hu; cycle 1.
  { split; [done|]. split; [intros ? ? [= <-] _ Hd; by rewrite Hu in Hd|].
    rewrite Hlast, Hm. cbn [truthy default from_option id].
    destruct (String.eqb_spec mail ""); [done|]. cbn [negb]. unfold id.
    by rewrite Hu. }
  split; [done|]. split.
  - intros m d [= <-] _ Hd. rewrite Hu in Hd. injection Hd as <-.
    cbn [token_id token_firstName token_lastName token_picture truthy].
    repeat split; try done.
    intros Ha. by destruct (String.eqb_spec (avatar dbUser) "").
  - rewrite Hlast.
    cbn [token_email truthy default from_option id token_picture].
    destruct (String.eqb_spec mail ""); [done|]. cbn [negb]. unfold id.
    rewrite Hu. by destruct (String.eqb_spec (avatar dbUser) "").
Qed.

Lemma jwt_refreshes_from_store_witness :
  token_firstName
    (jwt (Server.users Examples.st0)
       {| token_email := Some "Bob@Example.com"; token_id := Some "stale";
          token_firstName := Some "Robert"; token_lastName := None;
          token_picture := None |} None None)
  = Some "Bob".
Proof.
  destruct (jwt_refreshes_from_store (Server.users Examples.st0)
              {| token_email := Some "Bob@Example.com";
                 token_id := Some "stale";
                 token_firstName := Some "Robert"; token_lastName := None;
                 token_picture := None |} None None) as (_ & Hstore & _).
  destruct (Hstore "Bob@Example.com" Examples.bob) as (_ & Hf & _);
    [reflexivity | discriminate | vm_compute; reflexivity | exact Hf].
Defined.

End NextAuthCallbacks.

(** ** The middleware's decision in full *)

Section BoundaryDecision.
Import Js Api Middleware.

(** X19. The middleware's redirects settle in one step and it never
    lets an unauthenticated request through to the dashboard.  When it
    redirects, it is either to the login page, for a request it counts
    as unauthenticated, with the requested path as [callbackUrl], or to
    the dashboard, for a request it counts as authenticated; the
    request that follows the redirect with the same cookies is passed
    on with the security headers, so there is no redirect loop.  And a
    request for a path under [/dashboard] is passed on only when a
    session token decoded or the [token] cookie is non-empty. *)
Theorem middleware_redirects_settle
    (token : option AuthMiddleware.SessionToken) (request : NextRequest) :
  let follow path :=
    {| x_forwarded_for := x_forwarded_for request;
       authorization := authorization request;
       cookie_token := cookie_token request;
       pathname := path |} in
  (forall path callback,
      middleware token request = redirect path callback ->
      middleware token (follow path) = next securityHeaders
      /\ ((path = "/auth/login"%string
           /\ callback = Some (pathname request)
           /\ isAuthenticated token request = false)
          \/ (path = "/dashboard"%string
              /\ callback = None
              /\ isAuthenticated token request = true)))
  /\ (forall headers,
        middleware token request = next headers ->
        startsWith (pathname request) "/dashboard" = true ->
        headers = securityHeaders
        /\ isAuthenticated token request = true).
Proof.
  intros follow.
  assert (forall path, isAuthenticated token (follow path)
                       = isAuthenticated token request) as Hsame.
  { intros path. unfold isAuthenticated. by destruct token. }
  split.
  - intros path callback. unfold middleware at 1.
    destruct (existsb _ protectedPaths && negb _) eqn:Hprot.
    + intros [= <- <-]. apply andb_true_iff in Hprot as [_ Hauth].
      apply negb_true_iff in Hauth. split; [|left; done].
      unfold middleware. rewrite Hsame, Hauth.
      cbn [follow pathname]. by rewrite andb_false_r.
    + destruct (existsb _ authPaths && _) eqn:Hentry; [|done].
      intros [= <- <-]. apply andb_true_iff in Hentry as [_ Hauth].
      split; [|right; done].
      unfold middleware. rewrite Hsame, Hauth.
      cbn [follow pathname negb]. rewrite andb_false_r.
      by rewrite (dashboard_not_auth_path "/dashboard" eq_refl).
  - intros headers. unfold middleware, protectedPaths. cbn [existsb].
    rewrite orb_false_r. intros Hout Hpath. rewrite Hpath in Hout.
    destruct (isAuthenticated token request); cbn [negb andb] in Hout;
      [|done].
    rewrite (dashboard_not_auth_path _ Hpath) in Hout.
    cbn [andb] in Hout. by injection Hout as <-.
Qed.

End BoundaryDecision.

(** ** The sanitizers and the injection patterns *)

Section Sanitizers.
Import Js Security SecurityMore.

Lemma lower_char_not_upper c : is_upper (N_of_ascii (lower_char c)) = false.
Proof.
  destruct c as [[] [] [] [] [] [] [] []]; vm_compute; reflexivity.
Qed.

Lemma toLowerCase_no_upper s :
  Forall (fun n => is_upper n = false) (units (toLowerCase s)).
Proof.
  induction s as [|c s IH]; cbn [toLowerCase units]; constructor;
    [apply lower_char_not_upper | done].
Qed.

Lemma trim_start_Forall (P : N -> Prop) s :
  Forall P (units s) -> Forall P (units (trim_start s)).
Proof.
  induction s as [|c s IH]; [done|]. cbn [trim_start]. intros Hall.
  destruct (is_space c); [|done]. apply IH.
  cbn [units] in Hall. by apply Forall_cons in Hall as [_ ?].
Qed.

Lemma trim_end_Forall (P : N -> Prop) s :
  Forall P (units s) -> Forall P (units (trim_end s)).
Proof.
  induction s as [|c s IH]; [done|]. cbn [trim_end units]. intros Hall.
  apply Forall_cons in Hall as [Hc Hall]. specialize (IH Hall).
  destruct (trim_end s) as [|c' s'].
  - destruct (is_space c); [constructor|]. cbn [units]. by constructor.
  - cbn [units] in IH |- *. by constructor.
Qed.

Lemma strip_Forall (P : N -> Prop) s :
  Forall P (units s) ->
  Forall (fun n => P n /\ n <> 60%N /\ n <> 62%N /\ n <> 39%N /\ n <> 34%N)
    (units (strip_quotes_angles s)).
Proof.
  induction s as [|c s IH]; [constructor|].
  cbn [strip_quotes_angles units]. intros Hall.
  apply Forall_cons in Hall as [Hc Hall]. specialize (IH Hall).
  destruct (N.eqb_spec (N_of_ascii c) 60); [done|].
  destruct (N.eqb_spec (N_of_ascii c) 62); [done|].
  destruct (N.eqb_spec (N_of_ascii c) 39); [done|].
  destruct (N.eqb_spec (N_of_ascii c) 34); [done|].
  cbn [orb units]. by constructor.
Qed.

(** X20. Whatever text is given, the sanitized e-mail, which is the
    key of the login limiter and of the account lookup, contains no
    capital letter A-Z, no angle bracket, no apostrophe and no double
    quote. *)
Theorem sanitizeEmail_canonical (email : string) :
  Forall (fun n => is_upper n = false
                   /\ n <> 60%N /\ n <> 62%N /\ n <> 39%N /\ n <> 34%N)
    (units (sanitizeEmail email)).
Proof.
  unfold sanitizeEmail, trim.
  apply strip_Forall, trim_end_Forall, trim_start_Forall,
    toLowerCase_no_upper.
Qed.

Lemma check_snd ok msg acc :
  snd (check ok msg acc)
  = snd acc ++ (if ok then [] else match msg with
                                   | Some m => [m]
                                   | None => []
                                   end).
Proof.
  unfold check. destruct ok, msg; cbn [snd]; by rewrite ?app_nil_r.
Qed.

(** The feedback that the code collects, in closed form. *)
Lemma feedback_closed_form password :
  feedback (validatePasswordStrength password)
  = (if 8 <=? Z.of_nat (length password) then []
     else ["Password should be at least 8 characters"%string])
    ++ (if existsb is_lower password then []
        else ["Add lowercase letters"%string])
    ++ (if existsb is_upper password then []
        else ["Add uppercase letters"%string])
    ++ (if existsb is_digit password then []
        else ["Add numbers"%string])
    ++ (if existsb is_symbol password then []
        else ["Add special characters"%string])
    ++ (if matches_common_pattern password
        then ["Avoid common patterns"%string] else []).
Proof.
  unfold validatePasswordStrength. cbn [feedback].
  assert (forall acc : Z * list string,
            snd (if matches_common_pattern password
                 then (Z.max 0 (fst acc - 2),
                       snd acc ++ ["Avoid common patterns"%string])
                 else acc)
            = snd acc ++ (if matches_common_pattern password
                          then ["Avoid common patterns"%string] else []))
    as ->.
  { intros acc. destruct (matches_common_pattern password); cbn [snd];
      by rewrite ?app_nil_r. }
  rewrite !check_snd. cbn [snd app].
  destruct (12 <=? Z.of_nat (length password)); rewrite ?app_nil_r;
    by rewrite <- ?app_assoc.
Qed.

Lemma In_optional_message (wanted m : string) (b : bool) :
  String.eqb wanted m = false ->
  ~ In wanted (if b then [] else [m]).
Proof.
  intros Hne. apply String.eqb_neq in Hne.
  destruct b; cbn [In]; [tauto|]. intros [Heq|[]]. by apply Hne.
Qed.

Lemma valid_criteria password :
  isValid (validatePasswordStrength password) = true ->
  4 <= criteria_met password.
Proof.
  rewrite isValid_iff_score, score_closed_form.
  destruct (matches_common_pattern password); lia.
Qed.

(** X21. What the strength policy tells the caller.  A password that
    is not valid always comes with at least one feedback message; the
    message about common patterns is given exactly when one of the
    five patterns matches; and length alone never makes a password
    valid: a valid password draws from at least two of the four
    character classes, and from all four when it has fewer than eight
    code units. *)
Theorem validatePasswordStrength_feedback (password : jsstring) :
  let r := validatePasswordStrength password in
  (isValid r = false -> feedback r <> [])
  /\ (In "Avoid common patterns"%string (feedback r)
      <-> matches_common_pattern password = true)
  /\ (isValid r = true -> 2 <= classes_met password)
  /\ (isValid r = true -> Z.of_nat (length password) < 8 ->
      classes_met password = 4).
Proof.
  intros r. subst r. split; [|split; [|split]].
  - intros Hv Hnil. rewrite feedback_closed_form in Hnil.
    repeat (apply app_eq_nil in Hnil as [? Hnil]).
    assert (4 <= score (validatePasswordStrength password)) as Hs.
    { rewrite score_closed_form. unfold criteria_met.
      destruct (8 <=? Z.of_nat (length password)); [|done].
      destruct (existsb is_lower password); [|done].
      destruct (existsb is_upper password); [|done].
      destruct (existsb is_digit password); [|done].
      destruct (existsb is_symbol password); [|done].
      destruct (matches_common_pattern password); [done|].
      unfold b2z. destruct (12 <=? Z.of_nat (length password)); lia. }
    apply isValid_iff_score in Hs. congruence.
  - rewrite feedback_closed_form, !in_app_iff. split.
    + intros [H|[H|[H|[H|[H|H]]]]];
        try (by apply In_optional_message in H).
      by destruct (matches_common_pattern password).
    + intros ->. do 5 right. by left.
  - intros Hv%valid_criteria. revert Hv. unfold criteria_met, classes_met.
    generalize (existsb is_lower password) (existsb is_upper password)
      (existsb is_digit password) (existsb is_symbol password)
      (8 <=? Z.of_nat (length password))
      (12 <=? Z.of_nat (length password)).
    intros [] [] [] [] [] []; unfold b2z; lia.
  - intros Hv%valid_criteria Hlen. revert Hv.
    unfold criteria_met, classes_met.
    destruct (Z.leb_spec 8 (Z.of_nat (length password))); [lia|].
    destruct (Z.leb_spec 12 (Z.of_nat (length password))); [lia|].
    generalize (existsb is_lower password) (existsb is_upper password)
      (existsb is_digit password) (existsb is_symbol password).
    intros [] [] [] []; unfold b2z; lia.
Qed.

Lemma validatePasswordStrength_feedback_witness :
  feedback (validatePasswordStrength (units "abcdefghijkl")) <> [].
Proof.
  apply (proj1 (validatePasswordStrength_feedback (units "abcdefghijkl"))).
  vm_compute. reflexivity.
Defined.

(** A pattern of [nosqlPatterns] begins with the dollar sign. *)
Lemma nosql_pattern_dollar pattern :
  In pattern nosqlPatterns -> exists rest, pattern = 36%N :: rest.
Proof.
  unfold nosqlPatterns. cbn [In units N_of_ascii].
  intros [<-|[<-|[<-|[<-|[<-|[<-|[<-|[]]]]]]]]; eexists; reflexivity.
Qed.

Lemma occurs_embed eq pat pre s post :
  occurs eq pat s = true -> occurs eq pat (pre ++ s ++ post) = true.
Proof.
  rewrite !occurs_iff. intros (a & mid & b & -> & Hf).
  exists (pre ++ a), mid, (b ++ post). split; [|done].
  by rewrite <- !app_assoc.
Qed.

(** X22. [hasNoSQLInjection] flags an input exactly when one of the
    seven operator names occurs in it in some letter case.  So an input
    without a dollar sign is never flagged, and a text that contains a
    flagged input is flagged as well. *)
Theorem hasNoSQLInjection_dollar (input : jsstring) :
  (hasNoSQLInjection input = true
   <-> exists pattern pre mid post,
         In pattern nosqlPatterns
         /\ input = pre ++ mid ++ post
         /\ Forall2 (fun p c => eq_ci p c = true) pattern mid)
  /\ (~ In 36%N input -> hasNoSQLInjection input = false)
  /\ (forall pre post,
        hasNoSQLInjection input = true ->
        hasNoSQLInjection (pre ++ input ++ post) = true).
Proof.
  assert (hasNoSQLInjection input = true
          <-> exists pattern pre mid post,
                In pattern nosqlPatterns
                /\ input = pre ++ mid ++ post
                /\ Forall2 (fun p c => eq_ci p c = true) pattern mid)
    as Hiff.
  { unfold hasNoSQLInjection. rewrite existsb_exists. split.
    - intros (pattern & Hin & Hocc). apply occurs_iff in Hocc
        as (pre & mid & post & ? & ?). by exists pattern, pre, mid, post.
    - intros (pattern & pre & mid & post & Hin & Hs & Hf).
      exists pattern. split; [done|]. apply occurs_iff.
      by exists pre, mid, post. }
  split; [exact Hiff|]. split.
  - intros Hno. destruct (hasNoSQLInjection input) eqn:E; [|done].
    exfalso. apply Hno.
    destruct (proj1 Hiff eq_refl)
      as (pattern & pre & mid & post & Hin & -> & Hf).
    apply nosql_pattern_dollar in Hin as [rest ->].
    inversion Hf as [|p c ps mid' Hpc Hf' E1 E2]; subst.
    assert (c = 36%N) as ->.
    { unfold eq_ci in Hpc. apply N.eqb_eq in Hpc.
      change (canonicalize 36) with 36%N in Hpc. unfold canonicalize in Hpc.
      destruct (is_lower c) eqn:El; [|done].
      unfold is_lower, in_range in El.
      apply andb_true_iff in El as [El1 El2].
      apply N.leb_le in El1, El2. lia. }
    apply in_or_app. right. by left.
  - intros pre post. unfold hasNoSQLInjection.
    rewrite !existsb_exists. intros (pattern & Hin & Hocc).
    exists pattern. split; [done|]. by apply occurs_embed.
Qed.

Lemma hasNoSQLInjection_dollar_witness :
  hasNoSQLInjection (units "where is my order, and when?") = false.
Proof.
  apply (proj1 (proj2 (hasNoSQLInjection_dollar _))).
  vm_compute. intuition discriminate.
Defined.

Lemma endsWith_app prefix suffix : endsWith (prefix +:+ suffix) suffix = true.
Proof.
  induction prefix as [|c prefix IH].
  - change ("" +:+ suffix) with suffix.
    destruct suffix; cbn [endsWith]; by rewrite String.eqb_refl.
  - change (String c prefix +:+ suffix) with (String c (prefix +:+ suffix)).
    cbn [endsWith]. by rewrite IH, orb_true_r.
Qed.

(** X23. [isValidOrigin] at its edges.  A missing or empty origin is
    refused by every list, the list with [*] included; the empty list
    refuses every origin; an entry of the form [*.domain] accepts every
    non-empty origin that ends with [domain], whatever stands before
    it, a dot or not; and an origin that a list accepts is accepted by
    every longer list. *)
Theorem isValidOrigin_edges :
  (forall allowedOrigins,
      isValidOrigin None allowedOrigins = false
      /\ isValidOrigin (Some EmptyString) allowedOrigins = false)
  /\ (forall origin, isValidOrigin origin [] = false)
  /\ (forall before domain,
        before +:+ domain <> EmptyString ->
        isValidOrigin (Some (before +:+ domain)) ["*." +:+ domain] = true)
  /\ (forall origin allowedOrigins more,
        isValidOrigin origin allowedOrigins = true ->
        isValidOrigin origin (more ++ allowedOrigins) = true
        /\ isValidOrigin origin (allowedOrigins ++ more) = true).
Proof.
  split; [done|]. split; [|split].
  - intros [origin|]; [|done]. unfold isValidOrigin.
    by destruct (String.eqb origin "").
  - intros before domain Hne. unfold isValidOrigin.
    destruct (String.eqb_spec (before +:+ domain) ""); [done|].
    cbn [existsb].
    change ("*." +:+ domain) with (String "*" (String "." domain)).
    cbn [startsWith substring_from].
    rewrite !Ascii.eqb_refl. cbn [andb].
    rewrite endsWith_app.
    by destruct (String.eqb (String "*" (String "." domain)) "*").
  - intros [origin|] allowedOrigins more; [|done]. unfold isValidOrigin.
    destruct (String.eqb origin ""); [done|].
    rewrite !existsb_app. intros ->. by rewrite orb_true_r.
Qed.

Lemma isValidOrigin_edges_witness :
  isValidOrigin (Some "https://evilexample.com") ["*.example.com"] = true.
Proof.
  apply (proj1 (proj2 (proj2 isValidOrigin_edges))
           "https://evil" "example.com").
  discriminate.
Defined.

End Sanitizers.
